(** * translate-strings.mjs: a shallow embedding and its verified properties

    The program walks the syntax tree of a source file, sends every string
    literal, JSX text and comment that contains Japanese characters to a
    translation backend, and writes each answer back into the tree.

    - JavaScript strings are sequences of UTF-16 code units.
    - The tree is the Babel tree jscodeshift hands to the codemod: nodes carry
      the comments attached to them, and a path is a position in the tree.
    - The parser, the printer, the OpenAI client and the file system are an
      explicit environment; each of their calls returns or throws.
    - What a run does is recorded as a list of events, in order.
    - [transform] is written in two phases, as the source runs: the loops,
      which never yield, and the barrier [await Promise.all], at which the
      suspended calls are resumed in the order the backend answers; that
      order is a parameter of the model.

    The command-line driver ([main], lines 128-140) iterates [processFile]
    over the files [glob] finds; [glob], the working directory and the
    arguments are parameters of its model. *)

From Stdlib Require Import ZArith Ascii String.
From stdpp Require Import base tactics option list numbers.

Local Open Scope Z_scope.

(** ** JavaScript strings *)

Module JsString.

(** A string value: its UTF-16 code units, each in [0, 65535]. *)
Definition jstring := list Z.

(** An ASCII literal of the source, as code units. *)
Definition js (s : string) : jstring :=
  (fun a => Z.of_nat (nat_of_ascii a)) <$> list_ascii_of_string s.

(** The double quote character, which template literals of the source embed. *)
Definition dquote : jstring := [34].

(** [WhiteSpace] and [LineTerminator] of ECMAScript, the code units that
    [String.prototype.trim] strips. *)
Definition is_white_space (c : Z) : bool :=
  (c =? 0x0009) || (c =? 0x000A) || (c =? 0x000B) || (c =? 0x000C) ||
  (c =? 0x000D) || (c =? 0x0020) || (c =? 0x00A0) || (c =? 0x1680) ||
  ((0x2000 <=? c) && (c <=? 0x200A)) ||
  (c =? 0x2028) || (c =? 0x2029) || (c =? 0x202F) || (c =? 0x205F) ||
  (c =? 0x3000) || (c =? 0xFEFF).

Fixpoint trimStart (s : jstring) : jstring :=
  match s with
  | [] => []
  | c :: s' => if is_white_space c then trimStart s' else s
  end.

Definition trimEnd (s : jstring) : jstring := reverse (trimStart (reverse s)).

(** [String.prototype.trim]. *)
Definition trim (s : jstring) : jstring := trimEnd (trimStart s).

(** [s] occurs inside [t]. *)
Definition embeds (s t : jstring) : Prop := ∃ pre post, t = pre ++ s ++ post.

(** First and last code unit of a string. *)
Definition first_unit (s : jstring) : option Z := head s.
Definition last_unit (s : jstring) : option Z := head (reverse s).

(** [String.prototype.endsWith]. *)
Definition endsWith (s suffix : jstring) : bool :=
  bool_decide (drop (length s - length suffix)%nat s = suffix).

(** Code points of a string ([String.prototype.codePointAt] read left to
    right): a leading surrogate followed by a trailing one is a single
    supplementary code point, every other code unit stands for itself. *)
Definition is_lead (c : Z) : bool := (0xD800 <=? c) && (c <=? 0xDBFF).
Definition is_trail (c : Z) : bool := (0xDC00 <=? c) && (c <=? 0xDFFF).

Fixpoint code_points (s : jstring) : list Z :=
  match s with
  | [] => []
  | c :: s' =>
      match s' with
      | d :: s'' =>
          if is_lead c && is_trail d
          then ((c - 0xD800) * 0x400 + (d - 0xDC00) + 0x10000) :: code_points s''
          else c :: code_points s'
      | [] => [c]
      end
  end.

End JsString.
Export JsString.

(** ** Script detector (lines 40-44) *)

(** One alternative of the character class of the regular expression. *)
Definition in_range (lo hi c : Z) : bool := (lo <=? c) && (c <=? hi).

(** The character class
    [[\u3000-\u303f\u3040-\u309f\u30a0-\u30ff\uff00-\uff9f\u4e00-\u9faf\u3400-\u4dbf]]:
    the pattern has no [u] flag, so it is matched against code units. *)
Definition japanese_class (c : Z) : bool :=
  in_range 0x3000 0x303f c || in_range 0x3040 0x309f c ||
  in_range 0x30a0 0x30ff c || in_range 0xff00 0xff9f c ||
  in_range 0x4e00 0x9faf c || in_range 0x3400 0x4dbf c.

(** [containsJapanese(text)]: [RegExp.prototype.test] of a pattern without
    the [g] flag keeps no state between calls; it succeeds when some position
    of the text matches the class. *)
Definition containsJapanese (text : jstring) : bool := existsb japanese_class text.

(** The blocks the detector's description names, with the extent Unicode
    gives them: CJK Symbols and Punctuation, Hiragana, Katakana, Halfwidth
    and Fullwidth Forms, CJK Unified Ideographs and CJK Unified Ideographs
    Extension A. These ranges are those of the standard, not those of the
    regular expression. *)
Inductive script_block :=
  | FullWidthPunctuation | Hiragana | Katakana | FullWidthForms
  | CommonIdeographs | ExtendedIdeographs.

Definition block_range (b : script_block) : Z * Z :=
  match b with
  | FullWidthPunctuation => (0x3000, 0x303F)
  | Hiragana => (0x3040, 0x309F)
  | Katakana => (0x30A0, 0x30FF)
  | FullWidthForms => (0xFF00, 0xFFEF)
  | CommonIdeographs => (0x4E00, 0x9FFF)
  | ExtendedIdeographs => (0x3400, 0x4DBF)
  end.

(** A code point of the target script, as the description delimits it. *)
Definition target_script (cp : Z) : Prop :=
  ∃ b, (block_range b).1 <= cp <= (block_range b).2.

(** ** Syntax tree

    The tree jscodeshift builds: every node may carry the comments recast
    attached to it, string literals and JSX text are leaves with a [value],
    and every other node type is a [type] tag over its child nodes. *)

Inductive comment_type := CommentLine | CommentBlock.

Record Comment := mkComment { c_type : comment_type; c_value : jstring }.

#[warnings="-register-all"]
Inductive node :=
  | StringLiteral (value : jstring) (comments : list Comment)
  | JSXText (value : jstring) (comments : list Comment)
  | Other (type : string) (comments : list Comment) (children : list node).

Definition comments_of (n : node) : list Comment :=
  match n with
  | StringLiteral _ cs | JSXText _ cs | Other _ cs _ => cs
  end.

Definition children_of (n : node) : list node :=
  match n with
  | Other _ _ ch => ch
  | _ => []
  end.

Definition with_comments (cs : list Comment) (n : node) : node :=
  match n with
  | StringLiteral v _ => StringLiteral v cs
  | JSXText v _ => JSXText v cs
  | Other ty _ ch => Other ty cs ch
  end.

(** [node.value] of a literal or text node ([undefined], here the empty
    string, elsewhere; the program reads it only on nodes that have one). *)
Definition value_of (n : node) : jstring :=
  match n with
  | StringLiteral v _ | JSXText v _ => v
  | Other _ _ _ => []
  end.

Definition is_StringLiteral (n : node) : bool :=
  match n with StringLiteral _ _ => true | _ => false end.

Definition is_JSXText (n : node) : bool :=
  match n with JSXText _ _ => true | _ => false end.

(** The builders [j.stringLiteral(v)] and [j.jsxText(v)]: a fresh node that
    has the given value and nothing else, in particular no comments. *)
Definition stringLiteral (v : jstring) : node := StringLiteral v [].
Definition jsxText (v : jstring) : node := JSXText v [].

(** The position of a node: the child indices from the root down to it. *)
Definition addr := list nat.

(** What a path of a collection points to: a node, or the [i]-th comment
    attached to a node. *)
Inductive path :=
  | AtNode (a : addr)
  | AtComment (a : addr) (i : nat).

#[global] Instance path_eq_dec : EqDecision path.
Proof. solve_decision. Defined.

Definition under (i : nat) (p : path) : path :=
  match p with
  | AtNode a => AtNode (i :: a)
  | AtComment a k => AtComment (i :: a) k
  end.

Fixpoint node_at (a : addr) (n : node) : option node :=
  match a with
  | [] => Some n
  | i :: a' => children_of n !! i ≫= node_at a'
  end.

Definition comment_at (a : addr) (i : nat) (n : node) : option Comment :=
  node_at a n ≫= λ m, comments_of m !! i.

(** The traversal behind [root.find]: every node with its position, a parent
    before its children, children from left to right. *)
Fixpoint paths (n : node) : list (addr * node) :=
  ([], n) ::
  match n with
  | Other _ _ ch =>
      (fix go (i : nat) (l : list node) : list (addr * node) :=
         match l with
         | [] => []
         | c :: l' => (prod_map (cons i) id <$> paths c) ++ go (S i) l'
         end) 0%nat ch
  | _ => []
  end.

(** [root.find(j.StringLiteral).paths()] and [root.find(j.JSXText).paths()]:
    each path holds its position and the node found there. *)
Definition find_StringLiteral (root : node) : list (addr * node) :=
  filter (λ p, is_StringLiteral p.2 = true) (paths root).

Definition find_JSXText (root : node) : list (addr * node) :=
  filter (λ p, is_JSXText p.2 = true) (paths root).

(** [root.find(j.Comment).paths()]: the traversal visits the [comments] of
    a node after all its other fields, so the comments attached to the nodes
    below a node come before the node's own, which come in the order of the
    array; [path.value] is the comment object. Each path holds the position
    of the node that carries the comment and the comment's index there. *)
Fixpoint find_Comment (n : node) : list (addr * nat * Comment) :=
  match n with
  | Other _ _ ch =>
      (fix go (i : nat) (l : list node) : list (addr * nat * Comment) :=
         match l with
         | [] => []
         | c :: l' =>
             (prod_map (prod_map (cons i) id) id <$> find_Comment c) ++ go (S i) l'
         end) 0%nat ch
  | _ => []
  end ++
  imap (λ i c, ([], i, c)) (comments_of n).

(** Change the node at a position in place; a position that is not in the
    tree changes nothing. *)
Fixpoint alter_at (f : node → node) (a : addr) (n : node) : node :=
  match a with
  | [] => f n
  | i :: a' =>
      match n with
      | Other ty cs ch => Other ty cs (alter (alter_at f a') i ch)
      | _ => n
      end
  end.

(** The two ways the callbacks write to the tree. *)
Inductive write :=
  | ReplaceWith (a : addr) (new : node)
  | AssignCommentValue (a : addr) (i : nat) (v : jstring).

Definition assign_value (v : jstring) (c : Comment) : Comment :=
  {| c_type := c_type c; c_value := v |}.

(** [j(path).replaceWith(new)] puts [new] where the path's node was.
    [path.value.value = v] assigns to the comment object the path holds; when
    the node that carried this comment has been replaced by then, the object
    is no longer part of the tree and the tree does not change: a node made by
    a builder has no comments, so the update by position finds nothing. *)
Definition apply_write (w : write) (root : node) : node :=
  match w with
  | ReplaceWith a new => alter_at (λ _, new) a root
  | AssignCommentValue a i v =>
      alter_at (λ n, with_comments (alter (assign_value v) i (comments_of n)) n) a root
  end.

Definition write_target (w : write) : path :=
  match w with
  | ReplaceWith a _ => AtNode a
  | AssignCommentValue a i _ => AtComment a i
  end.

(** ** Environment: parser, printer, translation backend, file system *)

Record JsError := mkError { message : jstring }.

(** How a call ends: it returns a value or throws (for a promise: it is
    fulfilled or rejected). *)
Inductive completion (A : Type) :=
  | Normal (a : A)
  | Throw (e : JsError).
Arguments Normal {A} a.
Arguments Throw {A} e.

(** The body of a chat completion request. *)
Record ChatRequest := mkRequest { model : jstring; messages : list (jstring * jstring) }.

(** What the program reads of a chat completion: for each choice the
    [message.content] string, which the backend may leave [null]. *)
Definition ChatCompletion := list (option jstring).

Record Env := mkEnv {
  (** [j(source, options)] with the parser [withParser] selected *)
  parse : option jstring → jstring → completion node;
  (** [root.toSource()] *)
  toSource : node → completion jstring;
  (** [new OpenAI()], which throws when the client cannot be configured *)
  new_OpenAI : completion unit;
  (** how the [k]-th promise of [openai.chat.completions.create] settles *)
  chat_completions_create : nat → ChatRequest → completion ChatCompletion;
  (** [fs.readFile(file, "utf8")] and [fs.writeFile(file, data)] *)
  readFile : jstring → completion jstring;
  writeFile : jstring → jstring → completion unit
}.

Inductive find_type := FindStringLiteral | FindJSXText | FindComment.

(** What a run does besides computing its result, in the order it happens. *)
Inductive event :=
  | console_log (msg : jstring)
  | console_error (msg : jstring) (err : option JsError)
  | create_request (k : nat) (req : ChatRequest)
  | root_find (ty : find_type)
  | tree_write (w : write)
  | fs_readFile (file : jstring)
  | fs_writeFile (file data : jstring).

(** ** Translation client (lines 11-38) *)

(** The promise an async call hands back: already settled, or suspended at
    its [await] until the backend answers. *)
Inductive promise :=
  | Settled (r : completion jstring)
  | Awaiting.

Definition translation_request (text : jstring) : ChatRequest :=
  {| model := js "gpt-4o-mini";
     messages :=
       [ (js "system",
          js "You are a translator. Translate the given Japanese text to English.");
         (js "user", text) ] |}.

Definition TypeError_undefined : JsError :=
  mkError (js "Cannot read properties of undefined (reading 'message')").

Definition TypeError_null : JsError :=
  mkError (js "Cannot read properties of null (reading 'trim')").

(** [response.choices[0].message.content.trim()] *)
Definition first_content_trimmed (response : ChatCompletion) : completion jstring :=
  match response with
  | [] => Throw TypeError_undefined
  | None :: _ => Throw TypeError_null
  | Some content :: _ => Normal (trim content)
  end.

Definition dry_run_report (text fileName : jstring) : jstring :=
  js "File: " ++ fileName ++ js ", Would translate: " ++ dquote ++ text ++ dquote.

Definition dry_run_marker (text : jstring) : jstring :=
  js "[DRYRUN] Would translate: " ++ dquote ++ text ++ dquote.

Definition translation_failed (text fileName : jstring) : jstring :=
  js "Translation failed for text: " ++ dquote ++ text ++ dquote ++
  js " in file: " ++ dquote ++ fileName ++ dquote.

(** [translateToEnglish] from its call to its first [await] (lines 11-19):
    the dry-run branch returns at once; otherwise the client is built,
    outside the [try], and the request is handed to it. *)
Definition translateToEnglish_call (env : Env) (k : nat)
    (text : jstring) (isDryRun : bool) (fileName : jstring) : promise * list event :=
  if isDryRun then
    (Settled (Normal (dry_run_marker text)), [console_log (dry_run_report text fileName)])
  else
    match new_OpenAI env with
    | Throw e => (Settled (Throw e), [])
    | Normal _ => (Awaiting, [create_request k (translation_request text)])
    end.

(** [translateToEnglish] from the backend's answer on (lines 19-37), all of
    it inside the [try]. *)
Definition translateToEnglish_resume (env : Env) (k : nat)
    (text fileName : jstring) : jstring * list event :=
  match chat_completions_create env k (translation_request text) with
  | Throw error => (text, [console_error (translation_failed text fileName) (Some error)])
  | Normal response =>
      match first_content_trimmed response with
      | Throw error => (text, [console_error (translation_failed text fileName) (Some error)])
      | Normal translated => (translated, [])
      end
  end.

(** The whole call: what its promise settles to, and what it did. *)
Definition translateToEnglish (env : Env) (k : nat)
    (text : jstring) (isDryRun : bool) (fileName : jstring) : completion jstring * list event :=
  match translateToEnglish_call env k text isDryRun fileName with
  | (Settled r, log) => (r, log)
  | (Awaiting, log) =>
      let '(v, log') := translateToEnglish_resume env k text fileName in
      (Normal v, log ++ log')
  end.

(** ** transform (lines 46-104) *)

(** The node a callback closes over. *)
Inductive target :=
  | LiteralNode (a : addr)
  | TextNode (a : addr)
  | CommentNode (a : addr) (i : nat).

Definition target_path (tg : target) : path :=
  match tg with
  | LiteralNode a | TextNode a => AtNode a
  | CommentNode a i => AtComment a i
  end.

(** One entry of [translationPromises]: the promise of the translation and
    what its [then] callback captured. [t_id] is the entry's index. *)
Record task := mkTask {
  t_id : nat;
  t_target : target;
  t_text : jstring;
  t_promise : promise
}.

(** Template literal [` ${translatedText} `]. *)
Definition padded (translatedText : jstring) : jstring :=
  js " " ++ translatedText ++ js " ".

(** The three [then] callbacks (lines 67, 79, 91). *)
Definition callback (tg : target) (translatedText : jstring) : write :=
  match tg with
  | LiteralNode a => ReplaceWith a (stringLiteral translatedText)
  | TextNode a => ReplaceWith a (jsxText (padded translatedText))
  | CommentNode a i => AssignCommentValue a i (padded translatedText)
  end.

Definition collecting := (list task * list event)%type.

(** [translationPromises.push(translateToEnglish(text, dryRun, filePath).then(...))] *)
Definition push (env : Env) (dryRun : bool) (filePath : jstring)
    (tg : target) (text : jstring) (st : collecting) : collecting :=
  let k := length st.1 in
  let '(pr, log) := translateToEnglish_call env k text dryRun filePath in
  (st.1 ++ [mkTask k tg text pr], st.2 ++ log).

(** Lines 62-72. *)
Definition loop_StringLiteral (env : Env) (dryRun : bool) (filePath : jstring)
    (root : node) (st : collecting) : collecting :=
  foldl (λ st p,
           if containsJapanese (value_of p.2)
           then push env dryRun filePath (LiteralNode p.1) (value_of p.2) st
           else st)
        (st.1, st.2 ++ [root_find FindStringLiteral])
        (find_StringLiteral root).

(** Lines 74-83. *)
Definition loop_JSXText (env : Env) (dryRun : bool) (filePath : jstring)
    (root : node) (st : collecting) : collecting :=
  foldl (λ st p,
           let text := trim (value_of p.2) in
           if containsJapanese text
           then push env dryRun filePath (TextNode p.1) text st
           else st)
        (st.1, st.2 ++ [root_find FindJSXText])
        (find_JSXText root).

(** Lines 85-96. *)
Definition loop_Comment (env : Env) (dryRun : bool) (filePath : jstring)
    (root : node) (st : collecting) : collecting :=
  foldl (λ st p,
           let commentText := trim (c_value p.2) in
           if containsJapanese commentText
           then push env dryRun filePath (CommentNode p.1.1 p.1.2) commentText st
           else st)
        (st.1, st.2 ++ [root_find FindComment])
        (find_Comment root).

(** Lines 60-96: the three loops run one after the other without ever
    yielding, so all of them read the tree as it was parsed. *)
Definition collect (env : Env) (dryRun : bool) (filePath : jstring)
    (root : node) : collecting :=
  loop_Comment env dryRun filePath root
    (loop_JSXText env dryRun filePath root
       (loop_StringLiteral env dryRun filePath root ([], []))).

(** The order in which suspended calls are resumed is the order in which the
    backend answers. A schedule names, answer after answer, which of the
    calls still waiting is served next (modulo their number); when it runs
    out the rest is served in order. Every list of numbers is a schedule. *)
Fixpoint schedule {A} (sched : list nat) (pending : list A) : list A :=
  match sched with
  | [] => pending
  | k :: sched' =>
      match pending !! (k mod length pending)%nat with
      | None => pending
      | Some x => x :: schedule sched' (delete (k mod length pending)%nat pending)
      end
  end.

Definition is_awaiting (t : task) : bool :=
  match t_promise t with Awaiting => true | Settled _ => false end.

(** Callbacks of promises that were settled when created run first, in
    creation order; the others follow the schedule. *)
Definition settle_order (sched : list nat) (tasks : list task) : list task :=
  filter (λ t, ¬ is_awaiting t = true) tasks ++
  schedule sched (filter (λ t, is_awaiting t = true) tasks).

(** A promise settles and its [then] callback, if it is fulfilled, writes to
    the tree. *)
Definition settle (env : Env) (filePath : jstring)
    (st : node * list event) (t : task) : node * list event :=
  match t_promise t with
  | Settled (Throw _) => st
  | Settled (Normal translatedText) =>
      let w := callback (t_target t) translatedText in
      (apply_write w st.1, st.2 ++ [tree_write w])
  | Awaiting =>
      let '(translatedText, log) :=
        translateToEnglish_resume env (t_id t) (t_text t) filePath in
      let w := callback (t_target t) translatedText in
      (apply_write w st.1, st.2 ++ log ++ [tree_write w])
  end.

(** The first promise that is rejected, which is what [Promise.all] rejects
    with. *)
Fixpoint first_rejection (tasks : list task) : option JsError :=
  match tasks with
  | [] => None
  | t :: tasks' =>
      match t_promise t with
      | Settled (Throw e) => Some e
      | _ => first_rejection tasks'
      end
  end.

(** Line 98, [await Promise.all(translationPromises)]. *)
Definition await_all (env : Env) (sched : list nat) (filePath : jstring)
    (tasks : list task) (root : node) : completion node * list event :=
  match first_rejection tasks with
  | Some e => (Throw e, [])
  | None =>
      let st := foldl (settle env filePath) (root, []) (settle_order sched tasks) in
      (Normal st.1, st.2)
  end.

(** Lines 60-98 on a parsed tree: the tree when the barrier is passed. *)
Definition translate_tree (env : Env) (sched : list nat) (dryRun : bool)
    (filePath : jstring) (root : node) : completion node * list event :=
  let '(tasks, log) := collect env dryRun filePath root in
  let '(r, log') := await_all env sched filePath tasks root in
  (r, log ++ log').

Record FileInfo := mkFileInfo { path_of : jstring; source : jstring }.

(** The [try] block, lines 52-99. [api] is the parser [withParser] was given. *)
Definition transform_try (env : Env) (sched : list nat)
    (fileInfo : FileInfo) (api : option jstring) (dryRun : bool)
    : completion jstring * list event :=
  match parse env api (source fileInfo) with
  | Throw e => (Throw e, [])
  | Normal root =>
      match translate_tree env sched dryRun (path_of fileInfo) root with
      | (Throw e, log) => (Throw e, log)
      | (Normal root', log) =>
          match toSource env root' with
          | Throw e => (Throw e, log)
          | Normal output => (Normal output, log)
          end
      end
  end.

Definition failed_to_process (filePath : jstring) (error : JsError) : jstring :=
  js "Failed to process " ++ filePath ++ js ": " ++ message error.

(** [transform(fileInfo, api, options)] with its [catch], lines 100-103. *)
Definition transform (env : Env) (sched : list nat)
    (fileInfo : FileInfo) (api : option jstring) (dryRun : bool) : jstring * list event :=
  match transform_try env sched fileInfo api dryRun with
  | (Normal output, log) => (output, log)
  | (Throw error, log) =>
      (source fileInfo,
       log ++ [console_error (failed_to_process (path_of fileInfo) error) None])
  end.

(** ** processFile (lines 106-126) *)

Definition skipped (file : jstring) (error : JsError) : list event :=
  [ console_error (js "Error processing " ++ file ++ js ":") (Some error);
    console_log (js "Skipped " ++ file ++ js " due to error") ].

(** The argument of [jscodeshift.withParser] (line 112). *)
Definition parser_for (file : jstring) : option jstring :=
  if endsWith file (js ".ts") || endsWith file (js ".tsx")
  then Some (js "tsx") else None.

Definition processFile (env : Env) (sched : list nat)
    (file : jstring) (dryRun : bool) : list event :=
  match readFile env file with
  | Throw error => fs_readFile file :: skipped file error
  | Normal src =>
      let fileInfo := {| path_of := file; source := src |} in
      let api := parser_for file in
      let '(output, log) := transform env sched fileInfo api dryRun in
      if negb dryRun then
        match writeFile env file output with
        | Throw error => fs_readFile file :: log ++ fs_writeFile file output :: skipped file error
        | Normal _ =>
            fs_readFile file :: log ++
            [fs_writeFile file output; console_log (js "Processed " ++ file)]
        end
      else fs_readFile file :: log
  end.

(** ** main (lines 6-9 and 128-140) *)

(** What the program reads of [minimist]'s result: the positional arguments
    [argv._] and the boolean [argv["dry-run"]]. *)
Record Argv := mkArgv { positional : list jstring; dry_run : bool }.

(** Where [main] runs: the working directory, [glob], and, for the [n]-th
    file it processes, the environment of that call (which is how a file read
    a second time can show what was written the first time) and the order in
    which the backend answers. *)
Record World := mkWorld {
  cwd : jstring;
  glob : jstring → completion (list jstring);
  env_at : nat → Env;
  sched_at : nat → list nat
}.

(** What [main] does: a call to [glob], an event of the [n]-th call of
    [processFile], or the [console.error] of [main().catch]. *)
Inductive main_event :=
  | glob_call (pattern : jstring)
  | in_file (n : nat) (e : event)
  | main_catch (error : JsError).

(** Line 130: [argv._.length > 1 ? argv._.slice(1) : [process.cwd()]]. *)
Definition main_paths (w : World) (argv : Argv) : list jstring :=
  if decide (1 < length (positional argv))%nat
  then drop 1 (positional argv)
  else [cwd w].

(** Template literal of line 133. *)
Definition glob_pattern (p : jstring) : jstring := p ++ js "/**/*.{js,jsx,ts,tsx}".

(** Lines 134-136: the files of one path, one after the other; [n] files have
    been processed before. [processFile] catches what its body throws, so
    the loop always reaches the next file. *)
Fixpoint process_files (w : World) (isDryRun : bool) (n : nat)
    (files : list jstring) : list main_event :=
  match files with
  | [] => []
  | file :: files' =>
      (in_file n <$> processFile (env_at w n) (sched_at w n) file isDryRun) ++
      process_files w isDryRun (S n) files'
  end.

(** Lines 132-137. A [glob] that throws ends [main]: the error reaches
    [main().catch(console.error)] of line 140. *)
Fixpoint main_loop (w : World) (isDryRun : bool) (n : nat)
    (paths : list jstring) : list main_event :=
  match paths with
  | [] => []
  | p :: paths' =>
      glob_call (glob_pattern p) ::
      match glob w (glob_pattern p) with
      | Throw error => [main_catch error]
      | Normal files =>
          process_files w isDryRun n files ++
          main_loop w isDryRun (n + length files) paths'
      end
  end.

Definition main (w : World) (argv : Argv) : list main_event :=
  main_loop w (dry_run argv) 0 (main_paths w argv).

(** The events of [main] by kind. *)
Definition file_events (log : list main_event) : list event :=
  omap (λ e, match e with in_file _ e => Some e | _ => None end) log.

Definition glob_calls (log : list main_event) : list jstring :=
  omap (λ e, match e with glob_call p => Some p | _ => None end) log.

Definition file_reads (log : list event) : list jstring :=
  omap (λ e, match e with fs_readFile f => Some f | _ => None end) log.

(** The files all the given paths lead to, when every [glob] succeeds. *)
Fixpoint found_files (w : World) (paths : list jstring) : option (list jstring) :=
  match paths with
  | [] => Some []
  | p :: paths' =>
      match glob w (glob_pattern p) with
      | Throw _ => None
      | Normal files => (files ++.) <$> found_files w paths'
      end
  end.

(** An event that is no access to the file system. *)
Definition no_fs (e : event) : Prop :=
  match e with
  | fs_readFile _ | fs_writeFile _ _ => False
  | _ => True
  end.

Definition is_main_catch (e : main_event) : bool :=
  match e with main_catch _ => true | _ => false end.

(** ** Vocabulary of the properties *)

(** The candidates of a tree in the order the loops meet them, each with the
    text that is sent for it: qualifying string literals with their value,
    then qualifying JSX texts and comments with their trimmed text. *)
Definition literal_candidate (p : addr * node) : option (target * jstring) :=
  if containsJapanese (value_of p.2) then Some (LiteralNode p.1, value_of p.2) else None.

Definition text_candidate (p : addr * node) : option (target * jstring) :=
  if containsJapanese (trim (value_of p.2))
  then Some (TextNode p.1, trim (value_of p.2)) else None.

Definition comment_candidate (p : addr * nat * Comment) : option (target * jstring) :=
  if containsJapanese (trim (c_value p.2))
  then Some (CommentNode p.1.1 p.1.2, trim (c_value p.2)) else None.

Definition classify (root : node) : list (target * jstring) :=
  omap literal_candidate (find_StringLiteral root) ++
  omap text_candidate (find_JSXText root) ++
  omap comment_candidate (find_Comment root).

(** The same, said of one position of the tree and without any traversal. *)
Definition is_candidate (root : node) (p : path) : Prop :=
  match p with
  | AtNode a =>
      match node_at a root with
      | Some (StringLiteral v _) => containsJapanese v = true
      | Some (JSXText v _) => containsJapanese (trim v) = true
      | _ => False
      end
  | AtComment a i =>
      match comment_at a i root with
      | Some c => containsJapanese (trim (c_value c)) = true
      | None => False
      end
  end.

(** The ways a backend call fails: the request is rejected (time-out,
    transport or HTTP error), or the answer lacks what the program reads. *)
Inductive backend_failure : completion ChatCompletion → JsError → Prop :=
  | request_rejected e : backend_failure (Throw e) e
  | no_choices : backend_failure (Normal []) TypeError_undefined
  | null_content rest : backend_failure (Normal (None :: rest)) TypeError_null.

(** The texts a request carries in the name of the user. *)
Definition user_messages (req : ChatRequest) : list jstring :=
  omap (λ m, if decide (m.1 = js "user") then Some m.2 else None) (messages req).


(** The events of a log that write to the tree, call the backend, report. *)
Definition writes (log : list event) : list write :=
  omap (λ e, match e with tree_write w => Some w | _ => None end) log.

Definition requests (log : list event) : list (nat * ChatRequest) :=
  omap (λ e, match e with create_request k r => Some (k, r) | _ => None end) log.

Definition finds (log : list event) : list find_type :=
  omap (λ e, match e with root_find ty => Some ty | _ => None end) log.

Definition reports (log : list event) : list jstring :=
  omap (λ e, match e with console_log m => Some m | _ => None end) log.

Definition file_writes (log : list event) : list (jstring * jstring) :=
  omap (λ e, match e with fs_writeFile f d => Some (f, d) | _ => None end) log.

Definition is_write (e : event) : bool :=
  match e with tree_write _ => true | _ => false end.

Definition is_find (e : event) : bool :=
  match e with root_find _ => true | _ => false end.

Definition is_request (e : event) : bool :=
  match e with create_request _ _ => true | _ => false end.

(** A decidable form of [embeds], for concrete strings. *)
Definition embedsb (s t : jstring) : bool :=
  existsb (λ i, bool_decide (take (length s) (drop i t) = s)) (seq 0 (S (length t))).

(** The ways the [try] block of [transform] is left by an exception. *)
Inductive transform_throws (env : Env) (sched : list nat) (fileInfo : FileInfo)
    (api : option jstring) (dryRun : bool) : JsError → list event → Prop :=
  | parse_failure e :
      parse env api (source fileInfo) = Throw e →
      transform_throws env sched fileInfo api dryRun e []
  | task_rejected root e log :
      parse env api (source fileInfo) = Normal root →
      translate_tree env sched dryRun (path_of fileInfo) root = (Throw e, log) →
      transform_throws env sched fileInfo api dryRun e log
  | print_failure root root' e log :
      parse env api (source fileInfo) = Normal root →
      translate_tree env sched dryRun (path_of fileInfo) root = (Normal root', log) →
      toSource env root' = Throw e →
      transform_throws env sched fileInfo api dryRun e log.

(** ** Concrete runs *)

Module Examples.

(** こんにちは, エラー, あ, ラベル *)
Definition konnichiwa : jstring := [0x3053; 0x3093; 0x306B; 0x3061; 0x306F].
Definition era : jstring := [0x30A8; 0x30E9; 0x30FC].
Definition hiragana_a : jstring := [0x3042].
Definition raberu : jstring := [0x30E9; 0x30D9; 0x30EB].

Definition timed_out : JsError := mkError (js "Request timed out.").
Definition unprintable : JsError := mkError (js "did not recognize object of type StringLiteral").

(** A printer for the examples: the texts of the tree in order, comments
    between slashes. *)
Fixpoint render (n : node) : jstring :=
  mjoin ((λ c, js "/" ++ c_value c ++ js "/") <$> comments_of n) ++
  match n with
  | StringLiteral v _ => dquote ++ v ++ dquote
  | JSXText v _ => v
  | Other _ _ ch =>
      (fix go (l : list node) : jstring :=
         match l with [] => [] | c :: l' => render c ++ go l' end) ch
  end.

(** An environment whose parser yields [root] and whose backend answers the
    [k]-th request with [answer k]. *)
Definition env_of (root : node) (answer : nat → completion ChatCompletion) : Env :=
  {| parse := λ _ _, Normal root;
     toSource := λ n, Normal (render n);
     new_OpenAI := Normal ();
     chat_completions_create := λ k _, answer k;
     readFile := λ _, Normal (js "source text");
     writeFile := λ _ _, Normal () |}.

(** The same with a printer that rejects every tree, and with a client that
    cannot be built. *)
Definition env_unprintable (root : node) (answer : nat → completion ChatCompletion) : Env :=
  {| parse := λ _ _, Normal root;
     toSource := λ _, Throw unprintable;
     new_OpenAI := Normal ();
     chat_completions_create := λ k _, answer k;
     readFile := λ _, Normal (js "source text");
     writeFile := λ _ _, Normal () |}.

Definition missing_key : JsError :=
  mkError (js "The OPENAI_API_KEY environment variable is missing or empty").

Definition env_no_client (root : node) : Env :=
  {| parse := λ _ _, Normal root;
     toSource := λ n, Normal (render n);
     new_OpenAI := Throw missing_key;
     chat_completions_create := λ _ _, Throw timed_out;
     readFile := λ _, Normal (js "source text");
     writeFile := λ _ _, Normal () |}.

Definition always_fails : nat → completion ChatCompletion := λ _, Throw timed_out.
Definition says_hello : nat → completion ChatCompletion := λ _, Normal [Some (js " Hello ")].

(** [<p>こんにちは</p>] *)
Definition paragraph : node :=
  Other "File" [] [Other "JSXElement" [] [JSXText konnichiwa []]].

(** [showError(/* label */ "エラー"); // あ] with the first comment attached
    to the literal and the second to the statement. *)
Definition labelled_call : node :=
  Other "File" []
    [Other "ExpressionStatement" [mkComment CommentLine (js " " ++ hiragana_a)]
       [Other "CallExpression" []
          [Other "Identifier showError" [] [];
           StringLiteral era [mkComment CommentBlock (js " label ")]]]].

(** [showError(/* ラベル */ "エラー");]: the literal and the comment attached
    to it both qualify. *)
Definition annotated_call : node :=
  Other "File" []
    [Other "ExpressionStatement" []
       [Other "CallExpression" []
          [Other "Identifier showError" [] [];
           StringLiteral era [mkComment CommentBlock (js " " ++ raberu ++ js " ")]]]].

(** [// あ1] above [foo(/* あ2 */ x, /* あ3 */ y); // あ4]: two comments on
    the statement, one on each argument. *)
Definition a_numbered (digit : Z) : jstring := hiragana_a ++ [digit].

Definition numbered_comments : node :=
  Other "File" []
    [Other "ExpressionStatement"
       [ mkComment CommentLine (js " " ++ a_numbered 0x31);
         mkComment CommentLine (js " " ++ a_numbered 0x34) ]
       [Other "CallExpression" []
          [ Other "Identifier foo" [] [];
            Other "Identifier x"
              [mkComment CommentBlock (js " " ++ a_numbered 0x32 ++ js " ")] [];
            Other "Identifier y"
              [mkComment CommentBlock (js " " ++ a_numbered 0x33 ++ js " ")] [] ]]].

(** A backend that answers the first request with [Error] and every other
    with [Label]. *)
Definition error_then_label : nat → completion ChatCompletion :=
  λ k, Normal [Some (if decide (k = 0%nat) then js "Error" else js "Label")].

(** The files and environments of the runs below. String literals are
    [StringLiteral] nodes under the [tsx] parser, the one [processFile]
    selects for [src/App.tsx]; JSX texts and comments are found under either
    parser. *)
Definition app_jsx : jstring := js "src/App.jsx".
Definition app_tsx : jstring := js "src/App.tsx".
Definition tsx : option jstring := Some (js "tsx").
Definition labelled_file : FileInfo := mkFileInfo app_tsx (js "source text").
Definition labelled_env : Env := env_of labelled_call says_hello.
Definition labelled_env_failing : Env := env_of labelled_call always_fails.
Definition annotated_file : FileInfo := mkFileInfo app_tsx (js "source text").
Definition annotated_env : Env := env_of annotated_call error_then_label.
Definition paragraph_file : FileInfo := mkFileInfo app_jsx (js "<p>...</p>").
Definition paragraph_env_failing : Env := env_of paragraph always_fails.

(** A working directory in which [src] holds two files and nothing else can
    be searched; no file can be translated, the key being missing. *)
Definition no_such_directory : JsError := mkError (js "ENOTDIR: not a directory").

Definition repo : World :=
  {| cwd := js "/repo";
     glob := λ pattern,
       if decide (pattern = glob_pattern (js "src"))
       then Normal [js "src/a.js"; js "src/b.tsx"]
       else Throw no_such_directory;
     env_at := λ _, env_no_client paragraph;
     sched_at := λ _, [] |}.

End Examples.

(** ** Closed forms of the loops *)

(** Calling [translateToEnglish] for each of [cs] in turn, the first call
    being the [k]-th: the entries pushed and the events left. *)
Fixpoint call_all (env : Env) (dryRun : bool) (filePath : jstring)
    (k : nat) (cs : list (target * jstring)) : collecting :=
  match cs with
  | [] => ([], [])
  | c :: cs' =>
      let call := translateToEnglish_call env k c.2 dryRun filePath in
      let rest := call_all env dryRun filePath (S k) cs' in
      (mkTask k c.1 c.2 call.1 :: rest.1, call.2 ++ rest.2)
  end.

(** What the promise of a task is fulfilled with. *)
Definition task_result (env : Env) (filePath : jstring) (t : task) : jstring :=
  match t_promise t with
  | Settled (Normal v) => v
  | Settled (Throw _) => t_text t
  | Awaiting => (translateToEnglish_resume env (t_id t) (t_text t) filePath).1
  end.

Definition task_write (env : Env) (filePath : jstring) (t : task) : write :=
  callback (t_target t) (task_result env filePath t).

Definition settle_log (env : Env) (filePath : jstring) (t : task) : list event :=
  match t_promise t with
  | Settled (Throw _) => []
  | Settled (Normal _) => [tree_write (task_write env filePath t)]
  | Awaiting =>
      (translateToEnglish_resume env (t_id t) (t_text t) filePath).2 ++
      [tree_write (task_write env filePath t)]
  end.

Definition is_rejected (t : task) : bool :=
  match t_promise t with Settled (Throw _) => true | _ => false end.

(** What the [k]-th call of a run, made for [text], is fulfilled with (the
    text itself stands in when the promise is rejected). *)
Definition translated (env : Env) (k : nat) (text : jstring)
    (dryRun : bool) (filePath : jstring) : jstring :=
  match (translateToEnglish env k text dryRun filePath).1 with
  | Normal v => v
  | Throw _ => text
  end.

(** ** Traversal and reconstruction, child by child *)

(** The paths below the children [l], the first of which has index [i]. *)
Fixpoint paths_from (i : nat) (l : list node) : list (addr * node) :=
  match l with
  | [] => []
  | c :: l' => (prod_map (cons i) id <$> paths c) ++ paths_from (S i) l'
  end.

(** The comments below the children [l], the first of which has index [i]. *)
Definition find_Comment_from : nat → list node → list (addr * nat * Comment) :=
  fix go (i : nat) (l : list node) : list (addr * nat * Comment) :=
    match l with
    | [] => []
    | c :: l' =>
        (prod_map (prod_map (cons i) id) id <$> find_Comment c) ++ go (S i) l'
    end.

(** The text decided for a position, if any. *)
Definition decisions := path → option jstring.

Definition no_decision : decisions := λ _, None.

Definition decide_at (d : decisions) (p : path) (t : jstring) : decisions :=
  λ q, if bool_decide (q = p) then Some t else d q.

Definition rewrite_comments (d : decisions) (cs : list Comment) : list Comment :=
  imap (λ i c, match d (AtComment [] i) with
               | Some t => assign_value (padded t) c
               | None => c
               end) cs.

(** The tree in which every decided string literal and JSX text is the node
    its callback builds, and every decided comment that is still attached
    has the value its callback assigns. *)
Fixpoint rewrite (d : decisions) (n : node) : node :=
  match n with
  | StringLiteral v cs =>
      match d (AtNode []) with
      | Some t => stringLiteral t
      | None => StringLiteral v (rewrite_comments d cs)
      end
  | JSXText v cs =>
      match d (AtNode []) with
      | Some t => jsxText (padded t)
      | None => JSXText v (rewrite_comments d cs)
      end
  | Other ty cs ch =>
      Other ty (rewrite_comments d cs)
        ((fix go (i : nat) (l : list node) : list node :=
            match l with
            | [] => []
            | c :: l' => rewrite (λ p, d (under i p)) c :: go (S i) l'
            end) 0%nat ch)
  end.

Definition rewrite_from (d : decisions) : nat → list node → list node :=
  fix go (i : nat) (l : list node) : list node :=
    match l with
    | [] => []
    | c :: l' => rewrite (λ p, d (under i p)) c :: go (S i) l'
    end.

(** The decisions a list of settled tasks amounts to. *)
Definition decide_all (d : decisions) (l : list (target * jstring)) : decisions :=
  foldl (λ d x, decide_at d (target_path x.1) x.2) d l.

(** A target names a node of its own kind. *)
Definition valid_target (root : node) (tg : target) : Prop :=
  match tg with
  | LiteralNode a => ∃ v cs, node_at a root = Some (StringLiteral v cs)
  | TextNode a => ∃ v cs, node_at a root = Some (JSXText v cs)
  | CommentNode a i => True
  end.

(** A candidate together with the text that is sent for it. *)
Definition candidate (root : node) (tg : target) (text : jstring) : Prop :=
  match tg with
  | LiteralNode a =>
      ∃ cs, node_at a root = Some (StringLiteral text cs) ∧ containsJapanese text = true
  | TextNode a =>
      ∃ v cs, node_at a root = Some (JSXText v cs) ∧
              text = trim v ∧ containsJapanese text = true
  | CommentNode a i =>
      ∃ c, comment_at a i root = Some c ∧
           text = trim (c_value c) ∧ containsJapanese text = true
  end.

(** A position below the node at [a], seen from the root. *)
Definition under_addr (a : addr) (p : path) : path := foldr under p a.

(** What a callback does to the node it finds at its target, and where that
    is, seen from that node. *)
Definition local_write (tg : target) (t : jstring) : node → node :=
  match tg with
  | LiteralNode _ => λ _, stringLiteral t
  | TextNode _ => λ _, jsxText (padded t)
  | CommentNode _ i =>
      λ n, with_comments (alter (assign_value (padded t)) i (comments_of n)) n
  end.

Definition local_path (tg : target) : path :=
  match tg with
  | LiteralNode _ | TextNode _ => AtNode []
  | CommentNode _ i => AtComment [] i
  end.

Definition target_addr (tg : target) : addr :=
  match tg with
  | LiteralNode a | TextNode a | CommentNode a _ => a
  end.

Definition right_kind (tg : target) (m : node) : Prop :=
  match tg with
  | LiteralNode _ => is_StringLiteral m = true
  | TextNode _ => is_JSXText m = true
  | CommentNode _ _ => True
  end.

(** The result of each candidate's call, and the decisions of a whole run. *)
Definition results (env : Env) (dryRun : bool) (filePath : jstring)
    (root : node) : list (target * jstring) :=
  imap (λ k c, (c.1, translated env k c.2 dryRun filePath)) (classify root).

Definition decided (env : Env) (dryRun : bool) (filePath : jstring)
    (root : node) : decisions :=
  decide_all no_decision (results env dryRun filePath root).

(** All searches of a log come before all of its requests. *)
Definition classified_before_requests (log : list event) : Prop :=
  ∃ l1 l2, log = l1 ++ l2 ∧
           Forall (λ e, is_request e = false) l1 ∧ Forall (λ e, is_find e = false) l2.


(** Once the loops are over, the run logs failed translations and writes to
    the tree, and nothing else. *)
Definition after_loops (e : event) : Prop :=
  match e with
  | tree_write _ | console_error _ _ => True
  | _ => False
  end.

(** The text a node or comment has in the tree. *)
Definition original_text (root : node) (tg : target) : option jstring :=
  match tg with
  | LiteralNode a | TextNode a => value_of <$> node_at a root
  | CommentNode a i => c_value <$> comment_at a i root
  end.

(** What is sent for it: the value of a literal, the trimmed text otherwise. *)
Definition sent_text (tg : target) (original : jstring) : jstring :=
  match tg with
  | LiteralNode _ => original
  | TextNode _ | CommentNode _ _ => trim original
  end.

(** No white space at either end. *)
Definition tight (t : jstring) : Prop :=
  ∀ u, first_unit t = Some u ∨ last_unit t = Some u → is_white_space u = false.

(** Every call to the backend fails. *)
Definition backend_always_fails (env : Env) : Prop :=
  ∀ k req, ∃ e, backend_failure (chat_completions_create env k req) e.

(* ================================================================== *)
(** * Properties *)

(** ** Strings *)

Lemma trimStart_head (s : jstring) c :
  first_unit (trimStart s) = Some c → is_white_space c = false.
Proof.
  induction s as [|d s IH]; simpl; [done|].
  destruct (is_white_space d) eqn:E; [done|]. simpl. by intros [= <-].
Qed.

Lemma trimStart_suffix (s : jstring) : ∃ ws, s = ws ++ trimStart s.
Proof.
  induction s as [|d s [ws IH]]; simpl; [by exists []|].
  destruct (is_white_space d); [|by exists []].
  exists (d :: ws). simpl. by f_equal.
Qed.

Lemma trimStart_app_keep (s t : jstring) c :
  first_unit (trimStart s) = Some c → trimStart (s ++ t) = trimStart s ++ t.
Proof.
  induction s as [|d s IH]; simpl; [done|].
  destruct (is_white_space d); [done|]. done.
Qed.

(** Trimming leaves no white space at either end. *)
Lemma trim_first (s : jstring) c : first_unit (trim s) = Some c → is_white_space c = false.
Proof.
  unfold trim, trimEnd. intros H.
  destruct (trimStart_suffix (reverse (trimStart s))) as [ws Hws].
  apply (f_equal reverse) in Hws. rewrite reverse_involutive, reverse_app in Hws.
  destruct (reverse (trimStart (reverse (trimStart s)))) as [|x r] eqn:E; [done|].
  simpl in H. injection H as ->.
  apply (trimStart_head s). rewrite Hws. done.
Qed.

Lemma trim_last (s : jstring) c : last_unit (trim s) = Some c → is_white_space c = false.
Proof.
  unfold trim, trimEnd, last_unit. rewrite reverse_involutive. apply trimStart_head.
Qed.

Lemma trim_embeds (s : jstring) : embeds (trim s) s.
Proof.
  unfold trim, trimEnd.
  destruct (trimStart_suffix s) as [ws1 H1].
  destruct (trimStart_suffix (reverse (trimStart s))) as [ws2 H2].
  apply (f_equal reverse) in H2. rewrite reverse_involutive, reverse_app in H2.
  exists ws1, (reverse ws2). by rewrite <- H2.
Qed.

Lemma embeds_app_l (s t u : jstring) : embeds s t → embeds s (u ++ t).
Proof. intros (pre & post & ->). exists (u ++ pre), post. by rewrite <- app_assoc. Qed.

Lemma embeds_app_r (s t u : jstring) : embeds s t → embeds s (t ++ u).
Proof.
  intros (pre & post & ->). exists pre, (post ++ u). by rewrite <- !app_assoc.
Qed.

Lemma embeds_refl (s : jstring) : embeds s s.
Proof. exists [], []. by rewrite app_nil_r. Qed.



(** ** Script detector *)

(** The character class, range by range. *)
Lemma japanese_class_ranges (c : Z) :
  japanese_class c = true ↔
  0x3000 <= c <= 0x30FF ∨ 0x3400 <= c <= 0x4DBF ∨
  0x4E00 <= c <= 0x9FAF ∨ 0xFF00 <= c <= 0xFF9F.
Proof.
  unfold japanese_class, in_range.
  rewrite !orb_true_iff, !andb_true_iff, !Z.leb_le. lia.
Qed.

(** What the class matches lies in one of the blocks named. *)
Lemma japanese_class_target_script (c : Z) :
  japanese_class c = true → target_script c.
Proof.
  unfold japanese_class, in_range, target_script.
  intros H. repeat (apply orb_true_iff in H as [H|H]);
    apply andb_true_iff in H as [H1 H2]; apply Z.leb_le in H1, H2.
  - by exists FullWidthPunctuation.
  - by exists Hiragana.
  - by exists Katakana.
  - exists FullWidthForms. simpl. lia.
  - exists CommonIdeographs. simpl. lia.
  - by exists ExtendedIdeographs.
Qed.

Lemma surrogate_not_japanese (c : Z) :
  is_lead c || is_trail c = true → japanese_class c = false.
Proof.
  unfold is_lead, is_trail, japanese_class, in_range. intros H.
  apply orb_true_iff in H as [H|H]; apply andb_true_iff in H as [H1 H2];
    apply Z.leb_le in H1, H2;
    repeat (apply orb_false_iff; split); apply andb_false_iff; lia.
Qed.

Lemma supplementary_not_japanese (c d : Z) :
  is_lead c = true → is_trail d = true →
  japanese_class ((c - 0xD800) * 0x400 + (d - 0xDC00) + 0x10000) = false.
Proof.
  unfold is_lead, is_trail, japanese_class, in_range. intros Hc Hd.
  apply andb_true_iff in Hc as [Hc1 Hc2]. apply andb_true_iff in Hd as [Hd1 Hd2].
  apply Z.leb_le in Hc1, Hc2, Hd1, Hd2.
  repeat (apply orb_false_iff; split); apply andb_false_iff; lia.
Qed.

(** Matching code units and matching code points agree. *)
Lemma containsJapanese_code_points (text : jstring) :
  containsJapanese text = existsb japanese_class (code_points text).
Proof.
  unfold containsJapanese.
  remember (length text) as n eqn:Hn.
  revert text Hn. induction (lt_wf n) as [n _ IH]. intros text ->.
  destruct text as [|c [|d s]]; [done..|].
  change (code_points (c :: d :: s)) with
    (if is_lead c && is_trail d
     then ((c - 0xD800) * 0x400 + (d - 0xDC00) + 0x10000) :: code_points s
     else c :: code_points (d :: s)).
  destruct (is_lead c && is_trail d) eqn:E.
  - apply andb_true_iff in E as [Hc Hd].
    cbn [existsb].
    rewrite (supplementary_not_japanese c d Hc Hd).
    rewrite (surrogate_not_japanese c) by (by rewrite Hc).
    rewrite (surrogate_not_japanese d) by (by rewrite Hd, orb_true_r).
    simpl. apply (IH (length s)); [simpl; lia | done].
  - cbn [existsb]. f_equal.
    exact (IH (length (d :: s)) ltac:(simpl; lia) (d :: s) eq_refl).
Qed.

(** C7. [containsJapanese] is a total function of its argument alone. It
    answers [true] exactly when one of the text's code points lies in
    U+3000-30FF, U+3400-4DBF, U+4E00-9FAF or U+FF00-FF9F, and [false] on every
    other text. Each of these code points belongs to one of the blocks named
    (full-width punctuation, hiragana, katakana, full-width forms, common and
    extended ideographs); the converse fails, see below. *)
Theorem containsJapanese_detects_ranges (text : jstring) :
  (containsJapanese text = true ↔
     ∃ cp, cp ∈ code_points text ∧
           (0x3000 <= cp <= 0x30FF ∨ 0x3400 <= cp <= 0x4DBF ∨
            0x4E00 <= cp <= 0x9FAF ∨ 0xFF00 <= cp <= 0xFF9F)) ∧
  (containsJapanese text = false ↔
     ∀ cp, cp ∈ code_points text →
           ¬ (0x3000 <= cp <= 0x30FF ∨ 0x3400 <= cp <= 0x4DBF ∨
              0x4E00 <= cp <= 0x9FAF ∨ 0xFF00 <= cp <= 0xFF9F)) ∧
  (containsJapanese text = true → ∃ cp, cp ∈ code_points text ∧ target_script cp).
Proof.
  rewrite containsJapanese_code_points.
  assert (Ht : existsb japanese_class (code_points text) = true ↔
               ∃ cp, cp ∈ code_points text ∧
                     (0x3000 <= cp <= 0x30FF ∨ 0x3400 <= cp <= 0x4DBF ∨
                      0x4E00 <= cp <= 0x9FAF ∨ 0xFF00 <= cp <= 0xFF9F)).
  { rewrite existsb_exists. split.
    - intros (cp & Hin & Hcp). exists cp. split; [by apply list_elem_of_In|].
      by apply japanese_class_ranges.
    - intros (cp & Hin & Hcp). exists cp. split; [by apply list_elem_of_In|].
      by apply japanese_class_ranges. }
  split; [done|]. split.
  - rewrite <- not_true_iff_false, Ht. split.
    + intros Hno cp Hin Hcp. apply Hno. eauto.
    + intros Hall (cp & Hin & Hcp). by apply (Hall cp).
  - rewrite Ht. intros (cp & Hin & Hcp). exists cp. split; [done|].
    by apply japanese_class_target_script, japanese_class_ranges.
Qed.

(** C7, as stated, fails: the blocks named reach further than the character
    class. U+9FB0 is a CJK unified ideograph and U+FFE5, the full-width yen
    sign, a full-width form, and [containsJapanese] answers [false] on
    either. *)
Lemma containsJapanese_misses_block_ends :
  (0x9FB0 ∈ code_points [0x9FB0] ∧ target_script 0x9FB0 ∧
   containsJapanese [0x9FB0] = false) ∧
  (0xFFE5 ∈ code_points [0xFFE5] ∧ target_script 0xFFE5 ∧
   containsJapanese [0xFFE5] = false).
Proof.
  split.
  - split; [left|]. split; [|reflexivity]. exists CommonIdeographs. simpl. lia.
  - split; [left|]. split; [|reflexivity]. exists FullWidthForms. simpl. lia.
Qed.

(** ** Translation client *)

Lemma translation_failed_embeds (text fileName : jstring) :
  embeds text (translation_failed text fileName) ∧
  embeds fileName (translation_failed text fileName).
Proof.
  unfold translation_failed. split.
  - exists (js "Translation failed for text: " ++ dquote),
           (dquote ++ js " in file: " ++ dquote ++ fileName ++ dquote).
    by rewrite <- !app_assoc.
  - exists (js "Translation failed for text: " ++ dquote ++ text ++ dquote ++
            js " in file: " ++ dquote), dquote.
    by rewrite <- !app_assoc.
Qed.

Lemma resume_failure env k text fileName error :
  backend_failure (chat_completions_create env k (translation_request text)) error →
  translateToEnglish_resume env k text fileName =
    (text, [console_error (translation_failed text fileName) (Some error)]).
Proof.
  unfold translateToEnglish_resume. intros H.
  destruct H; done.
Qed.

Lemma resume_success env k text fileName content rest :
  chat_completions_create env k (translation_request text) = Normal (Some content :: rest) →
  translateToEnglish_resume env k text fileName = (trim content, []).
Proof. unfold translateToEnglish_resume. by intros ->. Qed.

(** A backend call either fails or answers with a content. *)
Lemma backend_failure_or_content (r : completion ChatCompletion) :
  (∃ error, backend_failure r error) ∨ (∃ content rest, r = Normal (Some content :: rest)).
Proof.
  destruct r as [[|[content|] rest]|e]; [left|right|left|left]; eauto using backend_failure.
Qed.

(** C3. Whatever the text, the mode and the file name: when the backend call
    fails (the request is rejected, or the answer is malformed), the promise
    of [translateToEnglish] is fulfilled, never rejected; outside dry-run
    mode it is fulfilled with the text it was given, and the only trace of
    the failure is a [console.error] line which quotes that text and the
    file name. The client itself must have been built: [new OpenAI()] runs
    before the [try]. *)
Theorem translateToEnglish_contains_failure env k text isDryRun fileName error :
  new_OpenAI env = Normal () →
  backend_failure (chat_completions_create env k (translation_request text)) error →
  ∃ v log,
    translateToEnglish env k text isDryRun fileName = (Normal v, log) ∧
    (isDryRun = false →
       v = text ∧
       log = [ create_request k (translation_request text);
               console_error (translation_failed text fileName) (Some error) ] ∧
       embeds text (translation_failed text fileName) ∧
       embeds fileName (translation_failed text fileName)).
Proof.
  intros Hnew Hfail. unfold translateToEnglish, translateToEnglish_call.
  destruct isDryRun.
  - eexists _, _. split; [done|]. done.
  - rewrite Hnew, (resume_failure _ _ _ _ _ Hfail).
    eexists _, _. split; [done|]. intros _.
    split; [done|]. split; [done|]. apply translation_failed_embeds.
Qed.

Lemma translateToEnglish_contains_failure_witness :
  ∃ v log,
    translateToEnglish (Examples.env_of Examples.paragraph Examples.always_fails)
      0 Examples.konnichiwa false (js "src/App.jsx") = (Normal v, log) ∧
    (false = false →
       v = Examples.konnichiwa ∧
       log = [ create_request 0 (translation_request Examples.konnichiwa);
               console_error (translation_failed Examples.konnichiwa (js "src/App.jsx"))
                 (Some Examples.timed_out) ] ∧
       embeds Examples.konnichiwa
         (translation_failed Examples.konnichiwa (js "src/App.jsx")) ∧
       embeds (js "src/App.jsx")
         (translation_failed Examples.konnichiwa (js "src/App.jsx"))).
Proof.
  apply (translateToEnglish_contains_failure
           (Examples.env_of Examples.paragraph Examples.always_fails)
           0 Examples.konnichiwa false (js "src/App.jsx") Examples.timed_out).
  - reflexivity.
  - simpl. constructor.
Defined.

(** ** The loops of [transform] *)

Lemma call_all_app env dryRun filePath k cs1 cs2 :
  call_all env dryRun filePath k (cs1 ++ cs2) =
    ((call_all env dryRun filePath k cs1).1 ++
       (call_all env dryRun filePath (k + length cs1) cs2).1,
     (call_all env dryRun filePath k cs1).2 ++
       (call_all env dryRun filePath (k + length cs1) cs2).2).
Proof.
  revert k. induction cs1 as [|c cs1 IH]; intros k; simpl.
  - rewrite Nat.add_0_r. by destruct (call_all _ _ _ k cs2).
  - rewrite IH. simpl. rewrite <- app_assoc.
    by replace (k + S (length cs1))%nat with (S (k + length cs1)) by lia.
Qed.

Lemma call_all_length env dryRun filePath k cs :
  length (call_all env dryRun filePath k cs).1 = length cs.
Proof. revert k. induction cs as [|c cs IH]; intros k; simpl; [done|]. by rewrite IH. Qed.

Lemma call_all_tasks env dryRun filePath k cs :
  (call_all env dryRun filePath k cs).1 =
    imap (λ i c, mkTask (k + i) c.1 c.2
                   (translateToEnglish_call env (k + i) c.2 dryRun filePath).1) cs.
Proof.
  revert k. induction cs as [|c cs IH]; intros k; simpl; [done|].
  rewrite Nat.add_0_r. f_equal. rewrite IH. apply imap_ext. intros i x _. simpl.
  by replace (k + S i)%nat with (S (k + i)) by lia.
Qed.

(** A loop that pushes a task for the items [g] selects. *)
Lemma foldl_push {X} env dryRun filePath (g : X → option (target * jstring))
    (f : collecting → X → collecting) (l : list X) (st : collecting) :
  (∀ st x, f st x = match g x with
                    | Some c => push env dryRun filePath c.1 c.2 st
                    | None => st
                    end) →
  foldl f st l =
    (st.1 ++ (call_all env dryRun filePath (length st.1) (omap g l)).1,
     st.2 ++ (call_all env dryRun filePath (length st.1) (omap g l)).2).
Proof.
  intros Hf. revert st. induction l as [|x l IH]; intros [tasks log]; simpl.
  - by rewrite !app_nil_r.
  - rewrite IH, Hf. destruct (g x) as [[tg text]|]; [|done].
    unfold push. simpl.
    destruct (translateToEnglish_call env (length tasks) text dryRun filePath)
      as [pr log'] eqn:E.
    simpl. rewrite length_app. simpl.
    replace (length tasks + 1)%nat with (S (length tasks)) by lia.
    by rewrite <- !app_assoc.
Qed.

Lemma loop_StringLiteral_eq env dryRun filePath root st :
  loop_StringLiteral env dryRun filePath root st =
    (st.1 ++ (call_all env dryRun filePath (length st.1)
                (omap literal_candidate (find_StringLiteral root))).1,
     st.2 ++ root_find FindStringLiteral ::
       (call_all env dryRun filePath (length st.1)
          (omap literal_candidate (find_StringLiteral root))).2).
Proof.
  unfold loop_StringLiteral.
  rewrite (foldl_push env dryRun filePath literal_candidate).
  - simpl. by rewrite <- app_assoc.
  - intros st' x. unfold literal_candidate. by destruct (containsJapanese _).
Qed.

Lemma loop_JSXText_eq env dryRun filePath root st :
  loop_JSXText env dryRun filePath root st =
    (st.1 ++ (call_all env dryRun filePath (length st.1)
                (omap text_candidate (find_JSXText root))).1,
     st.2 ++ root_find FindJSXText ::
       (call_all env dryRun filePath (length st.1)
          (omap text_candidate (find_JSXText root))).2).
Proof.
  unfold loop_JSXText.
  rewrite (foldl_push env dryRun filePath text_candidate).
  - simpl. by rewrite <- app_assoc.
  - intros st' x. unfold text_candidate. by destruct (containsJapanese _).
Qed.

Lemma loop_Comment_eq env dryRun filePath root st :
  loop_Comment env dryRun filePath root st =
    (st.1 ++ (call_all env dryRun filePath (length st.1)
                (omap comment_candidate (find_Comment root))).1,
     st.2 ++ root_find FindComment ::
       (call_all env dryRun filePath (length st.1)
          (omap comment_candidate (find_Comment root))).2).
Proof.
  unfold loop_Comment.
  rewrite (foldl_push env dryRun filePath comment_candidate).
  - simpl. by rewrite <- app_assoc.
  - intros st' x. unfold comment_candidate. by destruct (containsJapanese _).
Qed.

(** The entries of [translationPromises] are the calls made for the
    candidates of the parsed tree, in order. *)
Lemma collect_tasks env dryRun filePath root :
  (collect env dryRun filePath root).1 =
    (call_all env dryRun filePath 0 (classify root)).1.
Proof.
  unfold collect, classify.
  rewrite loop_Comment_eq, loop_JSXText_eq, loop_StringLiteral_eq. simpl.
  rewrite !call_all_app. simpl.
  rewrite !length_app, !call_all_length, <- app_assoc. done.
Qed.

(** The events of the three loops: each search is followed at once by the
    calls for what it found. *)
Lemma collect_log env dryRun filePath root :
  let ls := omap literal_candidate (find_StringLiteral root) in
  let ts := omap text_candidate (find_JSXText root) in
  let cs := omap comment_candidate (find_Comment root) in
  (collect env dryRun filePath root).2 =
    root_find FindStringLiteral :: (call_all env dryRun filePath 0 ls).2 ++
    root_find FindJSXText :: (call_all env dryRun filePath (length ls) ts).2 ++
    root_find FindComment ::
      (call_all env dryRun filePath (length ls + length ts) cs).2.
Proof.
  intros ls ts cs. unfold collect.
  rewrite loop_Comment_eq, loop_JSXText_eq, loop_StringLiteral_eq. simpl.
  rewrite !length_app, !call_all_length. fold ls ts cs.
  by rewrite <- !app_assoc.
Qed.

(** ** The barrier *)

Lemma call_promise env k text dryRun filePath :
  (translateToEnglish_call env k text dryRun filePath).1 =
    if dryRun then Settled (Normal (dry_run_marker text))
    else match new_OpenAI env with
         | Throw e => Settled (Throw e)
         | Normal _ => Awaiting
         end.
Proof.
  unfold translateToEnglish_call. destruct dryRun; [done|]. by destruct (new_OpenAI env).
Qed.

Lemma call_log env k text dryRun filePath :
  (translateToEnglish_call env k text dryRun filePath).2 =
    if dryRun then [console_log (dry_run_report text filePath)]
    else match new_OpenAI env with
         | Throw e => []
         | Normal _ => [create_request k (translation_request text)]
         end.
Proof.
  unfold translateToEnglish_call. destruct dryRun; [done|]. by destruct (new_OpenAI env).
Qed.

Lemma schedule_Permutation {A} (sched : list nat) (pending : list A) :
  schedule sched pending ≡ₚ pending.
Proof.
  revert pending. induction sched as [|k sched IH]; intros pending; simpl; [done|].
  destruct (pending !! (k mod length pending)%nat) as [x|] eqn:E; [|done].
  rewrite IH. symmetry. by apply delete_Permutation.
Qed.

Lemma settle_order_Permutation sched tasks : settle_order sched tasks ≡ₚ tasks.
Proof.
  unfold settle_order. rewrite schedule_Permutation, Permutation_app_comm.
  apply (filter_app_complement (λ t, is_awaiting t = true)).
Qed.

(** Every order of the waiting calls is the order of some schedule. *)
Lemma schedule_complete {A} (pending order : list A) :
  order ≡ₚ pending → ∃ sched, schedule sched pending = order.
Proof.
  revert pending. induction order as [|x order IH]; intros pending Hp.
  - apply Permutation_nil_l in Hp as ->. by exists [].
  - assert (x ∈ pending) as Hin by (rewrite <- Hp; left).
    apply list_elem_of_lookup in Hin as [i Hi].
    assert (i < length pending)%nat as Hlt by (by eapply lookup_lt_Some).
    destruct (IH (delete i pending)) as [sched Hs].
    { apply (Permutation_cons_inv (a := x)). rewrite Hp. by apply delete_Permutation. }
    exists (i :: sched). simpl. rewrite Nat.mod_small by done. by rewrite Hi, Hs.
Qed.

Lemma first_rejection_None tasks :
  Forall (λ t, is_rejected t = false) tasks → first_rejection tasks = None.
Proof.
  induction 1 as [|t tasks Ht _ IH]; simpl; [done|].
  unfold is_rejected in Ht. by destruct (t_promise t) as [[|]|].
Qed.

Lemma foldl_settle env filePath (l : list task) (st : node * list event) :
  Forall (λ t, is_rejected t = false) l →
  foldl (settle env filePath) st l =
    (foldl (λ r w, apply_write w r) st.1 (task_write env filePath <$> l),
     st.2 ++ mjoin (settle_log env filePath <$> l)).
Proof.
  intros Hl. revert st. induction Hl as [|t l Ht _ IH]; intros [r log]; simpl.
  - by rewrite app_nil_r.
  - rewrite IH. unfold settle, settle_log, task_write, task_result.
    unfold is_rejected in Ht.
    destruct (t_promise t) as [[v|e]|]; [|done|]; simpl.
    + by rewrite <- app_assoc.
    + destruct (translateToEnglish_resume env (t_id t) (t_text t) filePath) as [v log'].
      simpl. by rewrite <- !app_assoc.
Qed.

Lemma elem_of_writes (w : write) (log : list event) :
  w ∈ writes log ↔ tree_write w ∈ log.
Proof.
  unfold writes. rewrite list_elem_of_omap. split.
  - intros (e & He & Hw). destruct e; try done. by injection Hw as ->.
  - intros He. by exists (tree_write w).
Qed.

Lemma writes_app l1 l2 : writes (l1 ++ l2) = writes l1 ++ writes l2.
Proof. apply omap_app. Qed.

Lemma writes_none l : Forall (λ e, is_write e = false) l → writes l = [].
Proof.
  induction 1 as [|e l He _ IH]; [done|].
  unfold writes in *. by destruct e.
Qed.

Lemma resume_log_no_write env k text filePath :
  Forall (λ e, is_write e = false) (translateToEnglish_resume env k text filePath).2.
Proof.
  unfold translateToEnglish_resume.
  destruct (chat_completions_create _ _ _) as [resp|e]; simpl; [|by repeat constructor].
  destruct (first_content_trimmed resp); simpl; by repeat constructor.
Qed.

Lemma call_all_log_no_write env dryRun filePath k cs :
  Forall (λ e, is_write e = false) (call_all env dryRun filePath k cs).2.
Proof.
  revert k. induction cs as [|c cs IH]; intros k; simpl; [constructor|].
  apply Forall_app. split; [|apply IH]. rewrite call_log.
  destruct dryRun; [by repeat constructor|].
  destruct (new_OpenAI env); by repeat constructor.
Qed.

Lemma collect_log_no_write env dryRun filePath root :
  Forall (λ e, is_write e = false) (collect env dryRun filePath root).2.
Proof.
  rewrite collect_log.
  repeat (first [ constructor; [done|]
                | apply Forall_app; split; [apply call_all_log_no_write|] ]).
  apply call_all_log_no_write.
Qed.

Lemma writes_settle_log env filePath (l : list task) :
  Forall (λ t, is_rejected t = false) l →
  writes (mjoin (settle_log env filePath <$> l)) = task_write env filePath <$> l.
Proof.
  induction 1 as [|t l Ht _ IH]; [done|]. csimpl. rewrite writes_app, IH.
  change (task_write env filePath t :: (task_write env filePath <$> l)) with
    ([task_write env filePath t] ++ (task_write env filePath <$> l)).
  f_equal.
  unfold settle_log. unfold is_rejected in Ht.
  destruct (t_promise t) as [[v|e]|]; [done|done|].
  rewrite writes_app, (writes_none _ (resume_log_no_write _ _ _ _)). done.
Qed.

(** When no promise is rejected the barrier is passed, and what happened in
    between is the settling of every task in some order. *)
Lemma translate_tree_eq env sched dryRun filePath root :
  let tasks := (collect env dryRun filePath root).1 in
  let order := settle_order sched tasks in
  Forall (λ t, is_rejected t = false) tasks →
  translate_tree env sched dryRun filePath root =
    (Normal (foldl (λ r w, apply_write w r) root (task_write env filePath <$> order)),
     (collect env dryRun filePath root).2 ++ mjoin (settle_log env filePath <$> order)).
Proof.
  intros tasks order Hok. unfold translate_tree, await_all.
  destruct (collect env dryRun filePath root) as [tasks' log] eqn:E.
  simpl in tasks. subst tasks. rewrite (first_rejection_None _ Hok).
  rewrite foldl_settle.
  - done.
  - fold order. unfold order. by rewrite settle_order_Permutation.
Qed.

Lemma call_all_not_rejected env dryRun filePath k cs :
  dryRun = true ∨ new_OpenAI env = Normal () →
  Forall (λ t, is_rejected t = false) (call_all env dryRun filePath k cs).1.
Proof.
  intros H. rewrite call_all_tasks. apply list.Forall_forall. intros t Ht.
  apply elem_of_lookup_imap in Ht as (i & c & -> & _).
  unfold is_rejected. simpl. rewrite call_promise.
  destruct H as [-> | ->]; [done|]. by destruct dryRun.
Qed.

(** ** The traversal *)

Lemma node_ind_all (P : node → Prop) :
  (∀ v cs, P (StringLiteral v cs)) →
  (∀ v cs, P (JSXText v cs)) →
  (∀ ty cs ch, Forall P ch → P (Other ty cs ch)) →
  ∀ n, P n.
Proof.
  intros Hs Ht Ho. fix IH 1. intros [v cs|v cs|ty cs ch]; [apply Hs|apply Ht|].
  apply Ho. induction ch as [|c ch IHch]; constructor; [apply IH|apply IHch].
Qed.

Lemma paths_Other ty cs ch :
  paths (Other ty cs ch) = ([], Other ty cs ch) :: paths_from 0 ch.
Proof. reflexivity. Qed.

Lemma elem_of_paths_from a m i l :
  (a, m) ∈ paths_from i l ↔
  ∃ j c a', l !! j = Some c ∧ a = (i + j)%nat :: a' ∧ (a', m) ∈ paths c.
Proof.
  revert i. induction l as [|c l IH]; intros i; simpl.
  - split; [by intros ?%elem_of_nil|]. by intros (j & c & a' & ? & _).
  - rewrite elem_of_app, IH, list_elem_of_fmap. split.
    + intros [([a' m'] & [= -> ->] & Hin) | (j & c' & a' & Hj & -> & Hin)].
      * exists 0%nat, c, a'. by rewrite Nat.add_0_r.
      * exists (S j), c', a'. split; [done|]. split; [f_equal; lia|done].
    + intros (j & c' & a' & Hj & -> & Hin). destruct j as [|j]; simpl in Hj.
      * injection Hj as <-. left. exists (a', m). by rewrite Nat.add_0_r.
      * right. exists j, c', a'. split; [done|]. split; [f_equal; lia|done].
Qed.

(** The traversal meets exactly the nodes of the tree, each at its position. *)
Lemma elem_of_paths n a m : (a, m) ∈ paths n ↔ node_at a n = Some m.
Proof.
  revert a. induction n as [v cs|v cs|ty cs ch IH] using node_ind_all; intros a.
  - simpl. rewrite list_elem_of_singleton. destruct a as [|i a]; simpl.
    + split; [by intros [= ->]|by intros [= ->]].
    + split; done.
  - simpl. rewrite list_elem_of_singleton. destruct a as [|i a]; simpl.
    + split; [by intros [= ->]|by intros [= ->]].
    + split; done.
  - rewrite paths_Other, elem_of_cons, elem_of_paths_from.
    destruct a as [|i a]; simpl.
    + split; [by intros [[= ->]|(? & ? & ? & ? & ? & ?)]|]. intros [= ->]. by left.
    + split.
      * intros [?|(j & c & a' & Hj & [= -> ->] & Hin)]; [done|].
        rewrite Hj. simpl. rewrite list.Forall_forall in IH.
        apply IH; [|done]. by eapply list_elem_of_lookup_2.
      * destruct (ch !! i) as [c|] eqn:Hi; [|done]. simpl. intros Hat.
        right. exists i, c, a. split; [done|]. split; [done|].
        rewrite list.Forall_forall in IH. apply IH; [|done].
        by eapply list_elem_of_lookup_2.
Qed.

Lemma fst_child_paths (i : nat) (l : list (addr * node)) :
  (prod_map (cons i) id <$> l).*1 = cons i <$> l.*1.
Proof. induction l as [|[a m] l IH]; csimpl; [done|]. by rewrite IH. Qed.

Lemma NoDup_paths_from i l :
  Forall (λ c, NoDup (paths c).*1) l → NoDup (paths_from i l).*1.
Proof.
  intros Hl. revert i. induction Hl as [|c l Hc _ IH]; intros i; simpl; [constructor|].
  rewrite fmap_app. apply list.NoDup_app. split; [|split; [|apply IH]].
  - rewrite fst_child_paths. by apply (NoDup_fmap_2 (cons i)).
  - intros a Ha Hb.
    apply list_elem_of_fmap in Ha as ([a1 m1] & -> & Ha).
    apply list_elem_of_fmap in Ha as ([a2 m2] & [= -> ->] & Ha).
    apply list_elem_of_fmap in Hb as ([a3 m3] & Heq & Hb). simpl in Heq. subst a3.
    apply elem_of_paths_from in Hb as (j & c' & a' & _ & [= Hi _] & _). lia.
Qed.

Lemma NoDup_paths n : NoDup (paths n).*1.
Proof.
  induction n as [v cs|v cs|ty cs ch IH] using node_ind_all.
  - simpl. apply NoDup_singleton.
  - simpl. apply NoDup_singleton.
  - rewrite paths_Other. csimpl. apply list.NoDup_cons. split; [|by apply NoDup_paths_from].
    intros Hin. apply list_elem_of_fmap in Hin as ([a m] & Heq & Hin). simpl in Heq.
    subst a. by apply elem_of_paths_from in Hin as (j & c' & a' & _ & ? & _).
Qed.

(** The comment search meets exactly the comments of the tree. *)
Lemma find_Comment_Other ty cs ch :
  find_Comment (Other ty cs ch) =
    find_Comment_from 0 ch ++ imap (λ i c, ([], i, c)) cs.
Proof. reflexivity. Qed.

Lemma find_Comment_from_cons i c l :
  find_Comment_from i (c :: l) =
    (prod_map (prod_map (cons i) id) id <$> find_Comment c) ++ find_Comment_from (S i) l.
Proof. reflexivity. Qed.

Lemma elem_of_find_Comment_from a i c k l :
  (a, i, c) ∈ find_Comment_from k l ↔
  ∃ j m a', l !! j = Some m ∧ a = (k + j)%nat :: a' ∧ (a', i, c) ∈ find_Comment m.
Proof.
  revert k. induction l as [|m l IH]; intros k.
  - split; [by intros ?%elem_of_nil|]. by intros (j & m & a' & ? & _).
  - rewrite find_Comment_from_cons, elem_of_app, IH, list_elem_of_fmap. split.
    + intros [([[a' i'] c'] & [= -> -> ->] & Hin) | (j & m' & a' & Hj & -> & Hin)].
      * exists 0%nat, m, a'. by rewrite Nat.add_0_r.
      * exists (S j), m', a'. split; [done|]. split; [f_equal; lia|done].
    + intros (j & m' & a' & Hj & -> & Hin). destruct j as [|j]; simpl in Hj.
      * injection Hj as <-. left. exists (a', i, c). by rewrite Nat.add_0_r.
      * right. exists j, m', a'. split; [done|]. split; [f_equal; lia|done].
Qed.

Lemma elem_of_own_comments (a : addr) i c (cs : list Comment) :
  (a, i, c) ∈ imap (λ i c, (([] : addr), i, c)) cs ↔ a = [] ∧ cs !! i = Some c.
Proof.
  rewrite elem_of_lookup_imap. split.
  - by intros (j & c' & [= -> -> ->] & Hj).
  - intros [-> Hi]. by exists i, c.
Qed.

Lemma elem_of_find_Comment n a i c :
  (a, i, c) ∈ find_Comment n ↔ comment_at a i n = Some c.
Proof.
  unfold comment_at. revert a.
  induction n as [v cs|v cs|ty cs ch IH] using node_ind_all; intros a.
  - simpl. rewrite elem_of_own_comments. destruct a as [|k a]; simpl.
    + split; [by intros [_ ?]|done].
    + split; [by intros [? _]|done].
  - simpl. rewrite elem_of_own_comments. destruct a as [|k a]; simpl.
    + split; [by intros [_ ?]|done].
    + split; [by intros [? _]|done].
  - rewrite find_Comment_Other, elem_of_app, elem_of_find_Comment_from,
      elem_of_own_comments.
    destruct a as [|k a]; simpl.
    + split; [|by right]. by intros [(? & ? & ? & _ & ? & _)|[_ ?]].
    + split.
      * intros [(j & m & a' & Hj & [= -> ->] & Hin)|[? _]]; [|done].
        rewrite Hj. simpl. rewrite list.Forall_forall in IH.
        apply IH; [|done]. by eapply list_elem_of_lookup_2.
      * destruct (ch !! k) as [m|] eqn:Hk; [|done]. simpl. intros Hat.
        left. exists k, m, a. split; [done|]. split; [done|].
        rewrite list.Forall_forall in IH. apply IH; [|done].
        by eapply list_elem_of_lookup_2.
Qed.

Lemma fst_child_comments (i : nat) (l : list (addr * nat * Comment)) :
  (prod_map (prod_map (cons i) id) id <$> l).*1 = prod_map (cons i) id <$> l.*1.
Proof. induction l as [|[[a k] c] l IH]; csimpl; [done|]. by rewrite IH. Qed.

Lemma NoDup_find_Comment_from i l :
  Forall (λ c, NoDup (find_Comment c).*1) l → NoDup (find_Comment_from i l).*1.
Proof.
  intros Hl. revert i. induction Hl as [|c l Hc _ IH]; intros i; [constructor|].
  rewrite find_Comment_from_cons, fmap_app.
  apply list.NoDup_app. split; [|split; [|apply IH]].
  - rewrite fst_child_comments.
    apply NoDup_fmap_2_strong; [|done].
    intros [a1 k1] [a2 k2] _ _ [= -> ->]. done.
  - intros [a k] Ha Hb.
    apply list_elem_of_fmap in Ha as ([[a1 k1] c1] & [= -> ->] & Ha).
    apply list_elem_of_fmap in Ha as ([[a2 k2] c2] & [= -> -> ->] & Ha).
    apply list_elem_of_fmap in Hb as ([[a3 k3] c3] & [= <- <-] & Hb).
    apply elem_of_find_Comment_from in Hb as (j & m & a' & _ & [= Hi _] & _). lia.
Qed.

Lemma NoDup_find_Comment n : NoDup (find_Comment n).*1.
Proof.
  assert (∀ cs : list Comment, NoDup (imap (λ i c, (([] : addr), i, c)) cs).*1) as Hown.
  { intros cs. rewrite fmap_imap.
    apply NoDup_alt. intros i j x Hi Hj.
    apply list_lookup_imap_Some in Hi as (? & _ & ->).
    apply list_lookup_imap_Some in Hj as (? & _ & [= ->]). done. }
  induction n as [v cs|v cs|ty cs ch IH] using node_ind_all.
  - apply Hown.
  - apply Hown.
  - rewrite find_Comment_Other, fmap_app.
    apply list.NoDup_app. split; [by apply NoDup_find_Comment_from|]. split; [|apply Hown].
    intros [a k] Ha Hb.
    apply list_elem_of_fmap in Ha as ([[a1 k1] c1] & [= -> ->] & Ha).
    apply list_elem_of_fmap in Hb as ([[a2 k2] c2] & [= <- <-] & Hb).
    apply elem_of_find_Comment_from in Ha as (j & m & a' & _ & -> & _).
    by apply elem_of_own_comments in Hb as [? _].
Qed.

(** ** The candidates *)

Lemma elem_of_find_StringLiteral root a m :
  (a, m) ∈ find_StringLiteral root ↔
  ∃ v cs, m = StringLiteral v cs ∧ node_at a root = Some m.
Proof.
  unfold find_StringLiteral. rewrite list_elem_of_filter, elem_of_paths. simpl. split.
  - intros [Hm Hat]. destruct m as [v cs| |]; [|done..]. by exists v, cs.
  - by intros (v & cs & -> & Hat).
Qed.

Lemma elem_of_find_JSXText root a m :
  (a, m) ∈ find_JSXText root ↔
  ∃ v cs, m = JSXText v cs ∧ node_at a root = Some m.
Proof.
  unfold find_JSXText. rewrite list_elem_of_filter, elem_of_paths. simpl. split.
  - intros [Hm Hat]. destruct m as [|v cs|]; [done| |done]. by exists v, cs.
  - by intros (v & cs & -> & Hat).
Qed.

(** The list of candidates holds exactly the candidates of the tree. *)
Lemma elem_of_classify root tg text :
  (tg, text) ∈ classify root ↔ candidate root tg text.
Proof.
  unfold classify. rewrite !elem_of_app, !list_elem_of_omap. split.
  - intros [([a m] & Hin & Hc) | [([a m] & Hin & Hc) | ([[a i] c] & Hin & Hc)]].
    + apply elem_of_find_StringLiteral in Hin as (v & cs & -> & Hat).
      unfold literal_candidate in Hc. simpl in Hc.
      destruct (containsJapanese v) eqn:E; [|done]. injection Hc as <- <-.
      simpl. eauto.
    + apply elem_of_find_JSXText in Hin as (v & cs & -> & Hat).
      unfold text_candidate in Hc. simpl in Hc.
      destruct (containsJapanese (trim v)) eqn:E; [|done]. injection Hc as <- <-.
      simpl. eauto 6.
    + apply elem_of_find_Comment in Hin.
      unfold comment_candidate in Hc. simpl in Hc.
      destruct (containsJapanese (trim (c_value c))) eqn:E; [|done].
      injection Hc as <- <-. simpl. eauto.
  - destruct tg as [a|a|a i]; simpl.
    + intros (cs & Hat & Hj). left. exists (a, StringLiteral text cs). split.
      * apply elem_of_find_StringLiteral. eauto.
      * unfold literal_candidate. simpl. by rewrite Hj.
    + intros (v & cs & Hat & -> & Hj). right. left. exists (a, JSXText v cs). split.
      * apply elem_of_find_JSXText. eauto.
      * unfold text_candidate. simpl. by rewrite Hj.
    + intros (c & Hat & -> & Hj). right. right. exists (a, i, c). split.
      * by apply elem_of_find_Comment.
      * unfold comment_candidate. simpl. by rewrite Hj.
Qed.

Lemma is_candidate_candidate root p :
  is_candidate root p ↔ ∃ tg text, target_path tg = p ∧ candidate root tg text.
Proof.
  split.
  - destruct p as [a|a i]; simpl.
    + destruct (node_at a root) as [[v cs|v cs|]|] eqn:E; [| |done..]; intros H.
      * exists (LiteralNode a), v. simpl. eauto.
      * exists (TextNode a), (trim v). simpl. eauto 6.
    + destruct (comment_at a i root) as [c|] eqn:E; [|done]. intros H.
      exists (CommentNode a i), (trim (c_value c)). simpl. eauto.
  - intros ([a|a|a i] & text & <- & H); simpl in *.
    + destruct H as (cs & -> & H). done.
    + destruct H as (v & cs & -> & -> & H). done.
    + destruct H as (c & -> & -> & H). done.
Qed.

(** The nodes the loops select are the candidates of the tree. *)
Lemma classify_targets root p :
  p ∈ target_path <$> (classify root).*1 ↔ is_candidate root p.
Proof.
  rewrite is_candidate_candidate, list_elem_of_fmap. split.
  - intros (tg & -> & Hin). apply list_elem_of_fmap in Hin as ([tg' text] & -> & Hin).
    exists tg', text. split; [done|]. by apply elem_of_classify.
  - intros (tg & text & <- & H). exists tg. split; [done|].
    apply list_elem_of_fmap. exists (tg, text). split; [done|]. by apply elem_of_classify.
Qed.

Lemma NoDup_omap_key {A B K} (f : A → option B) (key : B → K) (akey : A → K) l :
  (∀ x y, f x = Some y → key y = akey x) →
  NoDup (akey <$> l) → NoDup (key <$> omap f l).
Proof.
  intros Hf. induction l as [|x l IH]; csimpl; [done|].
  rewrite list.NoDup_cons. intros [Hx Hl].
  destruct (f x) as [y|] eqn:E; csimpl; [|by apply IH].
  apply list.NoDup_cons. split; [|by apply IH].
  intros Hin. apply Hx. rewrite <- (Hf _ _ E).
  apply list_elem_of_fmap in Hin as (y' & -> & Hin).
  apply list_elem_of_omap in Hin as (x' & Hin & E').
  rewrite (Hf _ _ E'). apply list_elem_of_fmap. eauto.
Qed.

Lemma NoDup_fmap_filter {A B} (f : A → B) (P : A → Prop) `{∀ x, Decision (P x)} l :
  NoDup (f <$> l) → NoDup (f <$> filter P l).
Proof.
  induction l as [|x l IH]; csimpl; [done|]. rewrite list.NoDup_cons. intros [Hx Hl].
  rewrite filter_cons. destruct (decide (P x)); csimpl; [|by apply IH].
  apply list.NoDup_cons. split; [|by apply IH].
  intros Hin. apply Hx. apply list_elem_of_fmap in Hin as (y & -> & Hin).
  apply list_elem_of_filter in Hin as [_ Hin]. apply list_elem_of_fmap. eauto.
Qed.

(** No node is selected twice. *)
Lemma NoDup_classify root : NoDup (target_path <$> (classify root).*1).
Proof.
  unfold classify. rewrite !fmap_app. rewrite <- !list_fmap_compose.
  apply list.NoDup_app. split; [|split; [|apply list.NoDup_app; split; [|split]]].
  - apply (NoDup_omap_key _ _ (λ p, AtNode p.1)).
    + intros [a m] [tg text]. unfold literal_candidate. simpl.
      destruct (containsJapanese _); [|done]. by intros [= <- <-].
    + change (NoDup (AtNode ∘ fst <$> find_StringLiteral root)).
      unfold find_StringLiteral. rewrite (list_fmap_compose fst AtNode).
      apply NoDup_fmap_2_strong; [by intros ?? _ _ [= ->]|].
      apply NoDup_fmap_filter, NoDup_paths.
  - intros p H1 H2. apply elem_of_app in H2.
    apply list_elem_of_fmap in H1 as ([tg1 x1] & -> & H1).
    apply list_elem_of_omap in H1 as ([a1 m1] & H1 & E1).
    apply elem_of_find_StringLiteral in H1 as (v1 & cs1 & -> & Hat1).
    unfold literal_candidate in E1. simpl in E1.
    destruct (containsJapanese v1); [|done]. injection E1 as <- <-. simpl in H2.
    destruct H2 as [H2|H2]; apply list_elem_of_fmap in H2 as ([tg2 x2] & Heq & H2);
      apply list_elem_of_omap in H2 as (y & H2 & E2).
    + destruct y as [a2 m2].
      apply elem_of_find_JSXText in H2 as (v2 & cs2 & -> & Hat2).
      unfold text_candidate in E2. simpl in E2.
      destruct (containsJapanese (trim v2)); [|done]. injection E2 as <- <-.
      simpl in Heq. injection Heq as ->. congruence.
    + unfold comment_candidate in E2.
      destruct (containsJapanese _); [|done]. injection E2 as <- <-. done.
  - apply (NoDup_omap_key _ _ (λ p, AtNode p.1)).
    + intros [a m] [tg text]. unfold text_candidate. simpl.
      destruct (containsJapanese _); [|done]. by intros [= <- <-].
    + change (NoDup (AtNode ∘ fst <$> find_JSXText root)).
      unfold find_JSXText. rewrite (list_fmap_compose fst AtNode).
      apply NoDup_fmap_2_strong; [by intros ?? _ _ [= ->]|].
      apply NoDup_fmap_filter, NoDup_paths.
  - intros p H1 H2.
    apply list_elem_of_fmap in H1 as ([tg1 x1] & -> & H1).
    apply list_elem_of_omap in H1 as ([a1 m1] & H1 & E1).
    unfold text_candidate in E1. simpl in E1.
    destruct (containsJapanese _); [|done]. injection E1 as <- <-. simpl in H2.
    apply list_elem_of_fmap in H2 as ([tg2 x2] & Heq & H2).
    apply list_elem_of_omap in H2 as (y & H2 & E2).
    unfold comment_candidate in E2.
    destruct (containsJapanese _); [|done]. injection E2 as <- <-. done.
  - apply (NoDup_omap_key _ _ (λ p, AtComment p.1.1 p.1.2)).
    + intros [[a i] c] [tg text]. unfold comment_candidate. simpl.
      destruct (containsJapanese _); [|done]. by intros [= <- <-].
    + change (NoDup ((λ q, AtComment q.1 q.2) ∘ fst <$> find_Comment root)).
      rewrite (list_fmap_compose fst (λ q, AtComment q.1 q.2)).
      apply NoDup_fmap_2_strong; [|apply NoDup_find_Comment].
      intros [a1 i1] [a2 i2] _ _. simpl. by intros [= -> ->].
Qed.

(** ** The tree after the writes *)

Lemma rewrite_Other d ty cs ch :
  rewrite d (Other ty cs ch) = Other ty (rewrite_comments d cs) (rewrite_from d 0 ch).
Proof. reflexivity. Qed.

Lemma rewrite_from_lookup d i l j :
  rewrite_from d i l !! j = rewrite (λ p, d (under (i + j) p)) <$> l !! j.
Proof.
  revert i j. induction l as [|c l IH]; intros i j; simpl; [done|].
  destruct j as [|j]; simpl.
  - by rewrite Nat.add_0_r.
  - rewrite IH. by replace (S i + j)%nat with (i + S j)%nat by lia.
Qed.

Lemma rewrite_comments_ext d d' cs :
  (∀ k, d (AtComment [] k) = d' (AtComment [] k)) →
  rewrite_comments d cs = rewrite_comments d' cs.
Proof. intros H. apply imap_ext. intros k c _. by rewrite H. Qed.

(** Only the decisions matter, not how they are represented. *)
Lemma rewrite_ext n : ∀ d d', (∀ p, d p = d' p) → rewrite d n = rewrite d' n.
Proof.
  induction n as [v cs|v cs|ty cs ch IH] using node_ind_all; intros d d' H.
  - simpl. rewrite H, (rewrite_comments_ext d d') by done. done.
  - simpl. rewrite H, (rewrite_comments_ext d d') by done. done.
  - rewrite !rewrite_Other. f_equal; [by apply rewrite_comments_ext|].
    apply list_eq. intros j. rewrite !rewrite_from_lookup.
    destruct (ch !! j) as [c|] eqn:E; [|done]. simpl. f_equal.
    rewrite list.Forall_forall in IH. apply IH; [by eapply list_elem_of_lookup_2|].
    intros p. apply H.
Qed.

Lemma rewrite_comments_none cs : rewrite_comments no_decision cs = cs.
Proof.
  unfold rewrite_comments, no_decision. apply list_eq. intros k.
  rewrite list_lookup_imap. by destruct (cs !! k).
Qed.

(** Without decisions nothing changes. *)
Lemma rewrite_no_decision n : rewrite no_decision n = n.
Proof.
  induction n as [v cs|v cs|ty cs ch IH] using node_ind_all.
  - simpl. by rewrite rewrite_comments_none.
  - simpl. by rewrite rewrite_comments_none.
  - rewrite rewrite_Other, rewrite_comments_none. f_equal.
    apply list_eq. intros j. rewrite rewrite_from_lookup.
    destruct (ch !! j) as [c|] eqn:E; [|done]. simpl. f_equal.
    rewrite list.Forall_forall in IH. apply IH. by eapply list_elem_of_lookup_2.
Qed.

Lemma under_inj i j p q : under i p = under j q → i = j ∧ p = q.
Proof. destruct p, q; simpl; intros ?; by simplify_eq. Qed.

Lemma under_not_local i p : (∀ k, under i p ≠ AtComment [] k) ∧ under i p ≠ AtNode [].
Proof. by destruct p. Qed.

Lemma decide_at_eq d p t : decide_at d p t p = Some t.
Proof. unfold decide_at. by rewrite bool_decide_eq_true_2. Qed.

Lemma decide_at_ne d p t q : q ≠ p → decide_at d p t q = d q.
Proof. intros H. unfold decide_at. by rewrite bool_decide_eq_false_2. Qed.

Lemma under_addr_node a : under_addr a (AtNode []) = AtNode a.
Proof. induction a as [|i a IH]; simpl; [done|]. by rewrite IH. Qed.

Lemma under_addr_comment a k : under_addr a (AtComment [] k) = AtComment a k.
Proof. induction a as [|i a IH]; simpl; [done|]. by rewrite IH. Qed.

Lemma target_path_local tg : target_path tg = under_addr (target_addr tg) (local_path tg).
Proof. destruct tg; simpl; by rewrite ?under_addr_node, ?under_addr_comment. Qed.

Lemma apply_write_callback tg t root :
  apply_write (callback tg t) root = alter_at (local_write tg t) (target_addr tg) root.
Proof. by destruct tg. Qed.

Lemma rewrite_comments_decide d k t cs :
  alter (assign_value (padded t)) k (rewrite_comments d cs) =
    rewrite_comments (decide_at d (AtComment [] k) t) cs.
Proof.
  unfold rewrite_comments. apply list_eq. intros j.
  destruct (decide (j = k)) as [->|Hne].
  - rewrite list_lookup_alter_eq, !list_lookup_imap, decide_at_eq.
    destruct (cs !! k) as [c|]; [|done]. simpl. by destruct (d (AtComment [] k)).
  - rewrite list_lookup_alter_ne, !list_lookup_imap by done.
    rewrite decide_at_ne by (by intros [= ->]). done.
Qed.

(** At its own node, a callback turns the tree of some decisions into the
    tree of these decisions and its own. *)
Lemma local_write_rewrite tg t d m :
  right_kind tg m →
  local_write tg t (rewrite d m) = rewrite (decide_at d (local_path tg) t) m.
Proof.
  destruct tg as [a|a|a k]; simpl.
  - destruct m; [|done..]. intros _. simpl. by rewrite ?decide_at_eq.
  - destruct m; [done| |done]. intros _. simpl. by rewrite ?decide_at_eq.
  - intros _. destruct m as [v cs|v cs|ty cs ch].
    + cbn [rewrite]. rewrite decide_at_ne by done.
      destruct (d (AtNode [])); simpl; [done|]. by rewrite rewrite_comments_decide.
    + cbn [rewrite]. rewrite decide_at_ne by done.
      destruct (d (AtNode [])); simpl; [done|]. by rewrite rewrite_comments_decide.
    + rewrite !rewrite_Other. simpl. rewrite rewrite_comments_decide. f_equal.
      apply list_eq. intros j. rewrite !rewrite_from_lookup.
      destruct (ch !! j) as [c|]; [|done]. simpl. f_equal. apply rewrite_ext.
      intros p. rewrite decide_at_ne; [done|]. apply under_not_local.
Qed.

(** A write below a node is a write of the same kind in one of its children,
    and the decisions of the other children stay as they are. *)
Lemma alter_at_rewrite (f : node → node) (q : path) (t : jstring) (good : node → Prop) :
  (∀ d m, good m → f (rewrite d m) = rewrite (decide_at d q t) m) →
  ∀ a d root,
    (∀ m, node_at a root = Some m → good m) →
    alter_at f a (rewrite d root) = rewrite (decide_at d (under_addr a q) t) root.
Proof.
  intros Hf. induction a as [|i a IH]; intros d root Hgood.
  - simpl. apply Hf. by apply Hgood.
  - destruct root as [v cs|v cs|ty cs ch].
    + cbn [rewrite alter_at under_addr foldr].
      rewrite decide_at_ne by (symmetry; apply under_not_local).
      rewrite (rewrite_comments_ext (decide_at _ _ _) d).
      * by destruct (d (AtNode [])).
      * intros k. apply decide_at_ne. symmetry. apply under_not_local.
    + cbn [rewrite alter_at under_addr foldr].
      rewrite decide_at_ne by (symmetry; apply under_not_local).
      rewrite (rewrite_comments_ext (decide_at _ _ _) d).
      * by destruct (d (AtNode [])).
      * intros k. apply decide_at_ne. symmetry. apply under_not_local.
    + rewrite !rewrite_Other. cbn [alter_at]. f_equal.
      * apply rewrite_comments_ext. intros k. symmetry. apply decide_at_ne.
        symmetry. apply under_not_local.
      * apply list_eq. intros j. destruct (decide (j = i)) as [->|Hne].
        -- rewrite list_lookup_alter_eq, !rewrite_from_lookup.
           destruct (ch !! i) as [c|] eqn:E; [|done]. simpl. f_equal.
           rewrite IH.
           ++ apply rewrite_ext. intros p. unfold decide_at. simpl.
              destruct (decide (p = under_addr a q)) as [->|Hp].
              ** by rewrite !bool_decide_eq_true_2.
              ** rewrite !bool_decide_eq_false_2; [done| |done].
                 intros [_ ?]%under_inj. done.
           ++ intros m Hm. apply Hgood. simpl. by rewrite E.
        -- rewrite list_lookup_alter_ne, !rewrite_from_lookup by done.
           destruct (ch !! j) as [c|]; [|done]. simpl. f_equal.
           apply rewrite_ext. intros p. rewrite decide_at_ne; [done|].
           simpl. intros [? _]%under_inj. lia.
Qed.

Lemma valid_target_right_kind root tg m :
  valid_target root tg → node_at (target_addr tg) root = Some m → right_kind tg m.
Proof.
  destruct tg as [a|a|a k]; simpl; [| |done].
  - intros (v & cs & ->) [= <-]. done.
  - intros (v & cs & ->) [= <-]. done.
Qed.

(** One callback on the tree of some decisions. *)
Lemma apply_write_rewrite root tg t d :
  valid_target root tg →
  apply_write (callback tg t) (rewrite d root) =
    rewrite (decide_at d (target_path tg) t) root.
Proof.
  intros Hv. rewrite apply_write_callback, target_path_local.
  apply (alter_at_rewrite _ _ _ (right_kind tg)).
  - intros d' m. apply local_write_rewrite.
  - intros m. by apply valid_target_right_kind.
Qed.

(** All callbacks, in any order. *)
Lemma foldl_apply_write_rewrite root (l : list (target * jstring)) d :
  Forall (λ x, valid_target root x.1) l →
  foldl (λ r w, apply_write w r) (rewrite d root) ((λ x, callback x.1 x.2) <$> l) =
    rewrite (decide_all d l) root.
Proof.
  intros Hl. revert d. induction Hl as [|[tg t] l Hv _ IH]; intros d; csimpl; [done|].
  rewrite apply_write_rewrite by done. apply IH.
Qed.

Lemma decide_all_notin d (l : list (target * jstring)) q :
  q ∉ target_path <$> l.*1 → decide_all d l q = d q.
Proof.
  revert d. induction l as [|[tg t] l IH]; intros d Hq; [done|].
  csimpl in Hq. apply not_elem_of_cons in Hq as [Hne Hq].
  unfold decide_all in *. simpl. rewrite IH by done. by apply decide_at_ne.
Qed.

Lemma decide_all_in d (l : list (target * jstring)) tg t :
  NoDup (target_path <$> l.*1) → (tg, t) ∈ l →
  decide_all d l (target_path tg) = Some t.
Proof.
  revert d. induction l as [|[tg' t'] l IH]; intros d Hnd Hin; [by apply elem_of_nil in Hin|].
  csimpl in Hnd. apply list.NoDup_cons in Hnd as [Hfresh Hnd].
  apply elem_of_cons in Hin as [[= <- <-]|Hin].
  - unfold decide_all. simpl. fold (decide_all (decide_at d (target_path tg) t) l).
    rewrite decide_all_notin by done. apply decide_at_eq.
  - unfold decide_all. simpl. by apply IH.
Qed.

(** With one decision per position, their order does not matter. *)
Lemma decide_all_Permutation d (l l' : list (target * jstring)) q :
  NoDup (target_path <$> l.*1) → l ≡ₚ l' → decide_all d l q = decide_all d l' q.
Proof.
  intros Hnd Hp.
  assert (NoDup (target_path <$> l'.*1)) as Hnd' by (by rewrite <- Hp).
  destruct (decide (q ∈ target_path <$> l.*1)) as [Hin|Hout].
  - apply list_elem_of_fmap in Hin as (tg & -> & Hin).
    apply list_elem_of_fmap in Hin as ([tg' t] & -> & Hin). simpl.
    rewrite (decide_all_in d l tg' t) by done.
    rewrite (decide_all_in d l' tg' t); [done|done|by rewrite <- Hp].
  - rewrite decide_all_notin by done. rewrite decide_all_notin; [done|by rewrite <- Hp].
Qed.

Lemma task_result_translated env dryRun filePath k (c : target * jstring) :
  task_result env filePath
    (mkTask k c.1 c.2 (translateToEnglish_call env k c.2 dryRun filePath).1) =
  translated env k c.2 dryRun filePath.
Proof.
  unfold task_result, translated, translateToEnglish. simpl.
  destruct (translateToEnglish_call env k c.2 dryRun filePath) as [[[v|e]|] log]; simpl; [done..|].
  by destruct (translateToEnglish_resume env k c.2 filePath).
Qed.

(** What the callbacks of the entries write is what [results] lists. *)
Lemma tasks_results env dryRun filePath root :
  (λ t, (t_target t, task_result env filePath t)) <$>
    (collect env dryRun filePath root).1 = results env dryRun filePath root.
Proof.
  rewrite collect_tasks, call_all_tasks, fmap_imap. unfold results.
  apply imap_ext. intros k c _. simpl. f_equal. apply task_result_translated.
Qed.

Lemma results_targets env dryRun filePath root :
  (results env dryRun filePath root).*1 = (classify root).*1.
Proof.
  unfold results. rewrite fmap_imap. apply list_eq. intros k.
  rewrite list_lookup_imap, list_lookup_fmap. by destruct (classify root !! k).
Qed.

Lemma classify_valid root : Forall (λ x, valid_target root x.1) (classify root).
Proof.
  apply list.Forall_forall. intros [tg text] Hin. apply elem_of_classify in Hin.
  destruct tg as [a|a|a i]; simpl in *; [| |done].
  - destruct Hin as (cs & ? & _). eauto.
  - destruct Hin as (v & cs & ? & _). eauto.
Qed.

Lemma results_valid env dryRun filePath root :
  Forall (λ x, valid_target root x.1) (results env dryRun filePath root).
Proof.
  apply list.Forall_forall. intros [tg t] Hin.
  assert (tg ∈ (results env dryRun filePath root).*1) as Htg.
  { apply list_elem_of_fmap. by exists (tg, t). }
  rewrite results_targets in Htg. apply list_elem_of_fmap in Htg as ([tg' text] & -> & Hc).
  pose proof (classify_valid root) as Hv. rewrite list.Forall_forall in Hv.
  by apply (Hv (tg', text)).
Qed.

(** The tree when the barrier is passed, whatever the schedule: the parsed
    tree with the decisions of the run. *)
Lemma translate_tree_final env sched dryRun filePath root :
  dryRun = true ∨ new_OpenAI env = Normal () →
  ∃ log,
    translate_tree env sched dryRun filePath root =
      (Normal (rewrite (decided env dryRun filePath root) root), log) ∧
    writes log ≡ₚ (λ x, callback x.1 x.2) <$> results env dryRun filePath root ∧
    rewrite (decided env dryRun filePath root) root =
      foldl (λ r w, apply_write w r) root (writes log).
Proof.
  intros H.
  assert (Forall (λ t, is_rejected t = false) (collect env dryRun filePath root).1) as Hok.
  { rewrite collect_tasks. by apply call_all_not_rejected. }
  rewrite (translate_tree_eq env sched dryRun filePath root Hok).
  set (tasks := (collect env dryRun filePath root).1) in *.
  set (order := settle_order sched tasks).
  assert (order ≡ₚ tasks) as Hperm by apply settle_order_Permutation.
  assert (Forall (λ t, is_rejected t = false) order) as Hok' by (by rewrite Hperm).
  assert (writes ((collect env dryRun filePath root).2 ++
                  mjoin (settle_log env filePath <$> order)) =
          task_write env filePath <$> order) as Hw.
  { rewrite writes_app, (writes_none _ (collect_log_no_write _ _ _ _)).
    by rewrite writes_settle_log. }
  set (pairs := (λ t, (t_target t, task_result env filePath t)) <$> order).
  assert (task_write env filePath <$> order = (λ x, callback x.1 x.2) <$> pairs) as Hpairs.
  { unfold pairs. by rewrite <- list_fmap_compose. }
  assert (pairs ≡ₚ results env dryRun filePath root) as Hpp.
  { unfold pairs. rewrite Hperm. unfold tasks. by rewrite tasks_results. }
  assert (foldl (λ r w, apply_write w r) root (task_write env filePath <$> order) =
          rewrite (decided env dryRun filePath root) root) as Hfinal.
  { rewrite Hpairs. rewrite <- (rewrite_no_decision root) at 1.
    rewrite foldl_apply_write_rewrite.
    - apply rewrite_ext. intros q. unfold decided. symmetry.
      apply decide_all_Permutation; [|done].
      rewrite results_targets. apply NoDup_classify.
    - rewrite Hpp. apply results_valid. }
  eexists. split; [by rewrite Hfinal|]. rewrite Hw. split.
  - by rewrite Hpairs, Hpp.
  - by rewrite Hfinal.
Qed.

Lemma write_target_callback tg t : write_target (callback tg t) = target_path tg.
Proof. by destruct tg. Qed.

Lemma results_lookup env dryRun filePath root k :
  results env dryRun filePath root !! k =
    (λ c, (c.1, translated env k c.2 dryRun filePath)) <$> classify root !! k.
Proof. unfold results. apply list_lookup_imap. Qed.

Lemma results_writes env dryRun filePath root :
  (λ x, callback x.1 x.2) <$> results env dryRun filePath root =
    imap (λ k c, callback c.1 (translated env k c.2 dryRun filePath)) (classify root).
Proof. unfold results. by rewrite fmap_imap. Qed.

Lemma results_write_targets env dryRun filePath root :
  write_target <$> ((λ x, callback x.1 x.2) <$> results env dryRun filePath root) =
    target_path <$> (classify root).*1.
Proof.
  rewrite <- (results_targets env dryRun filePath root), <- !list_fmap_compose.
  apply list_fmap_ext.
  intros i [tg t] _. simpl. apply write_target_callback.
Qed.

(** The decision of a run at a candidate is the result of that candidate's
    call; elsewhere there is none. *)
Lemma decided_candidate env dryRun filePath root k tg text :
  classify root !! k = Some (tg, text) →
  decided env dryRun filePath root (target_path tg) =
    Some (translated env k text dryRun filePath).
Proof.
  intros Hk. unfold decided. apply decide_all_in.
  - rewrite results_targets. apply NoDup_classify.
  - apply list_elem_of_lookup. exists k. by rewrite results_lookup, Hk.
Qed.

Lemma decided_other env dryRun filePath root q :
  ¬ is_candidate root q → decided env dryRun filePath root q = None.
Proof.
  intros Hq. unfold decided. rewrite decide_all_notin; [done|].
  rewrite results_targets. by rewrite classify_targets.
Qed.

(** The promise of a call is rejected only when the client cannot be built. *)
Lemma translateToEnglish_fulfilled env k text dryRun filePath :
  dryRun = true ∨ new_OpenAI env = Normal () →
  (translateToEnglish env k text dryRun filePath).1 =
    Normal (translated env k text dryRun filePath).
Proof.
  intros H. unfold translated, translateToEnglish, translateToEnglish_call.
  destruct H as [-> | Hnew]; [done|]. rewrite Hnew.
  destruct dryRun; [done|].
  by destruct (translateToEnglish_resume env k text filePath).
Qed.

(** The log of [transform] is the log of the translation, followed by the
    diagnostic of the [catch] when the printer throws. *)
Lemma transform_log env sched fileInfo api dryRun root final log :
  parse env api (source fileInfo) = Normal root →
  translate_tree env sched dryRun (path_of fileInfo) root = (Normal final, log) →
  (transform env sched fileInfo api dryRun =
     (source fileInfo, log ++ [console_error
        (failed_to_process (path_of fileInfo)
           (match toSource env final with Throw e => e | Normal _ => mkError [] end)) None]) ∧
   ∃ e, toSource env final = Throw e) ∨
  (∃ output, toSource env final = Normal output ∧
     transform env sched fileInfo api dryRun = (output, log)).
Proof.
  intros Hparse Htree. unfold transform, transform_try. rewrite Hparse, Htree.
  destruct (toSource env final) as [output|e]; [right|left]; eauto.
Qed.

Lemma transform_writes env sched fileInfo api dryRun root final log :
  parse env api (source fileInfo) = Normal root →
  translate_tree env sched dryRun (path_of fileInfo) root = (Normal final, log) →
  writes (transform env sched fileInfo api dryRun).2 = writes log.
Proof.
  intros Hparse Htree.
  destruct (transform_log _ _ _ _ _ _ _ _ Hparse Htree) as [[-> _]|(out & _ & ->)]; [|done].
  simpl. rewrite writes_app. simpl. apply app_nil_r.
Qed.

(** The writes of a run, up to their order. *)
Lemma transform_writes_results env sched fileInfo api dryRun root :
  parse env api (source fileInfo) = Normal root →
  dryRun = true ∨ new_OpenAI env = Normal () →
  writes (transform env sched fileInfo api dryRun).2 ≡ₚ
    imap (λ k c, callback c.1 (translated env k c.2 dryRun (path_of fileInfo)))
      (classify root).
Proof.
  intros Hparse H.
  destruct (translate_tree_final env sched dryRun (path_of fileInfo) root H)
    as (log & Htree & Hperm & _).
  rewrite (transform_writes _ _ _ _ _ _ _ _ Hparse Htree).
  by rewrite <- results_writes.
Qed.

(** The callbacks that run. For every file [transform] parses and whose
    translations are not cut short by a client that cannot be built, the
    callbacks write, up to their order, once per candidate of the tree as it
    was parsed, each with the result of the call issued for that very
    candidate, and at the candidates only. What the tree is after these
    writes is said by [translate_tree_final] and [final_tree_described]. *)
Lemma transform_writes_candidates env sched fileInfo api dryRun root :
  parse env api (source fileInfo) = Normal root →
  dryRun = true ∨ new_OpenAI env = Normal () →
  let filePath := path_of fileInfo in
  let ws := writes (transform env sched fileInfo api dryRun).2 in
  ws ≡ₚ imap (λ k c, callback c.1 (translated env k c.2 dryRun filePath)) (classify root) ∧
  (∀ k c, classify root !! k = Some c →
     (translateToEnglish env k c.2 dryRun filePath).1 =
       Normal (translated env k c.2 dryRun filePath)) ∧
  NoDup (write_target <$> ws) ∧
  (∀ p, p ∈ write_target <$> ws ↔ is_candidate root p) ∧
  length ws = length (classify root) ∧
  ∃ log,
    translate_tree env sched dryRun filePath root =
      (Normal (foldl (λ r w, apply_write w r) root ws), log).
Proof.
  intros Hparse H filePath ws.
  destruct (translate_tree_final env sched dryRun filePath root H)
    as (log & Htree & Hperm & Hfold).
  assert (ws = writes log) as -> by (by eapply transform_writes).
  rewrite results_writes in Hperm.
  assert (write_target <$> writes log ≡ₚ target_path <$> (classify root).*1) as Htargets.
  { rewrite Hperm, <- results_writes. by rewrite results_write_targets. }
  split; [done|]. split; [intros; by apply translateToEnglish_fulfilled|].
  split; [rewrite Htargets; apply NoDup_classify|].
  split; [intros p; rewrite Htargets; apply classify_targets|].
  split; [by rewrite Hperm, length_imap|].
  exists log. by rewrite <- Hfold.
Qed.

(** ** Failure of the pipeline *)

Lemma failed_to_process_embeds filePath e :
  embeds filePath (failed_to_process filePath e) ∧
  embeds (message e) (failed_to_process filePath e).
Proof.
  unfold failed_to_process. split.
  - exists (js "Failed to process "), (js ": " ++ message e). done.
  - exists (js "Failed to process " ++ filePath ++ js ": "), [].
    by rewrite app_nil_r, <- !app_assoc.
Qed.

(** The three ways listed are all the ways the [try] block can throw. *)
Lemma transform_try_throws env sched fileInfo api dryRun e log :
  transform_try env sched fileInfo api dryRun = (Throw e, log) ↔
  transform_throws env sched fileInfo api dryRun e log.
Proof.
  unfold transform_try. split.
  - destruct (parse env api (source fileInfo)) as [root|e'] eqn:Hparse.
    + destruct (translate_tree env sched dryRun (path_of fileInfo) root)
        as [[root'|e'] log'] eqn:Htree.
      * destruct (toSource env root') as [output|e''] eqn:Hprint; [done|].
        intros [= <- <-]. by eapply print_failure.
      * intros [= <- <-]. by eapply task_rejected.
    + intros [= <- <-]. by apply parse_failure.
  - intros [e' Hparse | root e' log' Hparse Htree | root root' e' log' Hparse Htree Hprint].
    + by rewrite Hparse.
    + by rewrite Hparse, Htree.
    + by rewrite Hparse, Htree, Hprint.
Qed.

(** A promise is rejected, and with it the barrier, exactly when there is a
    candidate to translate and the client cannot be built. *)
Lemma translate_tree_throws env sched dryRun filePath root e :
  dryRun = false → new_OpenAI env = Throw e → classify root ≠ [] →
  translate_tree env sched dryRun filePath root =
    (Throw e, (collect env dryRun filePath root).2).
Proof.
  intros -> Hnew Hne. unfold translate_tree, await_all.
  destruct (collect env false filePath root) as [tasks log] eqn:E.
  assert (tasks = (call_all env false filePath 0 (classify root)).1) as ->.
  { by rewrite <- collect_tasks, E. }
  destruct (classify root) as [|c cs]; [done|].
  cbn [call_all fst first_rejection t_promise].
  rewrite call_promise, Hnew. by rewrite app_nil_r.
Qed.

(** C4. Whenever a step of [transform] throws, be it the parser, the
    printer, or a rejected promise at the barrier, the output is the source
    text of the file as it was read, not a rendering of the tree, and the
    last thing logged is a [console.error] line that names the file path and
    the message of the error. *)
Theorem transform_failure_returns_source env sched fileInfo api dryRun e log :
  transform_throws env sched fileInfo api dryRun e log →
  transform env sched fileInfo api dryRun =
    (source fileInfo,
     log ++ [console_error (failed_to_process (path_of fileInfo) e) None]) ∧
  embeds (path_of fileInfo) (failed_to_process (path_of fileInfo) e) ∧
  embeds (message e) (failed_to_process (path_of fileInfo) e).
Proof.
  intros H. apply transform_try_throws in H.
  unfold transform. rewrite H. split; [done|]. apply failed_to_process_embeds.
Qed.

Lemma transform_failure_returns_source_witness :
  let env := Examples.env_unprintable Examples.paragraph Examples.says_hello in
  let fileInfo := mkFileInfo (js "src/App.jsx") (js "<p>...</p>") in
  let log := (translate_tree env [] false (js "src/App.jsx") Examples.paragraph).2 in
  transform env [] fileInfo None false =
    (js "<p>...</p>",
     log ++ [console_error (failed_to_process (js "src/App.jsx") Examples.unprintable) None]) ∧
  embeds (js "src/App.jsx") (failed_to_process (js "src/App.jsx") Examples.unprintable) ∧
  embeds (message Examples.unprintable)
    (failed_to_process (js "src/App.jsx") Examples.unprintable).
Proof.
  apply (transform_failure_returns_source
           (Examples.env_unprintable Examples.paragraph Examples.says_hello) []
           (mkFileInfo (js "src/App.jsx") (js "<p>...</p>")) None false
           Examples.unprintable).
  eapply print_failure; reflexivity.
Defined.

(** Without a client: a file with a candidate is left as it was read, and no
    node is written. *)
Lemma no_client_returns_source :
  transform (Examples.env_no_client Examples.paragraph) [] Examples.paragraph_file None false =
    (source Examples.paragraph_file,
     [ root_find FindStringLiteral; root_find FindJSXText; root_find FindComment;
       console_error (failed_to_process Examples.app_jsx Examples.missing_key) None ]).
Proof. reflexivity. Qed.

(** ** The order of events *)


Lemma finds_app l1 l2 : finds (l1 ++ l2) = finds l1 ++ finds l2.
Proof. apply omap_app. Qed.

Lemma requests_app l1 l2 : requests (l1 ++ l2) = requests l1 ++ requests l2.
Proof. apply omap_app. Qed.

Lemma reports_app l1 l2 : reports (l1 ++ l2) = reports l1 ++ reports l2.
Proof. apply omap_app. Qed.

Lemma file_writes_app l1 l2 : file_writes (l1 ++ l2) = file_writes l1 ++ file_writes l2.
Proof. apply omap_app. Qed.

Lemma call_all_finds env dryRun filePath k cs :
  finds (call_all env dryRun filePath k cs).2 = [].
Proof.
  revert k. induction cs as [|c cs IH]; intros k; [done|].
  cbn [call_all snd]. rewrite finds_app, IH, call_log.
  destruct dryRun; [done|]. by destruct (new_OpenAI env).
Qed.

Lemma call_all_requests env dryRun filePath k cs :
  requests (call_all env dryRun filePath k cs).2 =
    if dryRun then []
    else match new_OpenAI env with
         | Throw _ => []
         | Normal _ => imap (λ i c, ((k + i)%nat, translation_request c.2)) cs
         end.
Proof.
  revert k. induction cs as [|c cs IH]; intros k.
  - destruct dryRun; [done|]. by destruct (new_OpenAI env).
  - cbn [call_all snd]. rewrite requests_app, IH, call_log.
    destruct dryRun; [done|]. destruct (new_OpenAI env); [|done].
    cbn. rewrite Nat.add_0_r. f_equal. apply imap_ext. intros i x _. simpl.
    by replace (k + S i)%nat with (S (k + i)) by lia.
Qed.

Lemma call_all_reports env dryRun filePath k cs :
  reports (call_all env dryRun filePath k cs).2 =
    if dryRun then (λ c, dry_run_report c.2 filePath) <$> cs else [].
Proof.
  revert k. induction cs as [|c cs IH]; intros k.
  - by destruct dryRun.
  - cbn [call_all snd]. rewrite reports_app, IH, call_log.
    destruct dryRun; [done|]. by destruct (new_OpenAI env).
Qed.

Lemma call_all_file_writes env dryRun filePath k cs :
  file_writes (call_all env dryRun filePath k cs).2 = [].
Proof.
  revert k. induction cs as [|c cs IH]; intros k; [done|].
  cbn [call_all snd]. rewrite file_writes_app, IH, call_log.
  destruct dryRun; [done|]. by destruct (new_OpenAI env).
Qed.

(** The log of the loops as a concatenation of three searches and the calls
    after each. *)
Ltac collect_log_pieces :=
  rewrite collect_log;
  change (?e :: ?l ++ ?e' :: ?l' ++ ?e'' :: ?l'') with
    ([e] ++ l ++ [e'] ++ l' ++ [e''] ++ l'').

(** The searches of the loops: each node type once, in this order. *)
Lemma collect_finds env dryRun filePath root :
  finds (collect env dryRun filePath root).2 =
    [FindStringLiteral; FindJSXText; FindComment].
Proof.
  collect_log_pieces.
  by rewrite !finds_app, !call_all_finds.
Qed.

(** The requests of the loops: one per candidate, for the candidate's text. *)
Lemma collect_requests env dryRun filePath root :
  requests (collect env dryRun filePath root).2 =
    if dryRun then []
    else match new_OpenAI env with
         | Throw _ => []
         | Normal _ => imap (λ k c, (k, translation_request c.2)) (classify root)
         end.
Proof.
  collect_log_pieces.
  rewrite !requests_app, !call_all_requests.
  destruct dryRun; [done|]. destruct (new_OpenAI env); [|done].
  unfold classify. rewrite !imap_app. cbn [requests omap app]. simpl.
  f_equal. f_equal.
  apply imap_ext. intros i x _. simpl. by rewrite Nat.add_assoc.
Qed.

(** The report lines of the loops in dry-run mode: one per candidate. *)
Lemma collect_reports env dryRun filePath root :
  reports (collect env dryRun filePath root).2 =
    if dryRun then (λ c, dry_run_report c.2 filePath) <$> classify root else [].
Proof.
  collect_log_pieces.
  rewrite !reports_app, !call_all_reports.
  destruct dryRun; [|done]. unfold classify. by rewrite !fmap_app.
Qed.

Lemma collect_file_writes env dryRun filePath root :
  file_writes (collect env dryRun filePath root).2 = [].
Proof.
  collect_log_pieces.
  by rewrite !file_writes_app, !call_all_file_writes.
Qed.

Lemma resume_log_after_loops env k text filePath :
  Forall after_loops (translateToEnglish_resume env k text filePath).2.
Proof.
  unfold translateToEnglish_resume.
  destruct (chat_completions_create _ _ _) as [resp|e]; simpl; [|by repeat constructor].
  destruct (first_content_trimmed resp); simpl; by repeat constructor.
Qed.

Lemma foldl_settle_log env filePath (l : list task) (st : node * list event) :
  ∃ l', (foldl (settle env filePath) st l).2 = st.2 ++ l' ∧ Forall after_loops l'.
Proof.
  revert st. induction l as [|t l IH]; intros st; simpl.
  - exists []. by rewrite app_nil_r.
  - destruct (IH (settle env filePath st t)) as (l' & -> & Hl').
    unfold settle. destruct (t_promise t) as [[v|e]|]; simpl.
    + eexists. rewrite <- app_assoc. split; [done|]. by constructor.
    + by exists l'.
    + pose proof (resume_log_after_loops env (t_id t) (t_text t) filePath) as Hr.
      destruct (translateToEnglish_resume env (t_id t) (t_text t) filePath) as [v log].
      simpl in *. eexists. rewrite <- !app_assoc. split; [done|].
      apply list.Forall_app. split; [done|]. by constructor.
Qed.

Lemma translate_tree_log env sched dryRun filePath root :
  ∃ l', (translate_tree env sched dryRun filePath root).2 =
          (collect env dryRun filePath root).2 ++ l' ∧ Forall after_loops l'.
Proof.
  unfold translate_tree, await_all.
  destruct (collect env dryRun filePath root) as [tasks log]. simpl.
  destruct (first_rejection tasks); simpl; [by exists []|].
  destruct (foldl_settle_log env filePath (settle_order sched tasks) (root, []))
    as (l' & -> & Hl'). by exists l'.
Qed.

(** The log of [transform] on a file that parses: the loops, then what
    follows them. *)
Lemma transform_log_split env sched fileInfo api dryRun root :
  parse env api (source fileInfo) = Normal root →
  ∃ l', (transform env sched fileInfo api dryRun).2 =
          (collect env dryRun (path_of fileInfo) root).2 ++ l' ∧ Forall after_loops l'.
Proof.
  intros Hparse. unfold transform, transform_try. rewrite Hparse.
  destruct (translate_tree_log env sched dryRun (path_of fileInfo) root) as (l' & Hl & Hq).
  destruct (translate_tree env sched dryRun (path_of fileInfo) root) as [[final|e] log].
  - simpl in Hl. subst log. destruct (toSource env final) as [output|e]; simpl.
    + by exists l'.
    + eexists. rewrite <- app_assoc. split; [done|].
      apply list.Forall_app. split; [done|]. by repeat constructor.
  - simpl in Hl. subst log. simpl. eexists. rewrite <- app_assoc. split; [done|].
    apply list.Forall_app. split; [done|]. by repeat constructor.
Qed.

Lemma after_loops_finds l : Forall after_loops l → finds l = [].
Proof. induction 1 as [|e l He _ IH]; [done|]. unfold finds in *. by destruct e. Qed.

Lemma after_loops_requests l : Forall after_loops l → requests l = [].
Proof. induction 1 as [|e l He _ IH]; [done|]. unfold requests in *. by destruct e. Qed.

Lemma after_loops_reports l : Forall after_loops l → reports l = [].
Proof. induction 1 as [|e l He _ IH]; [done|]. unfold reports in *. by destruct e. Qed.

Lemma after_loops_file_writes l : Forall after_loops l → file_writes l = [].
Proof. induction 1 as [|e l He _ IH]; [done|]. unfold file_writes in *. by destruct e. Qed.

Lemma candidate_sent_text root tg text :
  candidate root tg text →
  ∃ original, original_text root tg = Some original ∧
              text = sent_text tg original ∧ embeds text original.
Proof.
  destruct tg as [a|a|a i]; simpl.
  - intros (cs & -> & _). exists text. split; [done|]. split; [done|]. apply embeds_refl.
  - intros (v & cs & -> & -> & _). exists v. split; [done|]. split; [done|]. apply trim_embeds.
  - intros (c & -> & -> & _). exists (c_value c). split; [done|]. split; [done|].
    apply trim_embeds.
Qed.

(** With a client, each call of the loops leaves its request. *)
Lemma call_all_log_client env filePath n cs :
  new_OpenAI env = Normal () →
  (call_all env false filePath n cs).2 =
    imap (λ k c, create_request (n + k) (translation_request c.2)) cs.
Proof.
  intros Hnew. revert n. induction cs as [|c cs IH]; intros n; [done|].
  cbn [call_all snd]. rewrite IH, call_log, Hnew. cbn. rewrite Nat.add_0_r. f_equal.
  apply imap_ext. intros i x _. simpl.
  by replace (n + S i)%nat with (S (n + i)) by lia.
Qed.

Lemma translation_request_user text :
  model (translation_request text) = js "gpt-4o-mini" ∧
  user_messages (translation_request text) = [text].
Proof. split; reflexivity. Qed.

(** C5, as the program has it. On every file that parses, each of the three
    node types is searched exactly once, on the tree as parsed, and no node
    is written before the third search is over; what follows the loops is
    made of writes to the tree and diagnostics of failed translations only,
    so nothing is searched or requested any more and what a translation
    wrote is never classified. The requests, however, do not wait for the
    searches to be over: in a run that is not a dry run and has its client,
    the log begins with the search for string literals, the requests for the
    qualifying literals in the order found; the search for JSX texts, the
    requests for the qualifying texts; the search for comments, the requests
    for the qualifying comments. Requests are numbered as they are issued,
    and each carries, as its only user message, the text read from the tree
    as parsed (the value of a literal, the trimmed value otherwise). *)
Theorem searches_precede_writes env sched fileInfo api dryRun root :
  parse env api (source fileInfo) = Normal root →
  let log := (transform env sched fileInfo api dryRun).2 in
  let ls := omap literal_candidate (find_StringLiteral root) in
  let ts := omap text_candidate (find_JSXText root) in
  let cs := omap comment_candidate (find_Comment root) in
  let ask := λ (n : nat) (l : list (target * jstring)),
    imap (λ k c, create_request (n + k) (translation_request c.2)) l in
  (∃ l1 l2,
     log = l1 ++ l2 ∧
     finds l1 = [FindStringLiteral; FindJSXText; FindComment] ∧
     writes l1 = [] ∧
     Forall after_loops l2) ∧
  (dryRun = false → new_OpenAI env = Normal () →
   ∃ l2,
     log =
       root_find FindStringLiteral :: ask 0%nat ls ++
       root_find FindJSXText :: ask (length ls) ts ++
       root_find FindComment :: ask (length ls + length ts)%nat cs ++ l2 ∧
     Forall after_loops l2) ∧
  (∀ text, model (translation_request text) = js "gpt-4o-mini" ∧
           user_messages (translation_request text) = [text]) ∧
  (∀ tg text, (tg, text) ∈ ls ++ ts ++ cs ↔ candidate root tg text).
Proof.
  intros Hparse log ls ts cs ask.
  destruct (transform_log_split env sched fileInfo api dryRun root Hparse)
    as (l2 & Hlog & Hl2).
  fold log in Hlog.
  split; [|split; [|split]].
  - exists (collect env dryRun (path_of fileInfo) root).2, l2.
    split; [done|]. split; [apply collect_finds|].
    split; [apply writes_none, collect_log_no_write|done].
  - intros -> Hnew. exists l2. split; [|done].
    rewrite Hlog, collect_log, !call_all_log_client by done.
    subst ask ls ts cs. cbn [app]. by repeat (rewrite <- app_assoc; cbn [app]).
  - apply translation_request_user.
  - apply elem_of_classify.
Qed.

Lemma searches_precede_writes_witness :
  let log :=
    (transform Examples.labelled_env [] Examples.labelled_file Examples.tsx false).2 in
  let ls := omap literal_candidate (find_StringLiteral Examples.labelled_call) in
  let ts := omap text_candidate (find_JSXText Examples.labelled_call) in
  let cs := omap comment_candidate (find_Comment Examples.labelled_call) in
  let ask := λ (n : nat) (l : list (target * jstring)),
    imap (λ k c, create_request (n + k) (translation_request c.2)) l in
  (∃ l1 l2,
     log = l1 ++ l2 ∧
     finds l1 = [FindStringLiteral; FindJSXText; FindComment] ∧
     writes l1 = [] ∧
     Forall after_loops l2) ∧
  (false = false → new_OpenAI Examples.labelled_env = Normal () →
   ∃ l2,
     log =
       root_find FindStringLiteral :: ask 0%nat ls ++
       root_find FindJSXText :: ask (length ls) ts ++
       root_find FindComment :: ask (length ls + length ts)%nat cs ++ l2 ∧
     Forall after_loops l2) ∧
  (∀ text, model (translation_request text) = js "gpt-4o-mini" ∧
           user_messages (translation_request text) = [text]) ∧
  (∀ tg text, (tg, text) ∈ ls ++ ts ++ cs ↔ candidate Examples.labelled_call tg text).
Proof.
  apply (searches_precede_writes Examples.labelled_env [] Examples.labelled_file
           Examples.tsx false Examples.labelled_call); reflexivity.
Defined.

Lemma request_then_search e k r ty rest :
  ¬ classified_before_requests (e :: create_request k r :: root_find ty :: rest).
Proof.
  intros (l1 & l2 & Heq & H1 & H2). destruct l1 as [|x [|y l1]]; simplify_eq/=.
  - rewrite !list.Forall_cons in H2. by destruct H2 as (_ & _ & ? & _).
  - rewrite !list.Forall_cons in H2. by destruct H2 as (_ & ? & _).
  - rewrite !list.Forall_cons in H1. by destruct H1 as (_ & ? & _).
Qed.

(** C5, as stated, fails: in a run on [src/App.tsx] holding
    [showError(/* label */ "エラー"); // あ] the request for the string
    literal is issued before JSX texts and comments have been searched, so
    the searches do not all precede the requests. *)
Lemma request_before_classification_is_complete :
  (transform Examples.labelled_env [] Examples.labelled_file Examples.tsx false).2 =
    [ root_find FindStringLiteral;
      create_request 0 (translation_request Examples.era);
      root_find FindJSXText;
      root_find FindComment;
      create_request 1 (translation_request Examples.hiragana_a);
      tree_write (ReplaceWith [0; 0; 1]%nat (StringLiteral (js "Hello") []));
      tree_write (AssignCommentValue [0]%nat 0 (js " Hello ")) ] ∧
  ¬ classified_before_requests
      (transform Examples.labelled_env [] Examples.labelled_file Examples.tsx false).2.
Proof.
  assert ((transform Examples.labelled_env [] Examples.labelled_file Examples.tsx false).2 =
    [ root_find FindStringLiteral;
      create_request 0 (translation_request Examples.era);
      root_find FindJSXText;
      root_find FindComment;
      create_request 1 (translation_request Examples.hiragana_a);
      tree_write (ReplaceWith [0; 0; 1]%nat (StringLiteral (js "Hello") []));
      tree_write (AssignCommentValue [0]%nat 0 (js " Hello ")) ]) as Hlog.
  { vm_compute. reflexivity. }
  split; [done|]. rewrite Hlog. apply request_then_search.
Qed.

(** The order of the comment loop on [// あ1] above
    [foo(/* あ2 */ x, /* あ3 */ y); // あ4]: the comments of the arguments are
    met, and their requests issued, before those of the statement around
    them. *)
Lemma inner_comments_are_requested_first :
  requests
    (transform (Examples.env_of Examples.numbered_comments Examples.says_hello) []
       (mkFileInfo Examples.app_tsx (js "source text")) Examples.tsx false).2 =
    [ (0%nat, translation_request (Examples.a_numbered 0x32));
      (1%nat, translation_request (Examples.a_numbered 0x33));
      (2%nat, translation_request (Examples.a_numbered 0x31));
      (3%nat, translation_request (Examples.a_numbered 0x34)) ].
Proof. vm_compute. reflexivity. Qed.

(** ** Dry run *)

Lemma embeds_embedsb (s t : jstring) : embeds s t → embedsb s t = true.
Proof.
  intros (pre & post & ->). unfold embedsb. apply existsb_exists.
  exists (length pre). split.
  - apply in_seq. rewrite !length_app. lia.
  - apply bool_decide_eq_true. rewrite drop_app_length. by rewrite take_app_length.
Qed.

Lemma dry_run_marker_embeds text : embeds text (dry_run_marker text).
Proof.
  exists (js "[DRYRUN] Would translate: " ++ dquote), dquote.
  unfold dry_run_marker. by rewrite <- !app_assoc.
Qed.

Lemma dry_run_report_embeds text fileName :
  embeds text (dry_run_report text fileName) ∧
  embeds fileName (dry_run_report text fileName).
Proof.
  unfold dry_run_report. split.
  - exists (js "File: " ++ fileName ++ js ", Would translate: " ++ dquote), dquote.
    by rewrite <- !app_assoc.
  - exists (js "File: "), (js ", Would translate: " ++ dquote ++ text ++ dquote). done.
Qed.

(** In dry-run mode the call returns at once: a report line, no request. *)
Lemma translateToEnglish_dry_run env k text fileName :
  translateToEnglish env k text true fileName =
    (Normal (dry_run_marker text), [console_log (dry_run_report text fileName)]).
Proof. reflexivity. Qed.

Lemma transform_dry_run_log env sched fileInfo api :
  file_writes (transform env sched fileInfo api true).2 = [] ∧
  requests (transform env sched fileInfo api true).2 = [].
Proof.
  unfold transform, transform_try.
  destruct (parse env api (source fileInfo)) as [root|e] eqn:Hparse; [|done].
  destruct (translate_tree_log env sched true (path_of fileInfo) root) as (l' & Hl & Hq).
  assert (file_writes (translate_tree env sched true (path_of fileInfo) root).2 = [] ∧
          requests (translate_tree env sched true (path_of fileInfo) root).2 = []) as [Hw Hr].
  { rewrite Hl, file_writes_app, requests_app, collect_file_writes, collect_requests.
    by rewrite after_loops_file_writes, after_loops_requests. }
  destruct (translate_tree env sched true (path_of fileInfo) root) as [[final|e] log];
    simpl in *.
  - destruct (toSource env final); simpl; [done|].
    by rewrite file_writes_app, requests_app, Hw, Hr.
  - by rewrite file_writes_app, requests_app, Hw, Hr.
Qed.

(** A dry run of [processFile] writes no file and sends no request. *)
Lemma processFile_dry_run_no_write env sched file :
  file_writes (processFile env sched file true) = [] ∧
  requests (processFile env sched file true) = [].
Proof.
  unfold processFile. destruct (readFile env file) as [src|e]; [|done].
  pose proof (transform_dry_run_log env sched (mkFileInfo file src) (parser_for file)) as H.
  destruct (transform env sched (mkFileInfo file src) (parser_for file) true) as [output log].
  simpl in *. done.
Qed.

(** The report of a dry run: one line per candidate of the parsed tree. *)
Lemma processFile_dry_run_reports env sched file src root :
  readFile env file = Normal src →
  parse env (parser_for file) src = Normal root →
  reports (processFile env sched file true) =
    (λ c, dry_run_report c.2 file) <$> classify root.
Proof.
  intros Hread Hparse. unfold processFile. rewrite Hread.
  destruct (transform_log_split env sched (mkFileInfo file src) (parser_for file) true root
              Hparse) as (l' & Hlog & Hq).
  destruct (transform env sched (mkFileInfo file src) (parser_for file) true) as [output log].
  simpl in *. subst log.
  change (fs_readFile file :: ?l) with ([fs_readFile file] ++ l).
  rewrite !reports_app, collect_reports, (after_loops_reports l') by done.
  by rewrite app_nil_r.
Qed.

(** C8, as the program has it. In dry-run mode [translateToEnglish] makes no
    request; it logs one report line, which quotes the text and the file
    name, and returns a marker that quotes the text (the file name is in the
    report line only). [processFile] writes no file and sends no request.
    The report of a file that is read and parsed has exactly one line per
    candidate node, in order, and the text quoted there is found in the
    node's original text: it is the value of a string literal and the
    trimmed text of a JSX text or comment. *)
Theorem dry_run_reports_candidates env sched file src root :
  readFile env file = Normal src →
  parse env (parser_for file) src = Normal root →
  (∀ k text fileName,
     translateToEnglish env k text true fileName =
       (Normal (dry_run_marker text), [console_log (dry_run_report text fileName)]) ∧
     embeds text (dry_run_marker text) ∧
     embeds text (dry_run_report text fileName) ∧
     embeds fileName (dry_run_report text fileName)) ∧
  file_writes (processFile env sched file true) = [] ∧
  requests (processFile env sched file true) = [] ∧
  reports (processFile env sched file true) =
    (λ c, dry_run_report c.2 file) <$> classify root ∧
  (∀ tg text, (tg, text) ∈ classify root ↔ candidate root tg text) ∧
  (∀ tg text, (tg, text) ∈ classify root →
     ∃ original, original_text root tg = Some original ∧
                 text = sent_text tg original ∧ embeds text original).
Proof.
  intros Hread Hparse. split.
  { intros k text fileName. split; [apply translateToEnglish_dry_run|].
    split; [apply dry_run_marker_embeds|apply dry_run_report_embeds]. }
  split; [apply processFile_dry_run_no_write|].
  split; [apply processFile_dry_run_no_write|].
  split; [by eapply processFile_dry_run_reports|].
  split; [intros; apply elem_of_classify|].
  intros tg text Hin. by apply candidate_sent_text, elem_of_classify.
Qed.

Lemma dry_run_reports_candidates_witness :
  (∀ k text fileName,
     translateToEnglish Examples.labelled_env k text true fileName =
       (Normal (dry_run_marker text), [console_log (dry_run_report text fileName)]) ∧
     embeds text (dry_run_marker text) ∧
     embeds text (dry_run_report text fileName) ∧
     embeds fileName (dry_run_report text fileName)) ∧
  file_writes (processFile Examples.labelled_env [] Examples.app_tsx true) = [] ∧
  requests (processFile Examples.labelled_env [] Examples.app_tsx true) = [] ∧
  reports (processFile Examples.labelled_env [] Examples.app_tsx true) =
    (λ c, dry_run_report c.2 Examples.app_tsx) <$> classify Examples.labelled_call ∧
  (∀ tg text, (tg, text) ∈ classify Examples.labelled_call ↔
              candidate Examples.labelled_call tg text) ∧
  (∀ tg text, (tg, text) ∈ classify Examples.labelled_call →
     ∃ original, original_text Examples.labelled_call tg = Some original ∧
                 text = sent_text tg original ∧ embeds text original).
Proof.
  apply (dry_run_reports_candidates Examples.labelled_env [] Examples.app_tsx
           (js "source text") Examples.labelled_call); reflexivity.
Defined.

(** C8, as stated, fails: the marker [translateToEnglish] returns in dry-run
    mode for the text あ of the file [src/App.tsx] quotes the text but says
    nothing of the file. *)
Lemma dry_run_marker_omits_context :
  (translateToEnglish Examples.labelled_env 0 Examples.hiragana_a true Examples.app_tsx).1 =
    Normal (js "[DRYRUN] Would translate: " ++ dquote ++ Examples.hiragana_a ++ dquote) ∧
  ¬ embeds Examples.app_tsx
      (js "[DRYRUN] Would translate: " ++ dquote ++ Examples.hiragana_a ++ dquote).
Proof.
  split; [reflexivity|]. intros H%embeds_embedsb. vm_compute in H. discriminate.
Qed.

(** ** Successful translation *)

Lemma translateToEnglish_success env k text fileName content rest :
  new_OpenAI env = Normal () →
  chat_completions_create env k (translation_request text) = Normal (Some content :: rest) →
  translateToEnglish env k text false fileName =
    (Normal (trim content), [create_request k (translation_request text)]).
Proof.
  intros Hnew Hanswer. unfold translateToEnglish, translateToEnglish_call.
  by rewrite Hnew, (resume_success _ _ _ _ _ _ Hanswer).
Qed.




(** ** Looking into the tree after the writes *)

Lemma node_at_alter_at f a r : node_at a (alter_at f a r) = f <$> node_at a r.
Proof.
  revert r. induction a as [|i a IH]; intros r; [done|].
  destruct r as [v cs|v cs|ty cs ch]; [done..|].
  cbn [alter_at node_at children_of]. rewrite list_lookup_alter_eq.
  destruct (ch !! i) as [c|]; [|done]. simpl. apply IH.
Qed.

Lemma children_of_rewrite d n : children_of (rewrite d n) = rewrite_from d 0 (children_of n).
Proof.
  destruct n as [v cs|v cs|ty cs ch]; simpl; [| |done].
  - by destruct (d (AtNode [])).
  - by destruct (d (AtNode [])).
Qed.

Lemma length_rewrite_from d i l : length (rewrite_from d i l) = length l.
Proof. revert i. induction l as [|c l IH]; intros i; simpl; [done|]. by rewrite IH. Qed.

(** The node at a position of the rewritten tree is the rewritten node of
    that position, under the decisions that lie below it. *)
Lemma node_at_rewrite a : ∀ d n,
  node_at a (rewrite d n) = rewrite (λ p, d (under_addr a p)) <$> node_at a n.
Proof.
  induction a as [|i a IH]; intros d n; [done|].
  cbn [node_at]. rewrite children_of_rewrite, rewrite_from_lookup.
  destruct (children_of n !! i) as [c|]; [|done]. simpl. by rewrite IH.
Qed.

Lemma candidate_index root tg text :
  candidate root tg text → ∃ k, classify root !! k = Some (tg, text).
Proof. intros H. by apply list_elem_of_lookup, elem_of_classify. Qed.

(** When the backend fails, a call is fulfilled with the text it was given. *)
Lemma translated_failure env k text filePath :
  backend_always_fails env → translated env k text false filePath = text.
Proof.
  intros Hfail. destruct (Hfail k (translation_request text)) as [e He].
  unfold translated, translateToEnglish, translateToEnglish_call.
  destruct (new_OpenAI env); [|done]. by rewrite (resume_failure _ _ _ _ _ He).
Qed.

Lemma first_unit_app_l (s t : jstring) u : first_unit s = Some u → first_unit (s ++ t) = Some u.
Proof. by destruct s. Qed.

Lemma last_unit_app_r (s t : jstring) u : last_unit t = Some u → last_unit (s ++ t) = Some u.
Proof. unfold last_unit. rewrite reverse_app. apply first_unit_app_l. Qed.

Lemma tight_trim (s : jstring) : tight (trim s).
Proof. intros u [H|H]; [by eapply trim_first|by eapply trim_last]. Qed.

Lemma tight_marker text : tight (dry_run_marker text).
Proof.
  intros u [H|H].
  - unfold dry_run_marker in H. simpl in H. by injection H as <-.
  - unfold dry_run_marker in H. rewrite !app_assoc in H.
    rewrite (last_unit_app_r _ dquote 34) in H by done. by injection H as <-.
Qed.

(** What a call for a trimmed text is fulfilled with has no white space at
    its ends: it is the marker, the trimmed answer, or the text itself. *)
Lemma tight_translated env k v dryRun filePath :
  tight (translated env k (trim v) dryRun filePath).
Proof.
  unfold translated, translateToEnglish, translateToEnglish_call.
  destruct dryRun; [apply tight_marker|].
  destruct (new_OpenAI env); [|apply tight_trim].
  unfold translateToEnglish_resume.
  destruct (chat_completions_create _ _ _) as [[|[content|] rest]|e]; simpl;
    apply tight_trim.
Qed.

(** The tree at the barrier, position by position. *)
Lemma final_node_at env sched dryRun filePath root :
  dryRun = true ∨ new_OpenAI env = Normal () →
  ∃ final log,
    translate_tree env sched dryRun filePath root = (Normal final, log) ∧
    ∀ a, node_at a final =
           rewrite (λ p, decided env dryRun filePath root (under_addr a p)) <$> node_at a root.
Proof.
  intros H. destruct (translate_tree_final env sched dryRun filePath root H) as (log & Htree & _).
  eexists _, log. split; [done|]. intros a. apply node_at_rewrite.
Qed.

Lemma comment_at_assign a i v r c :
  comment_at a i r = Some c →
  comment_at a i (apply_write (AssignCommentValue a i v) r) =
    Some {| c_type := c_type c; c_value := v |}.
Proof.
  unfold comment_at. simpl. rewrite node_at_alter_at.
  destruct (node_at a r) as [m|]; [|done]. simpl. intros Hc.
  destruct m; simpl in *; by rewrite list_lookup_alter_eq, Hc.
Qed.

(** ** Shape of the write-back *)

(** C6. The write made for a candidate depends on its kind. For a string
    literal the node is replaced by a literal whose value is the translated
    text. For a JSX text the node is replaced by a text node whose value is
    the translated text between one space and one space. For a comment the
    value of the comment, and nothing else of it, so not its line or block
    type, is set to the translated text between one space and one space. The
    translated text of a JSX text or comment has no white space of its own
    at its ends. The literal and the text node are found in the tree at the
    barrier; so is the comment, unless the node that carries it was itself
    replaced. *)
Theorem write_back_shape env sched fileInfo api dryRun root k tg text :
  parse env api (source fileInfo) = Normal root →
  dryRun = true ∨ new_OpenAI env = Normal () →
  classify root !! k = Some (tg, text) →
  let t := translated env k text dryRun (path_of fileInfo) in
  callback tg t ∈ writes (transform env sched fileInfo api dryRun).2 ∧
  ∃ final log,
    translate_tree env sched dryRun (path_of fileInfo) root = (Normal final, log) ∧
    match tg with
    | LiteralNode a =>
        callback tg t = ReplaceWith a (StringLiteral t []) ∧
        node_at a final = Some (StringLiteral t [])
    | TextNode a =>
        callback tg t = ReplaceWith a (JSXText (js " " ++ t ++ js " ") []) ∧
        node_at a final = Some (JSXText (js " " ++ t ++ js " ") []) ∧
        tight t
    | CommentNode a i =>
        callback tg t = AssignCommentValue a i (js " " ++ t ++ js " ") ∧
        (∀ r c, comment_at a i r = Some c →
                comment_at a i (apply_write (callback tg t) r) =
                  Some {| c_type := c_type c; c_value := js " " ++ t ++ js " " |}) ∧
        (∀ c, comment_at a i root = Some c → ¬ is_candidate root (AtNode a) →
              comment_at a i final =
                Some {| c_type := c_type c; c_value := js " " ++ t ++ js " " |}) ∧
        tight t
    end.
Proof.
  intros Hparse H Hk t. split.
  { rewrite (transform_writes_results env sched fileInfo api dryRun root Hparse H).
    apply elem_of_lookup_imap. by exists k, (tg, text). }
  destruct (final_node_at env sched dryRun (path_of fileInfo) root H) as (final & log & Htree & Hat).
  exists final, log. split; [done|].
  pose proof (decided_candidate env dryRun (path_of fileInfo) root k tg text Hk) as Hd.
  fold t in Hd.
  assert (candidate root tg text) as Hc.
  { apply elem_of_classify, list_elem_of_lookup. eauto. }
  destruct tg as [a|a|a i]; simpl in Hc, Hd.
  - destruct Hc as (cs & Hroot & _). split; [done|].
    rewrite Hat, Hroot. simpl. by rewrite under_addr_node, Hd.
  - destruct Hc as (v & cs & Hroot & -> & _). split; [done|]. split.
    + rewrite Hat, Hroot. simpl. by rewrite under_addr_node, Hd.
    + apply tight_translated.
  - destruct Hc as (c & Hroot & -> & _). split; [done|]. split; [|split].
    + intros r c' Hc'. simpl. by apply comment_at_assign.
    + intros c' Hc' Hnode. assert (c' = c) as -> by congruence.
      unfold comment_at in *. rewrite Hat.
      destruct (node_at a root) as [m|] eqn:Hm; [|done]. simpl in *.
      pose proof (decided_other env dryRun (path_of fileInfo) root (AtNode a) Hnode) as Hn.
      destruct m as [v cs|v cs|ty cs ch]; simpl in *;
        rewrite ?under_addr_node, ?Hn; simpl;
        unfold rewrite_comments; rewrite list_lookup_imap, Hroot; simpl;
        by rewrite under_addr_comment, Hd.
    + apply tight_translated.
Qed.

Lemma write_back_shape_witness :
  let t := translated Examples.labelled_env 1 (trim (js " " ++ Examples.hiragana_a))
             false (path_of Examples.labelled_file) in
  callback (CommentNode [0%nat] 0) t ∈
    writes (transform Examples.labelled_env [] Examples.labelled_file Examples.tsx false).2 ∧
  ∃ final log,
    translate_tree Examples.labelled_env [] false (path_of Examples.labelled_file)
      Examples.labelled_call = (Normal final, log) ∧
    callback (CommentNode [0%nat] 0) t =
      AssignCommentValue [0%nat] 0 (js " " ++ t ++ js " ") ∧
    (∀ r c, comment_at [0%nat] 0 r = Some c →
            comment_at [0%nat] 0 (apply_write (callback (CommentNode [0%nat] 0) t) r) =
              Some {| c_type := c_type c; c_value := js " " ++ t ++ js " " |}) ∧
    (∀ c, comment_at [0%nat] 0 Examples.labelled_call = Some c →
          ¬ is_candidate Examples.labelled_call (AtNode [0%nat]) →
          comment_at [0%nat] 0 final =
            Some {| c_type := c_type c; c_value := js " " ++ t ++ js " " |}) ∧
    tight t.
Proof.
  apply (write_back_shape Examples.labelled_env [] Examples.labelled_file Examples.tsx false
           Examples.labelled_call 1 (CommentNode [0%nat] 0)
           (trim (js " " ++ Examples.hiragana_a))).
  - reflexivity.
  - right. reflexivity.
  - reflexivity.
Defined.

(** ** The tree at the barrier, described *)

(** Position by position: a decided literal or JSX text is the node its
    callback built, every other node is the node that was parsed; and on a
    node that was not replaced, a decided comment has the value its callback
    assigned and every other comment is the comment that was parsed. *)
Lemma final_tree_described env sched dryRun filePath root :
  dryRun = true ∨ new_OpenAI env = Normal () →
  let d := decided env dryRun filePath root in
  ∃ final log,
    translate_tree env sched dryRun filePath root = (Normal final, log) ∧
    ∀ a,
      match node_at a root with
      | None => node_at a final = None
      | Some (StringLiteral v _) =>
          ∃ cs', node_at a final = Some (StringLiteral (default v (d (AtNode a))) cs')
      | Some (JSXText v _) =>
          ∃ cs', node_at a final = Some (JSXText (from_option padded v (d (AtNode a))) cs')
      | Some (Other ty _ ch) =>
          ∃ cs' ch', node_at a final = Some (Other ty cs' ch') ∧ length ch' = length ch
      end ∧
      ∀ i c, comment_at a i root = Some c → d (AtNode a) = None →
             comment_at a i final =
               Some (from_option (λ t, assign_value (padded t) c) c (d (AtComment a i))).
Proof.
  intros H d.
  destruct (final_node_at env sched dryRun filePath root H) as (final & log & Htree & Hat).
  fold d in Hat. exists final, log. split; [done|]. intros a. split.
  - rewrite Hat. destruct (node_at a root) as [[v cs|v cs|ty cs ch]|] eqn:Hroot;
      cbn [fmap option_fmap option_map].
    + cbn [rewrite]. rewrite under_addr_node. destruct (d (AtNode a)); simpl; eauto.
    + cbn [rewrite]. rewrite under_addr_node. destruct (d (AtNode a)); simpl; eauto.
    + rewrite rewrite_Other. eexists _, _. split; [done|]. apply length_rewrite_from.
    + done.
  - intros i c Hc Hn. unfold comment_at in *. rewrite Hat.
    destruct (node_at a root) as [m|] eqn:Hroot; [|done]. simpl in Hc.
    assert (rewrite_comments (λ p, d (under_addr a p)) (comments_of m) !! i =
            Some (from_option (λ t, assign_value (padded t) c) c (d (AtComment a i)))) as Hrc.
    { unfold rewrite_comments. rewrite list_lookup_imap, Hc. simpl.
      rewrite under_addr_comment. by destruct (d (AtComment a i)). }
    destruct m as [v cs|v cs|ty cs ch]; simpl in *; rewrite ?under_addr_node, ?Hn; done.
Qed.

(** The tree at the barrier does not depend on the order of the answers. *)
Lemma translate_tree_any_schedule env sched sched' dryRun filePath root :
  dryRun = true ∨ new_OpenAI env = Normal () →
  (translate_tree env sched dryRun filePath root).1 =
    (translate_tree env sched' dryRun filePath root).1.
Proof.
  intros H.
  destruct (translate_tree_final env sched dryRun filePath root H) as (log & -> & _).
  by destruct (translate_tree_final env sched' dryRun filePath root H) as (log' & -> & _).
Qed.

(** What is no candidate and does not hang on a replaced node is as it was
    parsed. *)
Lemma non_candidates_untouched env sched dryRun filePath root :
  dryRun = true ∨ new_OpenAI env = Normal () →
  ∃ final log,
    translate_tree env sched dryRun filePath root = (Normal final, log) ∧
    ∀ a, ¬ is_candidate root (AtNode a) →
      match node_at a root with
      | None => node_at a final = None
      | Some (StringLiteral v _) => ∃ cs', node_at a final = Some (StringLiteral v cs')
      | Some (JSXText v _) => ∃ cs', node_at a final = Some (JSXText v cs')
      | Some (Other ty _ ch) =>
          ∃ cs' ch', node_at a final = Some (Other ty cs' ch') ∧ length ch' = length ch
      end ∧
      ∀ i c, comment_at a i root = Some c → ¬ is_candidate root (AtComment a i) →
             comment_at a i final = Some c.
Proof.
  intros H.
  destruct (final_tree_described env sched dryRun filePath root H)
    as (final & log & Htree & Hat).
  exists final, log. split; [done|]. intros a Hnode.
  destruct (Hat a) as [Hn Hc].
  pose proof (decided_other env dryRun filePath root (AtNode a) Hnode) as Hd.
  split.
  - rewrite Hd in Hn. by destruct (node_at a root) as [[v cs|v cs|ty cs ch]|].
  - intros i c Hic Hcand. rewrite (Hc i c Hic Hd).
    by rewrite (decided_other env dryRun filePath root (AtComment a i) Hcand).
Qed.

Lemma schedule_nil {A} (sched : list nat) : schedule sched ([] : list A) = [].
Proof. apply Permutation_nil_r, schedule_Permutation. Qed.

(** Whenever the barrier is passed, the tree is the parsed tree with the
    decisions of the run: no other tree ever reaches the printer. *)
Lemma translate_tree_rewrite env sched dryRun filePath root final log :
  translate_tree env sched dryRun filePath root = (Normal final, log) →
  final = rewrite (decided env dryRun filePath root) root.
Proof.
  intros Htree.
  assert (dryRun = true ∨ new_OpenAI env = Normal () ∨
          ∃ e, dryRun = false ∧ new_OpenAI env = Throw e) as [H|[H|(e & -> & Hnew)]].
  { destruct dryRun; [by left|]. right.
    destruct (new_OpenAI env) as [[]|e]; [by left|right; eauto]. }
  - destruct (translate_tree_final env sched dryRun filePath root (or_introl H))
      as (log' & Htree' & _). congruence.
  - destruct (translate_tree_final env sched dryRun filePath root (or_intror H))
      as (log' & Htree' & _). congruence.
  - destruct (classify root) as [|c cs] eqn:Hcs.
    + unfold decided, results. rewrite Hcs. simpl.
      change (decide_all no_decision []) with no_decision. rewrite rewrite_no_decision.
      unfold translate_tree, await_all in Htree.
      pose proof (collect_tasks env false filePath root) as Htasks.
      rewrite Hcs in Htasks. simpl in Htasks.
      destruct (collect env false filePath root) as [tasks log1]. simpl in Htasks.
      subst tasks. simpl in Htree. unfold settle_order in Htree.
      rewrite !filter_nil, schedule_nil in Htree. simpl in Htree. congruence.
    + rewrite (translate_tree_throws env sched false filePath root e) in Htree;
        [done|done|done|by rewrite Hcs].
Qed.

(** The output of [transform] is the source text, or the rendering of the
    parsed tree with all the decisions of the run; never anything between. *)
Lemma transform_output env sched fileInfo api dryRun :
  (transform env sched fileInfo api dryRun).1 = source fileInfo ∨
  ∃ root,
    parse env api (source fileInfo) = Normal root ∧
    toSource env (rewrite (decided env dryRun (path_of fileInfo) root) root) =
      Normal (transform env sched fileInfo api dryRun).1.
Proof.
  unfold transform, transform_try.
  destruct (parse env api (source fileInfo)) as [root|e] eqn:Hparse; [|by left].
  destruct (translate_tree env sched dryRun (path_of fileInfo) root)
    as [[final|e] log] eqn:Htree; [|by left].
  apply translate_tree_rewrite in Htree as ->.
  destruct (toSource env _) as [output|e] eqn:Hprint; [|by left].
  right. by exists root.
Qed.

(** A replaced node has no comments any more, whatever they were. *)
Lemma replaced_node_loses_comments env sched dryRun filePath root a :
  dryRun = true ∨ new_OpenAI env = Normal () →
  is_candidate root (AtNode a) →
  ∃ final log,
    translate_tree env sched dryRun filePath root = (Normal final, log) ∧
    ∀ i, comment_at a i final = None.
Proof.
  intros H Hcand.
  destruct (final_node_at env sched dryRun filePath root H) as (final & log & Htree & Hat).
  exists final, log. split; [done|]. intros i.
  apply is_candidate_candidate in Hcand as (tg & text & Htg & Hc).
  destruct (candidate_index root tg text Hc) as [k Hk].
  pose proof (decided_candidate env dryRun filePath root k tg text Hk) as Hd.
  rewrite Htg in Hd. unfold comment_at. rewrite Hat.
  destruct tg as [b|b|b j]; simpl in Htg, Hc; [| |done]; injection Htg as ->.
  - destruct Hc as (cs & -> & _). simpl. by rewrite under_addr_node, Hd.
  - destruct Hc as (v & cs & -> & _). simpl. by rewrite under_addr_node, Hd.
Qed.

(** ** When every translation fails *)

Lemma decided_failure env filePath root tg text :
  backend_always_fails env → candidate root tg text →
  decided env false filePath root (target_path tg) = Some text.
Proof.
  intros Hfail Hc. destruct (candidate_index root tg text Hc) as [k Hk].
  rewrite (decided_candidate env false filePath root k tg text Hk).
  by rewrite translated_failure.
Qed.

(** What does hold when every call to the backend fails: the tree at the
    barrier has the nodes of the parsed tree at the same positions and of the
    same types; every string literal has the value it had; a JSX text or
    comment that is no candidate has the text it had; and a candidate JSX
    text or comment has its original text trimmed and put between one space
    and one space. The comments of a node that was replaced are gone
    ([replaced_node_loses_comments]). *)
Lemma failed_translations_keep_text env sched filePath root :
  new_OpenAI env = Normal () →
  backend_always_fails env →
  ∃ final log,
    translate_tree env sched false filePath root = (Normal final, log) ∧
    ∀ a,
      match node_at a root with
      | None => node_at a final = None
      | Some (StringLiteral v _) => ∃ cs', node_at a final = Some (StringLiteral v cs')
      | Some (JSXText v _) =>
          ∃ cs', node_at a final =
                   Some (JSXText (if containsJapanese (trim v)
                                  then js " " ++ trim v ++ js " " else v) cs')
      | Some (Other ty _ ch) =>
          ∃ cs' ch', node_at a final = Some (Other ty cs' ch') ∧ length ch' = length ch
      end ∧
      ∀ i c, comment_at a i root = Some c → ¬ is_candidate root (AtNode a) →
             comment_at a i final =
               Some (if containsJapanese (trim (c_value c))
                     then {| c_type := c_type c;
                             c_value := js " " ++ trim (c_value c) ++ js " " |}
                     else c).
Proof.
  intros Hnew Hfail.
  destruct (final_tree_described env sched false filePath root (or_intror Hnew))
    as (final & log & Htree & Hat).
  exists final, log. split; [done|]. intros a. destruct (Hat a) as [Hn Hc]. split.
  - destruct (node_at a root) as [[v cs|v cs|ty cs ch]|] eqn:Hroot; [| |done..].
    + destruct (containsJapanese v) eqn:Hj.
      * pose proof (decided_failure env filePath root (LiteralNode a) v Hfail) as Hd.
        simpl in Hd. rewrite Hd in Hn by eauto. done.
      * rewrite decided_other in Hn by (simpl; rewrite Hroot; congruence). done.
    + destruct (containsJapanese (trim v)) eqn:Hj.
      * pose proof (decided_failure env filePath root (TextNode a) (trim v) Hfail) as Hd.
        simpl in Hd. rewrite Hd in Hn by eauto 6. done.
      * rewrite decided_other in Hn by (simpl; rewrite Hroot; congruence). done.
  - intros i c Hic Hnode.
    rewrite (Hc i c Hic (decided_other env false filePath root (AtNode a) Hnode)).
    destruct (containsJapanese (trim (c_value c))) eqn:Hj.
    + pose proof (decided_failure env filePath root (CommentNode a i)
                    (trim (c_value c)) Hfail) as Hd.
      simpl in Hd. rewrite Hd; [done|]. eauto.
    + rewrite decided_other; [done|]. simpl. rewrite Hic. congruence.
Qed.

(** C2 at [<p>こんにちは</p>] and at
    [showError(/* label */ "エラー"); // あ], with a backend whose every call
    fails and whatever the order of the failures. The JSX text こんにちは is
    written back with a space before and a space after it; the comment [ あ]
    is written back as [ あ ]; and the comment [ label ], which the literal
    エラー carried, is gone, the literal having been replaced by a new one of
    the same value. The tree is not the tree that was parsed, and the text
    printed differs from what an untouched tree gives. *)
Theorem failed_run_changes_the_tree (sched : list nat) :
  backend_always_fails Examples.paragraph_env_failing ∧
  backend_always_fails Examples.labelled_env_failing ∧
  (∃ log,
     translate_tree Examples.paragraph_env_failing sched false Examples.app_jsx
       Examples.paragraph =
       (Normal
          (Other "File" []
             [Other "JSXElement" []
                [JSXText (js " " ++ Examples.konnichiwa ++ js " ") []]]), log) ∧
     (transform Examples.paragraph_env_failing sched Examples.paragraph_file None false).1 =
       js " " ++ Examples.konnichiwa ++ js " " ∧
     Examples.render Examples.paragraph = Examples.konnichiwa) ∧
  (∃ log,
     translate_tree Examples.labelled_env_failing sched false Examples.app_tsx
       Examples.labelled_call =
       (Normal
          (Other "File" []
             [Other "ExpressionStatement"
                [mkComment CommentLine (js " " ++ Examples.hiragana_a ++ js " ")]
                [Other "CallExpression" []
                   [Other "Identifier showError" [] [];
                    StringLiteral Examples.era []]]]), log) ∧
     comment_at [0; 0; 1]%nat 0 Examples.labelled_call =
       Some (mkComment CommentBlock (js " label ")) ∧
     comment_at [0]%nat 0 Examples.labelled_call =
       Some (mkComment CommentLine (js " " ++ Examples.hiragana_a))).
Proof.
  assert (∀ root, backend_always_fails (Examples.env_of root Examples.always_fails))
    as Hfail.
  { intros root k req. exists Examples.timed_out. simpl. constructor. }
  split; [apply Hfail|]. split; [apply Hfail|]. split.
  - destruct (translate_tree_final Examples.paragraph_env_failing sched false
                Examples.app_jsx Examples.paragraph (or_intror eq_refl))
      as (log & Htree & _ & _).
    assert (rewrite (decided Examples.paragraph_env_failing false Examples.app_jsx
                       Examples.paragraph) Examples.paragraph =
            Other "File" []
              [Other "JSXElement" []
                 [JSXText (js " " ++ Examples.konnichiwa ++ js " ") []]]) as Hfinal
      by (vm_compute; reflexivity).
    rewrite Hfinal in Htree. exists log. split; [done|]. split; [|reflexivity].
    destruct (transform_log Examples.paragraph_env_failing sched Examples.paragraph_file
                None false Examples.paragraph _ log eq_refl Htree)
      as [[_ [e He]]|(output & Hout & ->)]; [discriminate|].
    by injection Hout as <-.
  - destruct (translate_tree_final Examples.labelled_env_failing sched false
                Examples.app_tsx Examples.labelled_call (or_intror eq_refl))
      as (log & Htree & _ & _).
    assert (rewrite (decided Examples.labelled_env_failing false Examples.app_tsx
                       Examples.labelled_call) Examples.labelled_call =
            Other "File" []
              [Other "ExpressionStatement"
                 [mkComment CommentLine (js " " ++ Examples.hiragana_a ++ js " ")]
                 [Other "CallExpression" []
                    [Other "Identifier showError" [] [];
                     StringLiteral Examples.era []]]]) as Hfinal
      by (vm_compute; reflexivity).
    rewrite Hfinal in Htree. exists log. split; [done|]. split; reflexivity.
Qed.

(** ** Comments of a replaced node *)

(** C1 at [showError(/* ラベル */ "エラー");] in [src/App.tsx], whatever the
    order in which the backend answers. The literal and the comment attached
    to it are both candidates; a request is sent for each, the one for the
    comment is answered with [Label], and the callback of the comment runs
    with that result. Yet the tree handed to the printer has no comment: the
    literal that carried it was replaced by a literal built from [Error]
    alone. The result of the comment's task is dropped, and the text printed
    holds the translated literal only. *)
Theorem translated_comment_never_reaches_tree (sched : list nat) :
  classify Examples.annotated_call =
    [ (LiteralNode [0; 0; 1]%nat, Examples.era);
      (CommentNode [0; 0; 1]%nat 0, Examples.raberu) ] ∧
  comment_at [0; 0; 1]%nat 0 Examples.annotated_call =
    Some (mkComment CommentBlock (js " " ++ Examples.raberu ++ js " ")) ∧
  translateToEnglish Examples.annotated_env 1 Examples.raberu false Examples.app_tsx =
    (Normal (js "Label"), [create_request 1 (translation_request Examples.raberu)]) ∧
  ∃ log,
    translate_tree Examples.annotated_env sched false Examples.app_tsx
      Examples.annotated_call =
      (Normal
         (Other "File" []
            [Other "ExpressionStatement" []
               [Other "CallExpression" []
                  [Other "Identifier showError" [] [];
                   StringLiteral (js "Error") []]]]), log) ∧
    create_request 1 (translation_request Examples.raberu) ∈ log ∧
    tree_write (AssignCommentValue [0; 0; 1]%nat 0 (js " Label ")) ∈ log ∧
    transform Examples.annotated_env sched Examples.annotated_file Examples.tsx false =
      (dquote ++ js "Error" ++ dquote, log).
Proof.
  split; [reflexivity|]. split; [reflexivity|]. split; [reflexivity|].
  destruct (translate_tree_final Examples.annotated_env sched false
              Examples.app_tsx Examples.annotated_call (or_intror eq_refl))
    as (log & Htree & Hperm & _).
  assert (rewrite (decided Examples.annotated_env false Examples.app_tsx
                     Examples.annotated_call) Examples.annotated_call =
          Other "File" []
            [Other "ExpressionStatement" []
               [Other "CallExpression" []
                  [Other "Identifier showError" [] [];
                   StringLiteral (js "Error") []]]]) as Hfinal
    by (vm_compute; reflexivity).
  rewrite Hfinal in Htree. exists log. split; [done|]. split; [|split].
  - pose proof (translate_tree_log Examples.annotated_env sched false Examples.app_tsx
                  Examples.annotated_call) as (l' & Hlog & _).
    rewrite Htree in Hlog. simpl in Hlog. rewrite Hlog. do 4 right. left.
  - apply elem_of_writes. rewrite Hperm. vm_compute. right. left.
  - destruct (transform_log Examples.annotated_env sched Examples.annotated_file
                Examples.tsx false Examples.annotated_call _ log eq_refl Htree)
      as [[_ [e He]]|(output & Hout & ->)]; [discriminate|].
    by injection Hout as <-.
Qed.



(** C9 at [showError(/* label */ "エラー"); // あ] in [src/App.tsx]: the
    comment [label] has no Japanese character and is no candidate, yet after
    the run it is gone from the tree: the literal that carried it was
    replaced by a literal built from the translated text alone. *)
Lemma comment_of_replaced_literal_is_lost :
  comment_at [0; 0; 1]%nat 0 Examples.labelled_call =
    Some (mkComment CommentBlock (js " label ")) ∧
  ¬ is_candidate Examples.labelled_call (AtComment [0; 0; 1]%nat 0) ∧
  ¬ (AtComment [0; 0; 1]%nat 0 ∈
       write_target <$>
         writes
           (transform Examples.labelled_env [] Examples.labelled_file
              Examples.tsx false).2) ∧
  ∃ final log,
    translate_tree Examples.labelled_env [] false Examples.app_tsx
      Examples.labelled_call = (Normal final, log) ∧
    node_at [0; 0; 1]%nat final = Some (StringLiteral (js "Hello") []) ∧
    comment_at [0; 0; 1]%nat 0 final = None.
Proof.
  split; [reflexivity|]. split; [|split].
  - simpl. vm_compute. discriminate.
  - vm_compute. intros H. repeat (apply elem_of_cons in H as [H|H]; [discriminate|]).
    by apply elem_of_nil in H.
  - eexists _, _. split; [vm_compute; reflexivity|]. split; reflexivity.
Qed.

(* ================================================================== *)
(** * Further properties of the code *)

(** ** Reading back what was written *)

Lemma trimStart_first (s : jstring) :
  (∀ u, first_unit s = Some u → is_white_space u = false) → trimStart s = s.
Proof. destruct s as [|c s]; simpl; [done|]. intros H. by rewrite (H c). Qed.

Lemma trim_tight (t : jstring) : tight t → trim t = t.
Proof.
  intros Ht. unfold trim, trimEnd.
  rewrite (trimStart_first t) by (intros u Hu; apply Ht; by left).
  rewrite trimStart_first; [apply reverse_involutive|].
  intros u Hu. apply Ht. by right.
Qed.

Lemma trimStart_space (s : jstring) : trimStart (js " " ++ s) = trimStart s.
Proof. reflexivity. Qed.

Lemma trim_padded (t : jstring) : tight t → trim (padded t) = t.
Proof.
  intros Ht. unfold trim, trimEnd, padded. rewrite trimStart_space.
  destruct t as [|c t'] eqn:Et; [reflexivity|]. rewrite <- Et in *.
  rewrite (trimStart_app_keep t (js " ") c).
  - rewrite (trimStart_first t) by (intros u Hu; apply Ht; by left).
    rewrite reverse_app. change (reverse (js " ")) with (js " ").
    rewrite trimStart_space, trimStart_first; [apply reverse_involutive|].
    intros u Hu. apply Ht. by right.
  - rewrite (trimStart_first t) by (intros u Hu; apply Ht; by left). by rewrite Et.
Qed.

(** X1. What the callbacks of lines 79 and 91 write is read back by the
    loops of lines 75 and 86 as the translated text: trimming the value
    written for a JSX text or comment gives exactly what the call for it was
    fulfilled with, so the padding never accumulates and never hides text. *)
Theorem written_text_reads_back env k v dryRun filePath :
  let t := translated env k (trim v) dryRun filePath in
  trim (value_of (jsxText (padded t))) = t ∧
  (∀ c, trim (c_value (assign_value (padded t) c)) = t).
Proof.
  intros t. pose proof (tight_translated env k v dryRun filePath) as Ht. fold t in Ht.
  split; [|intros c]; simpl; by apply trim_padded.
Qed.

(** ** White space only *)

Lemma trimStart_white (s : jstring) :
  Forall (λ c, is_white_space c = true) s → trimStart s = [].
Proof. induction 1 as [|c s Hc _ IH]; simpl; [done|]. by rewrite Hc. Qed.

Lemma trim_white (s : jstring) : Forall (λ c, is_white_space c = true) s → trim s = [].
Proof. intros H. unfold trim, trimEnd. by rewrite (trimStart_white s H). Qed.

(** X2. Take a text that is white space only and contains the ideographic
    space U+3000, which the detector matches. As a JSX text or as a comment
    it is no candidate, because the loops test the trimmed text (lines 75-76
    and 86-87) and trimming leaves nothing of it; as a string literal it is a
    candidate, because literals are tested as they are (line 63). *)
Theorem ideographic_space_only root a b i l v cs cs' c :
  Forall (λ u, is_white_space u = true) v →
  0x3000 ∈ v →
  node_at a root = Some (JSXText v cs) →
  comment_at b i root = Some c → c_value c = v →
  node_at l root = Some (StringLiteral v cs') →
  ¬ is_candidate root (AtNode a) ∧
  ¬ is_candidate root (AtComment b i) ∧
  is_candidate root (AtNode l).
Proof.
  intros Hv Hin Ha Hb <- Hl. split; [|split]; simpl.
  - rewrite Ha, (trim_white _ Hv). done.
  - rewrite Hb, (trim_white _ Hv). done.
  - rewrite Hl. unfold containsJapanese.
    apply existsb_exists. exists 0x3000. split; [by apply list_elem_of_In|done].
Qed.

Lemma ideographic_space_only_witness :
  ¬ is_candidate
      (Other "JSXElement" [mkComment CommentLine [0x3000; 0x20]]
         [JSXText [0x3000; 0x20] []; StringLiteral [0x3000; 0x20] []])
      (AtNode [0]%nat) ∧
  ¬ is_candidate
      (Other "JSXElement" [mkComment CommentLine [0x3000; 0x20]]
         [JSXText [0x3000; 0x20] []; StringLiteral [0x3000; 0x20] []])
      (AtComment [] 0) ∧
  is_candidate
    (Other "JSXElement" [mkComment CommentLine [0x3000; 0x20]]
       [JSXText [0x3000; 0x20] []; StringLiteral [0x3000; 0x20] []])
    (AtNode [1]%nat).
Proof.
  apply (ideographic_space_only
           (Other "JSXElement" [mkComment CommentLine [0x3000; 0x20]]
              [JSXText [0x3000; 0x20] []; StringLiteral [0x3000; 0x20] []])
           [0%nat] [] 0 [1%nat] [0x3000; 0x20] [] []
           (mkComment CommentLine [0x3000; 0x20])).
  - repeat constructor.
  - apply list_elem_of_here.
  - reflexivity.
  - reflexivity.
  - reflexivity.
  - reflexivity.
Defined.

(** ** The order of the answers *)

Lemma first_rejection_None_inv tasks :
  first_rejection tasks = None → Forall (λ t, is_rejected t = false) tasks.
Proof.
  induction tasks as [|t tasks IH]; simpl; [constructor|].
  destruct (t_promise t) as [[v|e]|] eqn:E; [|done|];
    intros H; (constructor; [unfold is_rejected; by rewrite E|by apply IH]).
Qed.

Lemma await_all_any_schedule env sched sched' filePath tasks root :
  NoDup (target_path <$> (t_target <$> tasks)) →
  Forall (λ t, valid_target root (t_target t)) tasks →
  (await_all env sched filePath tasks root).1 =
    (await_all env sched' filePath tasks root).1 ∧
  (await_all env sched filePath tasks root).2 ≡ₚ
    (await_all env sched' filePath tasks root).2.
Proof.
  intros Hnd Hvalid. unfold await_all.
  destruct (first_rejection tasks) eqn:Hrej; [done|].
  apply first_rejection_None_inv in Hrej.
  assert (∀ s, Forall (λ t, is_rejected t = false) (settle_order s tasks)) as Hok.
  { intros s. by rewrite settle_order_Permutation. }
  rewrite !foldl_settle by done. simpl. split.
  - f_equal.
    set (pairs s := (λ t, (t_target t, task_result env filePath t)) <$> settle_order s tasks).
    assert (∀ s, task_write env filePath <$> settle_order s tasks =
                 (λ x, callback x.1 x.2) <$> pairs s) as Hpairs.
    { intros s. unfold pairs. by rewrite <- list_fmap_compose. }
    assert (∀ s, Forall (λ x, valid_target root x.1) (pairs s)) as Hv.
    { intros s. unfold pairs. rewrite Forall_fmap. simpl.
      by rewrite settle_order_Permutation. }
    rewrite !Hpairs. rewrite <- (rewrite_no_decision root).
    rewrite !foldl_apply_write_rewrite by done.
    apply rewrite_ext. intros q. apply decide_all_Permutation.
    + assert ((pairs sched).*1 = t_target <$> settle_order sched tasks) as ->.
      { unfold pairs. by rewrite <- list_fmap_compose. }
      by rewrite settle_order_Permutation.
    + unfold pairs. by rewrite !settle_order_Permutation.
  - by rewrite !settle_order_Permutation.
Qed.

Lemma collect_tasks_NoDup env dryRun filePath root :
  NoDup (target_path <$> (t_target <$> (collect env dryRun filePath root).1)) ∧
  Forall (λ t, valid_target root (t_target t)) (collect env dryRun filePath root).1.
Proof.
  assert (t_target <$> (collect env dryRun filePath root).1 = (classify root).*1) as Htg.
  { rewrite collect_tasks, call_all_tasks, fmap_imap. apply list_eq. intros k.
    rewrite list_lookup_imap, list_lookup_fmap. by destruct (classify root !! k). }
  split.
  - rewrite Htg. apply NoDup_classify.
  - apply list.Forall_forall. intros t Ht.
    assert (t_target t ∈ (classify root).*1) as Hin.
    { rewrite <- Htg. apply list_elem_of_fmap. eauto. }
    apply list_elem_of_fmap in Hin as ([tg text] & -> & Hin).
    pose proof (classify_valid root) as Hv. rewrite list.Forall_forall in Hv.
    by apply (Hv (tg, text)).
Qed.

Lemma translate_tree_any_order env sched sched' dryRun filePath root :
  (translate_tree env sched dryRun filePath root).1 =
    (translate_tree env sched' dryRun filePath root).1 ∧
  (translate_tree env sched dryRun filePath root).2 ≡ₚ
    (translate_tree env sched' dryRun filePath root).2.
Proof.
  unfold translate_tree.
  destruct (collect_tasks_NoDup env dryRun filePath root) as [Hnd Hv].
  destruct (collect env dryRun filePath root) as [tasks log]. simpl in Hnd, Hv.
  destruct (await_all_any_schedule env sched sched' filePath tasks root Hnd Hv) as [H1 H2].
  destruct (await_all env sched filePath tasks root) as [r l].
  destruct (await_all env sched' filePath tasks root) as [r' l'].
  simpl in *. subst r'. split; [done|]. by rewrite H2.
Qed.

(** X3. The backend may answer the requests of a file in any order (line 98
    waits for all of them): the text [transform] returns is the same for every
    order, and the events of the run are the same up to their order. *)
Theorem transform_any_order env sched sched' fileInfo api dryRun :
  (transform env sched fileInfo api dryRun).1 =
    (transform env sched' fileInfo api dryRun).1 ∧
  (transform env sched fileInfo api dryRun).2 ≡ₚ
    (transform env sched' fileInfo api dryRun).2.
Proof.
  unfold transform, transform_try.
  destruct (parse env api (source fileInfo)) as [root|e]; [|done].
  destruct (translate_tree_any_order env sched sched' dryRun (path_of fileInfo) root)
    as [H1 H2].
  destruct (translate_tree env sched dryRun (path_of fileInfo) root) as [r l].
  destruct (translate_tree env sched' dryRun (path_of fileInfo) root) as [r' l'].
  simpl in *. subst r'. destruct r as [final|e]; simpl.
  - destruct (toSource env final); simpl; [done|]. split; [done|]. by rewrite H2.
  - split; [done|]. by rewrite H2.
Qed.

(** ** Files without candidates, runs without a client *)

Lemma classify_nil root : (∀ p, ¬ is_candidate root p) → classify root = [].
Proof.
  intros H. destruct (classify root) as [|[tg text] cs] eqn:E; [done|].
  destruct (H (target_path tg)). apply classify_targets. rewrite E. csimpl. left.
Qed.

Lemma settle_order_nil sched : settle_order sched [] = [].
Proof. unfold settle_order. by rewrite !filter_nil, schedule_nil. Qed.

Lemma collect_without_candidates env dryRun filePath root :
  classify root = [] →
  collect env dryRun filePath root =
    ([], [root_find FindStringLiteral; root_find FindJSXText; root_find FindComment]).
Proof.
  intros Hnil.
  pose proof (collect_tasks env dryRun filePath root) as Ht.
  pose proof (collect_log env dryRun filePath root) as Hl. simpl in Hl.
  rewrite Hnil in Ht. unfold classify in Hnil.
  apply app_eq_nil in Hnil as [Hn1 Hn2]. apply app_eq_nil in Hn2 as [Hn2 Hn3].
  rewrite Hn1, Hn2, Hn3 in Hl. simpl in Ht, Hl.
  destruct (collect env dryRun filePath root) as [tasks log]. simpl in *. congruence.
Qed.

(** X4. A file in which nothing qualifies needs neither the client nor the
    backend: [transform] searches the three node types, sends no request,
    writes to no node, and hands the tree to the printer as it was parsed. Its
    result is the printer's rendering of that tree (not the text that was
    read), or the text that was read, with the diagnostic, when the printer
    throws. *)
Theorem transform_without_candidates env sched fileInfo api dryRun root :
  parse env api (source fileInfo) = Normal root →
  (∀ p, ¬ is_candidate root p) →
  transform env sched fileInfo api dryRun =
    match toSource env root with
    | Normal output =>
        (output, [root_find FindStringLiteral; root_find FindJSXText; root_find FindComment])
    | Throw e =>
        (source fileInfo,
         [ root_find FindStringLiteral; root_find FindJSXText; root_find FindComment;
           console_error (failed_to_process (path_of fileInfo) e) None ])
    end.
Proof.
  intros Hparse Hnone. apply classify_nil in Hnone.
  unfold transform, transform_try, translate_tree, await_all.
  rewrite Hparse, (collect_without_candidates _ _ _ _ Hnone). simpl.
  rewrite settle_order_nil. simpl. by destruct (toSource env root).
Qed.

Lemma transform_without_candidates_witness :
  transform (Examples.env_no_client (Other "File" [] [JSXText (js "Hello") []])) []
    Examples.paragraph_file None false =
    match toSource (Examples.env_no_client (Other "File" [] [JSXText (js "Hello") []]))
            (Other "File" [] [JSXText (js "Hello") []]) with
    | Normal output =>
        (output, [root_find FindStringLiteral; root_find FindJSXText; root_find FindComment])
    | Throw e =>
        (source Examples.paragraph_file,
         [ root_find FindStringLiteral; root_find FindJSXText; root_find FindComment;
           console_error (failed_to_process (path_of Examples.paragraph_file) e) None ])
    end.
Proof.
  apply (transform_without_candidates
           (Examples.env_no_client (Other "File" [] [JSXText (js "Hello") []])) []
           Examples.paragraph_file None false (Other "File" [] [JSXText (js "Hello") []])).
  - reflexivity.
  - intros p Hp. apply classify_targets in Hp. vm_compute in Hp. by apply elem_of_nil in Hp.
Defined.

Lemma call_all_log_no_client env filePath k cs e :
  new_OpenAI env = Throw e → (call_all env false filePath k cs).2 = [].
Proof.
  intros Hnew. revert k. induction cs as [|c cs IH]; intros k; [done|].
  cbn [call_all snd]. by rewrite IH, call_log, Hnew.
Qed.

(** X5. When the client cannot be built ([new OpenAI()] of line 17 throws,
    as it does without an API key) and the file has a candidate, a run that
    is not a dry run sends no request and writes to no node: [transform]
    returns the text that was read, and its log is the three searches followed
    by one diagnostic that carries the client's error. *)
Theorem transform_without_client env sched fileInfo api root e p :
  parse env api (source fileInfo) = Normal root →
  new_OpenAI env = Throw e →
  is_candidate root p →
  transform env sched fileInfo api false =
    (source fileInfo,
     [ root_find FindStringLiteral; root_find FindJSXText; root_find FindComment;
       console_error (failed_to_process (path_of fileInfo) e) None ]).
Proof.
  intros Hparse Hnew Hp.
  assert (classify root ≠ []) as Hne.
  { intros Hnil. apply classify_targets in Hp. rewrite Hnil in Hp.
    by apply elem_of_nil in Hp. }
  unfold transform, transform_try. rewrite Hparse.
  rewrite (translate_tree_throws env sched false (path_of fileInfo) root e) by done.
  rewrite collect_log. simpl. by rewrite !(call_all_log_no_client _ _ _ _ e Hnew).
Qed.

Lemma transform_without_client_witness :
  transform (Examples.env_no_client Examples.paragraph) [] Examples.paragraph_file None false =
    (source Examples.paragraph_file,
     [ root_find FindStringLiteral; root_find FindJSXText; root_find FindComment;
       console_error
         (failed_to_process (path_of Examples.paragraph_file) Examples.missing_key) None ]).
Proof.
  apply (transform_without_client (Examples.env_no_client Examples.paragraph) []
           Examples.paragraph_file None Examples.paragraph Examples.missing_key
           (AtNode [0; 0]%nat)); reflexivity.
Defined.

(** ** What [processFile] writes *)

Lemma transform_file_writes env sched fileInfo api dryRun :
  file_writes (transform env sched fileInfo api dryRun).2 = [].
Proof.
  unfold transform, transform_try.
  destruct (parse env api (source fileInfo)) as [root|e] eqn:Hparse; [|done].
  destruct (translate_tree_log env sched dryRun (path_of fileInfo) root) as (l' & Hl & Hq).
  assert (file_writes (translate_tree env sched dryRun (path_of fileInfo) root).2 = []) as Hw.
  { by rewrite Hl, file_writes_app, collect_file_writes, after_loops_file_writes. }
  destruct (translate_tree env sched dryRun (path_of fileInfo) root) as [[final|e] log];
    simpl in *.
  - destruct (toSource env final); simpl; [done|]. by rewrite file_writes_app, Hw.
  - by rewrite file_writes_app, Hw.
Qed.

(** X6. [processFile] writes at most once, and only to the file it was
    given: never in a dry run, never when the file could not be read, and
    otherwise exactly once, with what [transform] returned. What it writes is
    therefore the text that was read, or the printer's rendering of the tree
    as it stood when every translation had settled; nothing else reaches the
    disk. *)
Theorem processFile_writes_once env sched file dryRun :
  file_writes (processFile env sched file dryRun) =
    match readFile env file with
    | Throw _ => []
    | Normal src =>
        if dryRun then []
        else [(file, (transform env sched (mkFileInfo file src) (parser_for file) false).1)]
    end ∧
  ∀ f data, (f, data) ∈ file_writes (processFile env sched file dryRun) →
    f = file ∧ dryRun = false ∧
    ∃ src, readFile env file = Normal src ∧
      (data = src ∨
       ∃ root final log,
         parse env (parser_for file) src = Normal root ∧
         translate_tree env sched false file root = (Normal final, log) ∧
         toSource env final = Normal data).
Proof.
  assert (file_writes (processFile env sched file dryRun) =
    match readFile env file with
    | Throw _ => []
    | Normal src =>
        if dryRun then []
        else [(file, (transform env sched (mkFileInfo file src) (parser_for file) false).1)]
    end) as Heq.
  { unfold processFile. destruct (readFile env file) as [src|e]; [|done].
    pose proof (transform_file_writes env sched (mkFileInfo file src) (parser_for file) dryRun)
      as Hw.
    destruct (transform env sched (mkFileInfo file src) (parser_for file) dryRun)
      as [output log] eqn:Ht.
    simpl in Hw. destruct dryRun; cbn [negb].
    - change (fs_readFile file :: log) with ([fs_readFile file] ++ log).
      by rewrite file_writes_app, Hw.
    - rewrite Ht. cbn [fst].
      destruct (writeFile env file output);
        change (fs_readFile file :: ?l) with ([fs_readFile file] ++ l);
        rewrite !file_writes_app, Hw; done. }
  split; [done|]. rewrite Heq. intros f data Hin.
  destruct (readFile env file) as [src|e]; [|by apply elem_of_nil in Hin].
  destruct dryRun; [by apply elem_of_nil in Hin|].
  apply list_elem_of_singleton in Hin. injection Hin as -> ->.
  split; [done|]. split; [done|]. exists src. split; [done|].
  unfold transform, transform_try. simpl.
  destruct (parse env (parser_for file) src) as [root|e] eqn:Hparse; [|by left].
  destruct (translate_tree env sched false file root) as [[final|e] log] eqn:Htree;
    [|by left].
  destruct (toSource env final) as [output|e] eqn:Hprint; [|by left].
  right. simpl. eauto 10.
Qed.

(** X7. A run that is not a dry run writes the file even when [transform]
    failed on it (the parser threw, a promise was rejected, or the printer
    threw): the text that was read is written back, after the diagnostic of
    [transform], and when the write succeeds the file is reported as
    processed. *)
Theorem processFile_after_failed_transform env sched file src e log :
  readFile env file = Normal src →
  transform_throws env sched (mkFileInfo file src) (parser_for file) false e log →
  processFile env sched file false =
    fs_readFile file :: log ++
    console_error (failed_to_process file e) None ::
    fs_writeFile file src ::
    match writeFile env file src with
    | Normal _ => [console_log (js "Processed " ++ file)]
    | Throw e' => skipped file e'
    end.
Proof.
  intros Hread Hthrows. apply transform_try_throws in Hthrows.
  unfold processFile, transform. rewrite Hread, Hthrows. simpl.
  destruct (writeFile env file src); by rewrite <- app_assoc.
Qed.

Lemma processFile_after_failed_transform_witness :
  processFile (Examples.env_no_client Examples.paragraph) [] Examples.app_jsx false =
    fs_readFile Examples.app_jsx ::
    [root_find FindStringLiteral; root_find FindJSXText; root_find FindComment] ++
    console_error (failed_to_process Examples.app_jsx Examples.missing_key) None ::
    fs_writeFile Examples.app_jsx (js "source text") ::
    match writeFile (Examples.env_no_client Examples.paragraph) Examples.app_jsx
            (js "source text") with
    | Normal _ => [console_log (js "Processed " ++ Examples.app_jsx)]
    | Throw e' => skipped Examples.app_jsx e'
    end.
Proof.
  apply (processFile_after_failed_transform (Examples.env_no_client Examples.paragraph) []
           Examples.app_jsx (js "source text") Examples.missing_key).
  - reflexivity.
  - eapply task_rejected; reflexivity.
Defined.

(** ** The driver *)

Lemma call_all_log_no_fs env dryRun filePath k cs :
  Forall no_fs (call_all env dryRun filePath k cs).2.
Proof.
  revert k. induction cs as [|c cs IH]; intros k; simpl; [constructor|].
  apply list.Forall_app. split; [|apply IH]. rewrite call_log.
  destruct dryRun; [by repeat constructor|].
  destruct (new_OpenAI env); by repeat constructor.
Qed.

Lemma after_loops_no_fs l : Forall after_loops l → Forall no_fs l.
Proof. apply Forall_impl. by intros []. Qed.

(** [transform] itself never touches the file system. *)
Lemma transform_log_no_fs env sched fileInfo api dryRun :
  Forall no_fs (transform env sched fileInfo api dryRun).2.
Proof.
  destruct (parse env api (source fileInfo)) as [root|e] eqn:Hparse.
  - destruct (transform_log_split env sched fileInfo api dryRun root Hparse)
      as (l' & -> & Hq).
    apply list.Forall_app. split; [|by apply after_loops_no_fs].
    rewrite collect_log.
    repeat (first [ constructor; [done|]
                  | apply list.Forall_app; split; [apply call_all_log_no_fs|] ]).
    apply call_all_log_no_fs.
  - unfold transform, transform_try. rewrite Hparse. by repeat constructor.
Qed.

Lemma no_fs_file_reads l : Forall no_fs l → file_reads l = [].
Proof. induction 1 as [|e l He _ IH]; [done|]. unfold file_reads in *. by destruct e. Qed.

Lemma file_reads_app l1 l2 : file_reads (l1 ++ l2) = file_reads l1 ++ file_reads l2.
Proof. apply omap_app. Qed.

(** [processFile] reads the file it was given, once, and no other. *)
Lemma processFile_reads env sched file dryRun :
  file_reads (processFile env sched file dryRun) = [file].
Proof.
  unfold processFile. destruct (readFile env file) as [src|e]; [|done].
  pose proof (transform_log_no_fs env sched (mkFileInfo file src) (parser_for file) dryRun)
    as Hno. apply no_fs_file_reads in Hno.
  destruct (transform env sched (mkFileInfo file src) (parser_for file) dryRun)
    as [output log].
  simpl in Hno. destruct dryRun; cbn [negb].
  - change (fs_readFile file :: log) with ([fs_readFile file] ++ log).
    by rewrite file_reads_app, Hno.
  - destruct (writeFile env file output);
      change (fs_readFile file :: ?l) with ([fs_readFile file] ++ l);
      by rewrite !file_reads_app, Hno.
Qed.

Lemma file_events_app l1 l2 : file_events (l1 ++ l2) = file_events l1 ++ file_events l2.
Proof. apply omap_app. Qed.

Lemma glob_calls_app l1 l2 : glob_calls (l1 ++ l2) = glob_calls l1 ++ glob_calls l2.
Proof. apply omap_app. Qed.

Lemma file_events_in_file n (l : list event) : file_events (in_file n <$> l) = l.
Proof. induction l as [|e l IH]; [done|]. unfold file_events in *. csimpl. by rewrite IH. Qed.

Lemma glob_calls_in_file n (l : list event) : glob_calls (in_file n <$> l) = [].
Proof. induction l as [|e l IH]; [done|]. unfold glob_calls in *. csimpl. by rewrite IH. Qed.

Lemma process_files_glob_calls w d n files : glob_calls (process_files w d n files) = [].
Proof.
  revert n. induction files as [|file files IH]; intros n; [done|].
  simpl. by rewrite glob_calls_app, glob_calls_in_file, IH.
Qed.

Lemma process_files_no_catch w d n files :
  Forall (λ e, is_main_catch e = false) (process_files w d n files).
Proof.
  revert n. induction files as [|file files IH]; intros n; simpl; [constructor|].
  apply list.Forall_app. split; [|apply IH].
  apply list.Forall_forall. intros e He. by apply list_elem_of_fmap in He as (e' & -> & _).
Qed.

(** Every file of the list is read, in order, whatever happens to the
    others. *)
Lemma process_files_reads w d n files :
  file_reads (file_events (process_files w d n files)) = files.
Proof.
  revert n. induction files as [|file files IH]; intros n; [done|].
  simpl. rewrite file_events_app, file_events_in_file, file_reads_app.
  by rewrite processFile_reads, IH.
Qed.

Lemma process_files_writes w d n files f data :
  (f, data) ∈ file_writes (file_events (process_files w d n files)) →
  d = false ∧ f ∈ files.
Proof.
  revert n. induction files as [|file files IH]; intros n.
  - by intros ?%elem_of_nil.
  - simpl. rewrite file_events_app, file_events_in_file, file_writes_app, elem_of_app.
    intros [Hin|Hin].
    + unfold processFile in Hin.
      destruct (readFile (env_at w n) file) as [src|e]; [|by apply elem_of_nil in Hin].
      pose proof (transform_file_writes (env_at w n) (sched_at w n) (mkFileInfo file src)
                    (parser_for file) d) as Hw.
      destruct (transform (env_at w n) (sched_at w n) (mkFileInfo file src)
                  (parser_for file) d) as [output log].
      simpl in Hw. destruct d; cbn [negb] in Hin.
      * change (fs_readFile file :: log) with ([fs_readFile file] ++ log) in Hin.
        rewrite file_writes_app, Hw in Hin. by apply elem_of_nil in Hin.
      * split; [done|].
        assert ((f, data) ∈ [(file, output)]) as Hone.
        { destruct (writeFile (env_at w n) file output);
            change (fs_readFile file :: ?l) with ([fs_readFile file] ++ l) in Hin;
            by rewrite !file_writes_app, Hw in Hin. }
        apply list_elem_of_singleton in Hone. injection Hone as -> _. left.
    + destruct (IH (S n) Hin) as [? ?]. split; [done|]. by right.
Qed.

Lemma process_files_dry_run w n files :
  file_writes (file_events (process_files w true n files)) = [] ∧
  requests (file_events (process_files w true n files)) = [].
Proof.
  revert n. induction files as [|file files IH]; intros n; [done|].
  simpl. rewrite file_events_app, file_events_in_file, file_writes_app, requests_app.
  destruct (processFile_dry_run_no_write (env_at w n) (sched_at w n) file) as [-> ->].
  apply IH.
Qed.

(** X8. The first positional argument is never searched (under [zx] it is
    the script itself): with one positional argument [main] does exactly what
    it does with none, namely search the working directory, and with more it
    searches all but the first. *)
Theorem main_ignores_first_positional w x x' rest d :
  main w (mkArgv [x] d) = main w (mkArgv [] d) ∧
  main w (mkArgv (x :: rest) d) = main w (mkArgv (x' :: rest) d) ∧
  (∃ l, main w (mkArgv [x] d) = glob_call (cwd w ++ js "/**/*.{js,jsx,ts,tsx}") :: l) ∧
  (∀ p rest', rest = p :: rest' →
     ∃ l, main w (mkArgv (x :: rest) d) = glob_call (p ++ js "/**/*.{js,jsx,ts,tsx}") :: l).
Proof.
  split; [done|]. split; [by destruct rest|]. split.
  - eexists. reflexivity.
  - intros p rest' ->. eexists. reflexivity.
Qed.

Lemma main_loop_dry_run w n paths :
  file_writes (file_events (main_loop w true n paths)) = [] ∧
  requests (file_events (main_loop w true n paths)) = [].
Proof.
  revert n. induction paths as [|p paths IH]; intros n; [done|].
  simpl. destruct (glob w (glob_pattern p)) as [files|e]; [|done].
  change (glob_call ?g :: ?l) with ([glob_call g] ++ l).
  rewrite !file_events_app, !file_writes_app, !requests_app.
  destruct (process_files_dry_run w n files) as [-> ->].
  destruct (IH (n + length files)%nat) as [-> ->]. done.
Qed.

(** X9. In a dry run [main] writes no file and sends no request, whatever
    the paths, the files found and the failures met. *)
Theorem main_dry_run_writes_nothing w ps :
  file_writes (file_events (main w (mkArgv ps true))) = [] ∧
  requests (file_events (main w (mkArgv ps true))) = [].
Proof. apply main_loop_dry_run. Qed.

Lemma main_loop_found w d n paths files :
  found_files w paths = Some files →
  glob_calls (main_loop w d n paths) = glob_pattern <$> paths ∧
  file_reads (file_events (main_loop w d n paths)) = files ∧
  Forall (λ e, is_main_catch e = false) (main_loop w d n paths).
Proof.
  revert n files. induction paths as [|p paths IH]; intros n files; simpl.
  - by intros [= <-].
  - destruct (glob w (glob_pattern p)) as [fs|e]; [|done].
    destruct (found_files w paths) as [rest|] eqn:Hrest; [|done]. intros [= <-].
    destruct (IH (n + length fs)%nat rest eq_refl) as (Hg & Hr & Hc).
    change (glob_call ?g :: ?l) with ([glob_call g] ++ l).
    rewrite !glob_calls_app, !file_events_app, !file_reads_app.
    rewrite process_files_glob_calls, process_files_reads, Hg, Hr.
    split; [done|]. split; [done|].
    constructor; [done|]. apply list.Forall_app. split; [apply process_files_no_catch|done].
Qed.

(** X10. When every [glob] succeeds, [main] searches each path once, in
    order, reads every file found, once and in the order found, and ends
    without an error of its own: a file that cannot be read, parsed,
    translated, printed or written does not keep the files after it from
    being processed. *)
Theorem main_processes_every_file w argv files :
  found_files w (main_paths w argv) = Some files →
  glob_calls (main w argv) = glob_pattern <$> main_paths w argv ∧
  file_reads (file_events (main w argv)) = files ∧
  Forall (λ e, is_main_catch e = false) (main w argv).
Proof. apply main_loop_found. Qed.

Lemma main_processes_every_file_witness :
  glob_calls (main Examples.repo (mkArgv [js "translate-strings.mjs"; js "src"] false)) =
    glob_pattern <$>
      main_paths Examples.repo (mkArgv [js "translate-strings.mjs"; js "src"] false) ∧
  file_reads
    (file_events (main Examples.repo (mkArgv [js "translate-strings.mjs"; js "src"] false))) =
    [js "src/a.js"; js "src/b.tsx"] ∧
  Forall (λ e, is_main_catch e = false)
    (main Examples.repo (mkArgv [js "translate-strings.mjs"; js "src"] false)).
Proof.
  apply (main_processes_every_file Examples.repo
           (mkArgv [js "translate-strings.mjs"; js "src"] false)
           [js "src/a.js"; js "src/b.tsx"]).
  reflexivity.
Defined.

Lemma main_loop_app w d n ps1 ps2 files :
  found_files w ps1 = Some files →
  main_loop w d n (ps1 ++ ps2) =
    main_loop w d n ps1 ++ main_loop w d (n + length files) ps2.
Proof.
  revert n files. induction ps1 as [|p ps1 IH]; intros n files; simpl.
  - intros [= <-]. simpl. by rewrite Nat.add_0_r.
  - destruct (glob w (glob_pattern p)) as [fs|e]; [|done].
    destruct (found_files w ps1) as [rest|] eqn:Hrest; [|done]. intros [= <-].
    rewrite (IH (n + length fs)%nat rest eq_refl), length_app, Nat.add_assoc.
    by rewrite <- app_assoc.
Qed.

(** X11. A [glob] that throws ends [main]: the paths before it have been
    searched and their files read, the error is the last thing reported, and
    no path after it is searched. *)
Theorem main_stops_at_failed_glob w argv ps1 p ps2 files e :
  main_paths w argv = ps1 ++ p :: ps2 →
  found_files w ps1 = Some files →
  glob w (glob_pattern p) = Throw e →
  glob_calls (main w argv) = glob_pattern <$> (ps1 ++ [p]) ∧
  file_reads (file_events (main w argv)) = files ∧
  ∃ l, main w argv = l ++ [main_catch e].
Proof.
  intros Hpaths Hfound Hglob. unfold main. rewrite Hpaths.
  rewrite (main_loop_app w (dry_run argv) 0 ps1 (p :: ps2) files Hfound).
  destruct (main_loop_found w (dry_run argv) 0 ps1 files Hfound) as (Hg & Hr & _).
  cbn [main_loop]. rewrite Hglob.
  rewrite glob_calls_app, file_events_app, file_reads_app, Hg, Hr, fmap_app.
  split; [done|]. split; [by rewrite app_nil_r|].
  exists (main_loop w (dry_run argv) 0 ps1 ++ [glob_call (glob_pattern p)]).
  by rewrite <- app_assoc.
Qed.

Lemma main_stops_at_failed_glob_witness :
  glob_calls
    (main Examples.repo (mkArgv [js "translate-strings.mjs"; js "src"; js "lib"; js "test"] false)) =
    glob_pattern <$> ([js "src"] ++ [js "lib"]) ∧
  file_reads
    (file_events
       (main Examples.repo
          (mkArgv [js "translate-strings.mjs"; js "src"; js "lib"; js "test"] false))) =
    [js "src/a.js"; js "src/b.tsx"] ∧
  ∃ l, main Examples.repo
         (mkArgv [js "translate-strings.mjs"; js "src"; js "lib"; js "test"] false) =
       l ++ [main_catch Examples.no_such_directory].
Proof.
  apply (main_stops_at_failed_glob Examples.repo
           (mkArgv [js "translate-strings.mjs"; js "src"; js "lib"; js "test"] false)
           [js "src"] (js "lib") [js "test"] [js "src/a.js"; js "src/b.tsx"]
           Examples.no_such_directory); reflexivity.
Defined.

Lemma main_loop_writes w d n paths f data :
  (f, data) ∈ file_writes (file_events (main_loop w d n paths)) →
  d = false ∧
  ∃ p files, p ∈ paths ∧ glob w (glob_pattern p) = Normal files ∧ f ∈ files.
Proof.
  revert n. induction paths as [|p paths IH]; intros n; simpl.
  - by intros ?%elem_of_nil.
  - destruct (glob w (glob_pattern p)) as [files|e] eqn:Hglob;
      [|by intros ?%elem_of_nil].
    change (file_events (glob_call ?g :: ?l)) with (file_events l).
    rewrite !file_events_app, !file_writes_app, !elem_of_app.
    intros [Hin|Hin].
    + destruct (process_files_writes w d n files f data Hin) as [-> Hf].
      split; [done|]. exists p, files. split; [left|done].
    + destruct (IH _ Hin) as (-> & q & fs & Hq & Hg & Hf).
      split; [done|]. exists q, fs. split; [by right|done].
Qed.

(** X12. [main] writes to no file but those a [glob] of one of its paths has
    returned, and to none at all in a dry run. *)
Theorem main_writes_only_found_files w argv f data :
  (f, data) ∈ file_writes (file_events (main w argv)) →
  dry_run argv = false ∧
  ∃ p files, p ∈ main_paths w argv ∧ glob w (glob_pattern p) = Normal files ∧ f ∈ files.
Proof. apply main_loop_writes. Qed.

Lemma main_writes_only_found_files_witness :
  dry_run (mkArgv [js "translate-strings.mjs"; js "src"] false) = false ∧
  ∃ p files,
    p ∈ main_paths Examples.repo (mkArgv [js "translate-strings.mjs"; js "src"] false) ∧
    glob Examples.repo (glob_pattern p) = Normal files ∧ js "src/b.tsx" ∈ files.
Proof.
  apply (main_writes_only_found_files Examples.repo
           (mkArgv [js "translate-strings.mjs"; js "src"] false)
           (js "src/b.tsx") (js "source text")).
  vm_compute. right. left.
Defined.

(** ** A tree without candidates after a successful run *)

Lemma containsJapanese_app (s t : jstring) :
  containsJapanese (s ++ t) = containsJapanese s || containsJapanese t.
Proof. apply existsb_app. Qed.

Lemma containsJapanese_padded (t : jstring) :
  containsJapanese (padded t) = containsJapanese t.
Proof.
  unfold padded. rewrite !containsJapanese_app.
  change (containsJapanese (js " ")) with false. simpl. by rewrite orb_false_r.
Qed.

Lemma containsJapanese_embeds (s t : jstring) :
  embeds s t → containsJapanese s = true → containsJapanese t = true.
Proof.
  intros (pre & post & ->) Hs. rewrite !containsJapanese_app, Hs.
  by rewrite orb_true_r.
Qed.

Lemma containsJapanese_trim (s : jstring) :
  containsJapanese s = false → containsJapanese (trim s) = false.
Proof.
  intros Hs. destruct (containsJapanese (trim s)) eqn:Ht; [|done].
  by rewrite (containsJapanese_embeds _ _ (trim_embeds s) Ht) in Hs.
Qed.

Lemma decide_all_Some d (l : list (target * jstring)) p t :
  decide_all d l p = Some t →
  d p = Some t ∨ ∃ x, x ∈ l ∧ target_path x.1 = p ∧ x.2 = t.
Proof.
  revert d. induction l as [|x l IH]; intros d; [by left|].
  unfold decide_all in *. simpl. intros H. destruct (IH _ H) as [Hd|(y & Hy & Hp & Ht)].
  - unfold decide_at in Hd. case_bool_decide as Hq.
    + right. exists x. split; [left|]. split; [done|congruence].
    + by left.
  - right. exists y. split; [by right|done].
Qed.

(** Every decision is the outcome of the call made for a candidate. *)
Lemma decided_Some env dryRun filePath root p t :
  decided env dryRun filePath root p = Some t →
  ∃ k tg text, classify root !! k = Some (tg, text) ∧ target_path tg = p ∧
               t = translated env k text dryRun filePath.
Proof.
  intros H. apply decide_all_Some in H as [H|(x & Hx & Hp & Ht)]; [done|].
  unfold results in Hx. apply list_elem_of_lookup in Hx as [k Hk].
  rewrite list_lookup_imap in Hk.
  destruct (classify root !! k) as [[tg text]|] eqn:Hc; [|done].
  simpl in Hk. injection Hk as <-. exists k, tg, text. by simpl in *.
Qed.

Lemma not_decided_not_candidate env dryRun filePath root p :
  decided env dryRun filePath root p = None → ¬ is_candidate root p.
Proof.
  intros Hd Hc. apply is_candidate_candidate in Hc as (tg & text & <- & Hc).
  apply candidate_index in Hc as [k Hk].
  by rewrite (decided_candidate env dryRun filePath root k tg text Hk) in Hd.
Qed.

Lemma rewrite_comments_lookup d cs i :
  rewrite_comments d cs !! i =
    (λ c, match d (AtComment [] i) with
          | Some t => assign_value (padded t) c
          | None => c
          end) <$> cs !! i.
Proof. unfold rewrite_comments. apply list_lookup_imap. Qed.

(** X13. When the client is there and the backend answers every request
    with a text that, trimmed, holds nothing of the detector's class, the
    tree handed to the printer has no candidate left: a second run over it
    would translate nothing. *)
Theorem translated_tree_has_no_candidates env sched filePath root :
  new_OpenAI env = Normal () →
  (∀ k tg text, classify root !! k = Some (tg, text) →
     ∃ content rest,
       chat_completions_create env k (translation_request text) =
         Normal (Some content :: rest) ∧
       containsJapanese (trim content) = false) →
  ∃ final log,
    translate_tree env sched false filePath root = (Normal final, log) ∧
    (∀ p, ¬ is_candidate final p) ∧ classify final = [].
Proof.
  intros Hclient Hanswers.
  destruct (translate_tree_final env sched false filePath root (or_intror Hclient))
    as (log & Htree & _ & _).
  exists (rewrite (decided env false filePath root) root), log. split; [done|].
  assert (∀ p t, decided env false filePath root p = Some t →
                 containsJapanese t = false) as Hclean.
  { intros p t (k & tg & text & Hk & _ & ->)%decided_Some.
    destruct (Hanswers k tg text Hk) as (content & rest & Hcreate & Hno).
    unfold translated.
    by rewrite (translateToEnglish_success env k text filePath content rest Hclient Hcreate). }
  assert (∀ p, ¬ is_candidate (rewrite (decided env false filePath root) root) p) as Hnone.
  { intros [a|a i]; unfold is_candidate.
    - rewrite node_at_rewrite. destruct (node_at a root) as [[v cs|v cs|ty cs ch]|] eqn:Hn;
        simpl; [| |tauto|tauto]; rewrite under_addr_node;
        destruct (decided env false filePath root (AtNode a)) as [t|] eqn:Hd; simpl.
      + by rewrite (Hclean _ _ Hd).
      + intros Hv. apply (not_decided_not_candidate _ _ _ _ _ Hd). simpl. by rewrite Hn.
      + rewrite containsJapanese_trim; [done|].
        by rewrite containsJapanese_padded, (Hclean _ _ Hd).
      + intros Hv. apply (not_decided_not_candidate _ _ _ _ _ Hd). simpl. by rewrite Hn.
    - unfold comment_at. rewrite node_at_rewrite.
      destruct (node_at a root) as [n|] eqn:Hn; simpl; [|tauto].
      assert (∀ c, rewrite_comments (λ p, decided env false filePath root (under_addr a p))
                     (comments_of n) !! i = Some c →
                   containsJapanese (trim (c_value c)) ≠ true) as Hcs.
      { intros c. rewrite rewrite_comments_lookup, under_addr_comment.
        destruct (comments_of n !! i) as [c0|] eqn:Hc0; [|done]. simpl.
        destruct (decided env false filePath root (AtComment a i)) as [t|] eqn:Hd;
          intros [= <-].
        - simpl. rewrite containsJapanese_trim; [done|].
          by rewrite containsJapanese_padded, (Hclean _ _ Hd).
        - intros Hv. apply (not_decided_not_candidate _ _ _ _ _ Hd). simpl.
          unfold comment_at. rewrite Hn. simpl. by rewrite Hc0. }
      destruct n as [v cs|v cs|ty cs ch]; simpl in *.
      + rewrite under_addr_node.
        destruct (decided env false filePath root (AtNode a)); simpl.
        * tauto.
        * destruct (rewrite_comments _ cs !! i) as [c|] eqn:Hc; [|tauto].
          by apply Hcs.
      + rewrite under_addr_node.
        destruct (decided env false filePath root (AtNode a)); simpl.
        * tauto.
        * destruct (rewrite_comments _ cs !! i) as [c|] eqn:Hc; [|tauto].
          by apply Hcs.
      + destruct (rewrite_comments _ cs !! i) as [c|] eqn:Hc; [|tauto].
        by apply Hcs. }
  split; [done|]. by apply classify_nil.
Qed.

Lemma translated_tree_has_no_candidates_witness :
  ∃ final log,
    translate_tree (Examples.env_of Examples.labelled_call Examples.says_hello) [1; 0]%nat
      false Examples.app_tsx Examples.labelled_call = (Normal final, log) ∧
    (∀ p, ¬ is_candidate final p) ∧ classify final = [].
Proof.
  apply (translated_tree_has_no_candidates
           (Examples.env_of Examples.labelled_call Examples.says_hello) [1; 0]%nat
           Examples.app_tsx Examples.labelled_call).
  - reflexivity.
  - intros k tg text _. exists (js " Hello "), []. split; reflexivity.
Defined.

(** ** A dry run needs neither the client nor the backend *)

Lemma collect_dry_run env env' filePath root :
  collect env true filePath root = collect env' true filePath root.
Proof. reflexivity. Qed.

Lemma dry_run_tasks_settled env filePath root :
  Forall (λ t, ∃ v, t_promise t = Settled (Normal v)) (collect env true filePath root).1.
Proof.
  rewrite collect_tasks, call_all_tasks. apply list.Forall_forall. intros t Ht.
  apply list_elem_of_lookup in Ht as [i Hi]. rewrite list_lookup_imap in Hi.
  destruct (classify root !! i) as [c|]; [|done]. simpl in Hi. injection Hi as <-.
  by exists (dry_run_marker c.2).
Qed.

Lemma settle_order_settled sched tasks :
  Forall (λ t, ∃ v, t_promise t = Settled (Normal v)) tasks →
  settle_order sched tasks = tasks.
Proof.
  intros Hall. unfold settle_order.
  assert (filter (λ t, is_awaiting t = true) tasks = []) as ->.
  { induction Hall as [|t l [v Ht] _ IH]; [done|].
    rewrite filter_cons_False; [done|]. unfold is_awaiting. by rewrite Ht. }
  rewrite schedule_nil, app_nil_r.
  induction Hall as [|t l [v Ht] _ IH]; [done|].
  rewrite filter_cons_True; [by rewrite IH|]. unfold is_awaiting. by rewrite Ht.
Qed.

Lemma foldl_settle_settled env env' filePath tasks st :
  Forall (λ t, ∃ v, t_promise t = Settled (Normal v)) tasks →
  foldl (settle env filePath) st tasks = foldl (settle env' filePath) st tasks.
Proof.
  intros Hall. revert st. induction Hall as [|t l [v Ht] _ IH]; intros st; [done|].
  simpl. rewrite IH. f_equal. unfold settle. by rewrite Ht.
Qed.

Lemma await_all_settled env env' sched sched' filePath tasks root :
  Forall (λ t, ∃ v, t_promise t = Settled (Normal v)) tasks →
  await_all env sched filePath tasks root = await_all env' sched' filePath tasks root.
Proof.
  intros Hall. unfold await_all. destruct (first_rejection tasks); [done|].
  rewrite !(settle_order_settled _ tasks Hall).
  by rewrite (foldl_settle_settled env env' filePath tasks (root, []) Hall).
Qed.

(** X14. A dry run of [transform] depends on the parser and the printer
    only: whether the client can be built, what the backend would answer and
    in which order make no difference to the text returned nor to anything
    logged. *)
Theorem dry_run_needs_no_backend env env' sched sched' fileInfo api :
  parse env api (source fileInfo) = parse env' api (source fileInfo) →
  (∀ n, toSource env n = toSource env' n) →
  transform env sched fileInfo api true = transform env' sched' fileInfo api true.
Proof.
  intros Hparse Hprint. unfold transform, transform_try. rewrite <- Hparse.
  destruct (parse env api (source fileInfo)) as [root|e]; [|done].
  assert (translate_tree env sched true (path_of fileInfo) root =
          translate_tree env' sched' true (path_of fileInfo) root) as <-.
  { unfold translate_tree. rewrite <- (collect_dry_run env env').
    pose proof (dry_run_tasks_settled env (path_of fileInfo) root) as Hall.
    destruct (collect env true (path_of fileInfo) root) as [tasks log]. simpl in Hall.
    by rewrite (await_all_settled env env' sched sched' _ tasks root Hall). }
  destruct (translate_tree env sched true (path_of fileInfo) root) as [[final|e] log];
    [|done].
  by rewrite <- Hprint.
Qed.

Lemma dry_run_needs_no_backend_witness :
  transform (Examples.env_of Examples.paragraph Examples.says_hello) [0%nat]
    Examples.paragraph_file None true =
  transform (Examples.env_no_client Examples.paragraph) []
    Examples.paragraph_file None true.
Proof.
  apply (dry_run_needs_no_backend
           (Examples.env_of Examples.paragraph Examples.says_hello)
           (Examples.env_no_client Examples.paragraph) [0%nat] []
           Examples.paragraph_file None).
  - reflexivity.
  - intros n. reflexivity.
Defined.

(** ** The parser chosen for a file *)

Lemma endsWith_spec (s suffix : jstring) :
  endsWith s suffix = true ↔ ∃ pre, s = pre ++ suffix.
Proof.
  unfold endsWith. rewrite bool_decide_eq_true. split.
  - intros H. exists (take (length s - length suffix) s).
    rewrite <- H at 2. by rewrite take_drop.
  - intros [pre ->]. rewrite length_app.
    replace (length pre + length suffix - length suffix)%nat with (length pre) by lia.
    by rewrite drop_app_length.
Qed.

(** X15. [processFile] selects the [tsx] parser exactly for the file names
    that end in [.ts] or [.tsx], whatever comes before, and leaves the choice
    to jscodeshift for every other name, those in [.js] and [.jsx] among
    them. *)
Theorem parser_for_extension (file : jstring) :
  (parser_for file = Some (js "tsx") ↔
     ∃ stem, file = stem ++ js ".ts" ∨ file = stem ++ js ".tsx") ∧
  (parser_for file = None ↔
     ¬ ∃ stem, file = stem ++ js ".ts" ∨ file = stem ++ js ".tsx") ∧
  (∀ stem, parser_for (stem ++ js ".js") = None ∧ parser_for (stem ++ js ".jsx") = None).
Proof.
  assert (∀ f, parser_for f = Some (js "tsx") ↔
               ∃ stem, f = stem ++ js ".ts" ∨ f = stem ++ js ".tsx") as Hiff.
  { intros f. unfold parser_for.
    destruct (endsWith f (js ".ts")) eqn:H1; [|destruct (endsWith f (js ".tsx")) eqn:H2];
      simpl.
    - apply endsWith_spec in H1 as [pre ->]. split; [|done]. intros _. exists pre. by left.
    - apply endsWith_spec in H2 as [pre ->]. split; [|done]. intros _. exists pre. by right.
    - split; [done|]. intros [stem [->| ->]].
      + assert (endsWith (stem ++ js ".ts") (js ".ts") = true) as Ht
          by (apply endsWith_spec; by exists stem).
        congruence.
      + assert (endsWith (stem ++ js ".tsx") (js ".tsx") = true) as Ht
          by (apply endsWith_spec; by exists stem).
        congruence. }
  assert (∀ f, parser_for f = None ↔
               ¬ ∃ stem, f = stem ++ js ".ts" ∨ f = stem ++ js ".tsx") as Hnone.
  { intros f. rewrite <- Hiff. unfold parser_for.
    destruct (endsWith f (js ".ts") || endsWith f (js ".tsx")); split;
      first [done | by intros H; destruct H]. }
  split; [apply Hiff|]. split; [apply Hnone|].
  intros stem. split; apply Hnone; intros [stem' [H|H]].
  - apply app_inj_2 in H as [_ H]; [done|reflexivity].
  - change (js ".tsx") with ([46] ++ js "tsx") in H. rewrite app_assoc in H.
    apply app_inj_2 in H as [_ H]; [done|reflexivity].
  - change (js ".jsx") with ([46] ++ js "jsx") in H. rewrite app_assoc in H.
    apply app_inj_2 in H as [_ H]; [done|reflexivity].
  - apply app_inj_2 in H as [_ H]; [done|reflexivity].
Qed.
